(** * Puddle: WebSocket client registry, route table and response guard

    A shallow embedding of the parts of the Puddle framework that carry
    invariants:

    - [WS]: the [WebSocketClient] class (client ids, the static client list,
      attribute selection, outbound message state and sending);
    - [Router]: the [Route] table (match-key deduplication on registration);
    - [Response]: [SystemResponse], its [send] guard and what [respondWith]
      is handed, with the runtime's [Headers] and [Response] as far as the
      class uses them;
    - [Logger]: the log files, over the runtime's file system.

    JavaScript objects used as dictionaries are finite maps, arrays are lists,
    exceptions are an explicit completion, and calls into the platform
    ([WebSocket.send], [respondWith]) are recorded in a trace. *)

From Stdlib Require Import ZArith Lia.
From stdpp Require Import gmap strings list fin_maps sorting.

Local Open Scope Z_scope.

(* ===================================================================== *)
(** ** JavaScript values *)
(* ===================================================================== *)

Module JS.

(** The values an attribute of type [any] can hold.  Numbers are restricted
    to the integers and [NaN]; objects are known by their address only. *)
Inductive Value :=
| Undefined
| Null
| Bool (b : bool)
| Num (n : Z)
| NaN
| Str (s : string)
| Object (addr : Z).

#[global] Instance Value_eq_dec : EqDecision Value.
Proof. solve_decision. Defined.

(** [!v] is [false] exactly for the truthy values: everything except
    [undefined], [null], [false], [0], [NaN] and the empty string. *)
Definition truthy (v : Value) : bool :=
  match v with
  | Undefined | Null | NaN => false
  | Bool b => b
  | Num n => negb (n =? 0)
  | Str s => negb (String.eqb s "")
  | Object _ => true
  end.

(** What a socket carries: [string | ArrayBufferLike | Blob | ArrayBufferView].
    The three binary kinds are objects; only their bytes matter here. *)
Inductive Payload :=
| Text (s : string)
| Binary (bytes : list Z).

#[global] Instance Payload_eq_dec : EqDecision Payload.
Proof. solve_decision. Defined.

(** Truthiness of a payload: an object is always truthy, a string is truthy
    unless it is empty. *)
Definition payload_truthy (p : Payload) : bool :=
  match p with
  | Text s => negb (String.eqb s "")
  | Binary _ => true
  end.

(** How a call ends: it returns a value or throws. *)
Inductive Completion (A : Type) :=
| Return (a : A)
| Throw (e : string).
Arguments Return {A} a.
Arguments Throw {A} e.

(** [Array.prototype.filter] and [.length]. *)
Definition length {A} (l : list A) : Z := Z.of_nat (List.length l).

(** [Boolean(n)] and [!n] for a number [n]. *)
Definition Boolean (n : Z) : bool := negb (n =? 0).
Definition not (n : Z) : bool := n =? 0.

End JS.

(* ===================================================================== *)
(** ** WebSocketClient *)
(* ===================================================================== *)

Module WS.
Import JS.

(** *** The platform's sockets *)

Inductive ReadyState := CONNECTING | OPEN | CLOSING | CLOSED.

(** A [WebSocket] object is known by its handle; its ready state belongs to
    the runtime and is read from the world at the time of each call. *)
Definition WebSocket := Z.

(** One call of [webSocket.send(data)]: the frame was handed to the socket,
    or the call threw. *)
Inductive SocketEvent :=
| Sent (ws : WebSocket) (data : Payload)
| Refused (ws : WebSocket) (data : Payload).

#[global] Instance SocketEvent_eq_dec : EqDecision SocketEvent.
Proof. solve_decision. Defined.

Record World := mkWorld {
  readyState : WebSocket → ReadyState;
  wire : list SocketEvent   (* calls of [webSocket.send], oldest first *)
}.

Definition emit (e : SocketEvent) (w : World) : World :=
  {| readyState := readyState w; wire := wire w ++ [e] |}.

(** Code that talks to sockets: it changes the world and returns or throws.
    What was written before a throw stays written. *)
Definition IO (A : Type) : Type := World → Completion A * World.

Definition ret {A} (a : A) : IO A := fun w => (Return a, w).

Definition bind {A B} (m : IO A) (k : A → IO B) : IO B :=
  fun w =>
    match m w with
    | (Return a, w') => k a w'
    | (Throw e, w') => (Throw e, w')
    end.

Notation "m 'then_' k" := (bind m (fun _ => k))
  (at level 100, right associativity).

(** [WebSocket.prototype.send] of the runtime the framework runs on (Deno):
    an [InvalidStateError] unless the socket is open.  Browsers throw only
    while the socket is connecting; the theorems below need no more than
    that an open socket takes the frame, and the examples of a throwing
    socket use one that is connecting. *)
Definition WebSocket_send (ws : WebSocket) (data : Payload) : IO unit :=
  fun w =>
    match readyState w ws with
    | OPEN => (Return tt, emit (Sent ws data) w)
    | _ => (Throw "InvalidStateError", emit (Refused ws data) w)
    end.

(** [Array.prototype.forEach]: the callback runs on the elements in index
    order; an exception thrown by the callback leaves the loop. *)
Fixpoint forEach {A} (l : list A) (callback : A → IO unit) : IO unit :=
  match l with
  | [] => ret tt
  | x :: l' => callback x then_ forEach l' callback
  end.

(** *** The class *)

(** Private fields carry a leading underscore ([#id] is [_id]).  The target
    list [#to] holds clients, so the type is recursive. *)
#[local] Unset Elimination Schemes.
Inductive WebSocketClient := mkClient {
  variables : gmap string string;
  _id : Z;
  _attributes : gmap string Value;
  _webSocket : WebSocket;
  _url : string;
  _message : Payload;
  _to : list WebSocketClient
}.
#[local] Set Elimination Schemes.

(** The static members: [lastInsertedId] and [list] (here [clients], an
    object keyed by client id).  Ids are counted in the integers, which is
    what JavaScript numbers do below 2^53. *)
Record Static := mkStatic {
  lastInsertedId : Z;
  clients : gmap Z WebSocketClient
}.

Definition initial : Static := {| lastInsertedId := 0; clients := ∅ |}.

(** [constructor(webSocket, url, variables)]: takes the id
    [lastInsertedId++] and stores the new object under it. *)
Definition new_WebSocketClient (webSocket : WebSocket) (url : string)
    (variables : gmap string string) (st : Static) : WebSocketClient * Static :=
  let this :=
    {| variables := variables;
       _id := lastInsertedId st;
       _attributes := ∅;
       _webSocket := webSocket;
       _url := url;
       _message := Text "";
       _to := [] |} in
  (this, {| lastInsertedId := lastInsertedId st + 1;
            clients := <[_id this := this]> (clients st) |}).

(** Getters. *)
Definition url (this : WebSocketClient) : string := _url this.
Definition message (this : WebSocketClient) : Payload := _message this.
Definition id (this : WebSocketClient) : Z := _id this.
Definition webSocket (this : WebSocketClient) : WebSocket := _webSocket this.

(** [Object.keys(o)] and [Object.values(o)] of an object with integer keys:
    in ascending key order. *)
Definition key_le {A} (p q : Z * A) : Prop := p.1 ≤ q.1.

#[global] Instance key_le_dec {A} (p q : Z * A) : Decision (key_le p q).
Proof. unfold key_le. apply _. Defined.

Definition Object_entries {A} (o : gmap Z A) : list (Z * A) :=
  merge_sort key_le (map_to_list o).
Definition Object_keys {A} (o : gmap Z A) : list Z := (Object_entries o).*1.
Definition Object_values {A} (o : gmap Z A) : list A := (Object_entries o).*2.

(** [static get concurrentConnections()]. *)
Definition concurrentConnections (st : Static) : Z :=
  JS.length (Object_keys (clients st)).

(** [getAttribute(key)]: [Map.prototype.get] gives [undefined] for a key
    that is not in the map. *)
Definition getAttribute (this : WebSocketClient) (key : string) : Value :=
  match _attributes this !! key with
  | Some v => v
  | None => Undefined
  end.

Definition with_attributes (this : WebSocketClient)
    (attrs : gmap string Value) : WebSocketClient :=
  {| variables := variables this; _id := _id this; _attributes := attrs;
     _webSocket := _webSocket this; _url := _url this;
     _message := _message this; _to := _to this |}.

(** [setAttribute(key, value)]. *)
Definition setAttribute (key : string) (value : Value)
    (this : WebSocketClient) : WebSocketClient :=
  with_attributes this (<[key := value]> (_attributes this)).

(** An object literal [{k1: v1, k2: v2, ...}] with string keys, in the order
    written. *)
Definition Attributes := list (string * Value).

Definition keys_of (o : Attributes) : list string := o.*1.

(** [setAttributes(attributes)]: sets the keys in order. *)
Definition setAttributes (attributes : Attributes)
    (this : WebSocketClient) : WebSocketClient :=
  foldl (fun c kv => setAttribute kv.1 kv.2 c) this attributes.

(** [removeAttribute(key)]: the removed value, and the client without it. *)
Definition removeAttribute (key : string)
    (this : WebSocketClient) : Value * WebSocketClient :=
  let removedAttribute := getAttribute this key in
  (removedAttribute, with_attributes this (delete key (_attributes this))).

(** [static getClientById(id)]: a property read, [undefined] ([None]) when
    the object has no such key. *)
Definition getClientById (st : Static) (id : Z) : option WebSocketClient :=
  clients st !! id.

(** [static getAllClients()]. *)
Definition getAllClients (st : Static) : list WebSocketClient :=
  Object_values (clients st).

(** [static getClientsByAttribute(...attributes)], filter by filter as in
    the source. *)
Definition getClientsByAttribute (st : Static)
    (attributes : list Attributes) : list WebSocketClient :=
  let allClients := Object_values (clients st) in
  List.filter (fun client =>
    Boolean (JS.length (List.filter (fun attribute =>
      JS.not (JS.length (List.filter (fun key =>
        negb (truthy (getAttribute client key))) (keys_of attribute))))
      attributes)))
    allClients.

(** [setMessage(message)]. *)
Definition setMessage (message : Payload)
    (this : WebSocketClient) : WebSocketClient :=
  {| variables := variables this; _id := _id this;
     _attributes := _attributes this; _webSocket := _webSocket this;
     _url := _url this; _message := message; _to := _to this |}.

(** [to(clients)]. *)
Definition to (clients : list WebSocketClient)
    (this : WebSocketClient) : WebSocketClient :=
  {| variables := variables this; _id := _id this;
     _attributes := _attributes this; _webSocket := _webSocket this;
     _url := _url this; _message := _message this; _to := clients |}.

(** [static send(clients, message)]. *)
Definition WebSocketClient_send (clients : list WebSocketClient)
    (message : Payload) : IO unit :=
  forEach clients (fun client => WebSocket_send (webSocket client) message).

(** [clients || this.#to]: an array is truthy even when empty, so only an
    omitted argument falls through. *)
Definition or_clients (clients : option (list WebSocketClient))
    (dflt : list WebSocketClient) : list WebSocketClient :=
  match clients with
  | Some l => l
  | None => dflt
  end.

(** [message || this.#message]: an omitted argument and the empty string
    both fall through. *)
Definition or_message (message : option Payload) (dflt : Payload) : Payload :=
  match message with
  | Some p => if payload_truthy p then p else dflt
  | None => dflt
  end.

(** [send(clients?, message?)]. *)
Definition send (this : WebSocketClient)
    (clients : option (list WebSocketClient))
    (message : option Payload) : IO unit :=
  WebSocketClient_send (or_clients clients (_to this))
                       (or_message message (_message this)).

(** [reply(message?)]. *)
Definition reply (this : WebSocketClient) (message : option Payload) : IO unit :=
  send this (Some [this]) message.

(** [static sendAll(message)]. *)
Definition sendAll (st : Static) (message : Payload) : IO unit :=
  WebSocketClient_send (getAllClients st) message.

(** *** The life of the registry *)

(** Modelled from the spec: [unregister(id)], the removal of the entry that
    the connection handler performs when a socket closes; the handler is not
    among the sources.  "Removes the entry; removing an absent id is a no-op,
    not an error." *)
Definition unregister (id : Z) (st : Static) : Static :=
  {| lastInsertedId := lastInsertedId st;
     clients := delete id (clients st) |}.

(** The methods that assign to a field of their client. *)
Inductive Mutation :=
| SetAttribute (key : string) (value : Value)
| SetAttributes (attributes : Attributes)
| RemoveAttribute (key : string)
| SetMessage (message : Payload)
| To (clients : list WebSocketClient).

Definition mutate (m : Mutation) (this : WebSocketClient) : WebSocketClient :=
  match m with
  | SetAttribute key value => setAttribute key value this
  | SetAttributes attributes => setAttributes attributes this
  | RemoveAttribute key => (removeAttribute key this).2
  | SetMessage message => setMessage message this
  | To clients => to clients this
  end.

(** What can happen to the static state: a socket opens (a client is
    constructed), a socket closes (its client is unregistered), or a handler
    calls a mutating method on the registered client [id]. *)
Inductive Action :=
| Open (webSocket : WebSocket) (url : string) (variables : gmap string string)
| Close (id : Z)
| Mutate (id : Z) (m : Mutation).

Definition step (st : Static) (a : Action) : Static :=
  match a with
  | Open webSocket url variables =>
      (new_WebSocketClient webSocket url variables st).2
  | Close id => unregister id st
  | Mutate id m =>
      {| lastInsertedId := lastInsertedId st;
         clients := alter (mutate m) id (clients st) |}
  end.

Definition run (st : Static) (actions : list Action) : Static :=
  foldl step st actions.

(** The ids handed out by the constructions among [actions], oldest first. *)
Fixpoint issued (st : Static) (actions : list Action) : list Z :=
  match actions with
  | [] => []
  | Open webSocket url variables as a :: rest =>
      id (new_WebSocketClient webSocket url variables st).1
        :: issued (step st a) rest
  | a :: rest => issued (step st a) rest
  end.

(** *** Calls on one client *)

(** Every instance method of the class, with its arguments. *)
Inductive Call :=
| call_getAttribute (key : string)
| call_getAttributes (keys : list string)
| call_setAttribute (key : string) (value : Value)
| call_setAttributes (attributes : Attributes)
| call_removeAttribute (key : string)
| call_removeAttributes (keys : list string)
| call_getClientById (id : Z)
| call_getAllClients
| call_getClientsByAttribute (attributes : list Attributes)
| call_setMessage (message : Payload)
| call_to (clients : list WebSocketClient)
| call_reply (message : option Payload)
| call_send (clients : option (list WebSocketClient)) (message : option Payload)
| call_sendAll (message : Payload)
| call_getURL.

(** [removeAttributes(...keys)]: removes the keys in order. *)
Definition removeAttributes (keys : list string)
    (this : WebSocketClient) : WebSocketClient :=
  foldl (fun c key => (removeAttribute key c).2) this keys.

(** The client after the call, and what the call did to the sockets.  The
    values returned by the getters are left out. *)
Definition invoke (st : Static) (c : Call) (this : WebSocketClient)
    : WebSocketClient * IO unit :=
  match c with
  | call_setAttribute key value => (setAttribute key value this, ret tt)
  | call_setAttributes attributes => (setAttributes attributes this, ret tt)
  | call_removeAttribute key => ((removeAttribute key this).2, ret tt)
  | call_removeAttributes keys => (removeAttributes keys this, ret tt)
  | call_setMessage message => (setMessage message this, ret tt)
  | call_to clients => (to clients this, ret tt)
  | call_reply message => (this, reply this message)
  | call_send clients message => (this, send this clients message)
  | call_sendAll message => (this, sendAll st message)
  | call_getAttribute _ | call_getAttributes _ | call_getClientById _
  | call_getAllClients | call_getClientsByAttribute _ | call_getURL =>
      (this, ret tt)
  end.

End WS.

(* ===================================================================== *)
(** ** Route table *)
(* ===================================================================== *)

Module Router.

(** A handler function, known by reference. *)
Definition Handler := Z.

Record Handlers := mkHandlers {
  GET : option Handler;
  PUT : option Handler;
  POST : option Handler;
  DELETE : option Handler;
  PATCH : option Handler
}.

(** Modelled from the spec: the route entry of section 3, "a canonical path,
    a set of alias match-keys (URLs), and up to five handler slots".  The
    [Route] class is not among the sources; its tests are.  The match keys
    are kept in the order the tests read them from [URL()]. *)
Record Route := mkRoute {
  PATH : string;
  URL : list string;
  handlers : Handlers
}.

(** Modelled from the spec: the route table of section 3, [byPath] keyed by
    canonical path and [byMatchKey] from match key to entry, with the
    warnings surfaced so far. *)
Record Table := mkTable {
  byPath : gmap string Route;
  byMatchKey : gmap string Route;
  warnings : list string
}.

(** Modelled from the spec: the table before any registration. *)
Definition no_routes : Table :=
  {| byPath := ∅; byMatchKey := ∅; warnings := [] |}.

(** Modelled from the spec: "deduplicated", the first occurrence of each key
    staying in place. *)
Fixpoint unique (l : list string) : list string :=
  match l with
  | [] => []
  | x :: l' => x :: List.filter (fun y => negb (String.eqb y x)) (unique l')
  end.

(** Modelled from the spec: a candidate key is in conflict when it is
    "already present in [byMatchKey] pointing to a different entry"; entries
    are told apart by their canonical path. *)
Definition claimed (t : Table) (path key : string) : bool :=
  match byMatchKey t !! key with
  | Some owner => negb (String.eqb (PATH owner) path)
  | None => false
  end.

(** Modelled from the spec: the candidates that step 2 of [register] removes
    are the aliases in conflict.  The canonical path is never removed: by
    section 3 "[canonicalPath ∈ matchKeys] always holds after construction"
    and the new entry keeps "its unclaimed keys plus its own canonical
    path". *)
Definition removed (t : Table) (path key : string) : bool :=
  claimed t path key && negb (String.eqb key path).

(** Modelled from the spec: [register(path, aliasURLs, handlers...)] of
    section 4.1, in its three steps: build the deduplicated candidate set
    [aliasURLs ∪ {path}]; remove each alias owned by a different entry, with
    a warning; store the entry at [byPath[path]] and add each surviving key,
    the canonical path among them, to [byMatchKey]. *)
Definition register (path : string) (aliasURLs : list string)
    (h : Handlers) (t : Table) : Route * Table :=
  let candidates := unique (aliasURLs ++ [path]) in
  let dropped := List.filter (removed t path) candidates in
  let kept := List.filter (fun key => negb (removed t path key)) candidates in
  let entry := {| PATH := path; URL := kept; handlers := h |} in
  (entry,
   {| byPath := <[path := entry]> (byPath t);
      byMatchKey := foldr (fun key m => <[key := entry]> m) (byMatchKey t) kept;
      warnings := warnings t ++ dropped |}).

(** Modelled from the spec: [resolve(requestPath)], an "exact-match lookup
    against [byMatchKey]"; not found is [None]. *)
Definition resolve (t : Table) (requestPath : string) : option Route :=
  byMatchKey t !! requestPath.

End Router.

(* ===================================================================== *)
(** ** SystemResponse *)
(* ===================================================================== *)

Module Response.

(** [string | ReadableStream<Uint8Array> | Uint8Array | undefined].  A
    stream is known by its address. *)
Inductive Body :=
| BodyText (s : string)
| BodyStream (addr : Z)
| BodyBytes (bytes : list Z)
| BodyUndefined.

(** *** The runtime's [Headers]

    A string stands for its sequence of characters, each below 256. *)

Abbreviation Headers := (gmap string string).

Definition code (c : Ascii.ascii) : Z := Z.of_N (Ascii.N_of_ascii c).

(** Tab, line feed, carriage return and space. *)
Definition HTTP_whitespace (c : Ascii.ascii) : bool :=
  (code c =? 9) || (code c =? 10) || (code c =? 13) || (code c =? 32).

Fixpoint trim_start (s : string) : string :=
  match s with
  | String c rest => if HTTP_whitespace c then trim_start rest else s
  | EmptyString => EmptyString
  end.

Fixpoint trim_end (s : string) : string :=
  match s with
  | EmptyString => EmptyString
  | String c rest =>
      match trim_end rest with
      | EmptyString =>
          if HTTP_whitespace c then EmptyString else String c EmptyString
      | kept => String c kept
      end
  end.

(** A header value is stored without the whitespace around it. *)
Definition httpTrim (s : string) : string := trim_end (trim_start s).

(** A header value holds no NUL, line feed or carriage return. *)
Fixpoint valid_header_value (s : string) : bool :=
  match s with
  | EmptyString => true
  | String c rest =>
      negb ((code c =? 0) || (code c =? 10) || (code c =? 13))
      && valid_header_value rest
  end.

Definition lower (c : Ascii.ascii) : Ascii.ascii :=
  if (65 <=? code c) && (code c <=? 90)
  then Ascii.ascii_of_N (Ascii.N_of_ascii c + 32)
  else c.

(** Header names are kept in lower case. *)
Fixpoint byte_lowercase (s : string) : string :=
  match s with
  | EmptyString => EmptyString
  | String c rest => String (lower c) (byte_lowercase rest)
  end.

(** [headers.set(name, value)]: the value is trimmed; a value that is then
    not valid makes the call throw a [TypeError], here [None], and leaves
    the headers as they were.  The class passes the names [Content-Type] and
    [Location] only, which are valid names. *)
Definition Headers_set (name value : string) (h : Headers) : option Headers :=
  let value := httpTrim value in
  if valid_header_value value
  then Some (<[byte_lowercase name := value]> h)
  else None.

(** *** The runtime's [Response] *)

(** A [Response] object as [new Response(body, init)] builds it: status and
    status text are read and the headers copied at that moment. *)
Record ResponseObject := mkResponseObject {
  r_body : Body;
  r_status : Z;
  r_statusText : string;
  r_headers : Headers
}.

(** A status is read as an [unsigned short]. *)
Definition ToUint16 (n : Z) : Z := n mod 65536.

Definition null_body_status (status : Z) : bool :=
  (status =? 101) || (status =? 103) || (status =? 204) || (status =? 205)
  || (status =? 304).

(** A reason phrase: tabs, spaces, visible characters and the characters
    from 128 on. *)
Fixpoint reason_phrase (s : string) : bool :=
  match s with
  | EmptyString => true
  | String c rest =>
      ((code c =? 9) || ((32 <=? code c) && (code c <=? 126))
       || (128 <=? code c))
      && reason_phrase rest
  end.

(** When [new Response(body, init)] returns.  It throws a [RangeError] for a
    status outside 200..599, and a [TypeError] for a status text that is no
    reason phrase, for a body given with a status that allows none (a body
    of zero length is a body), and for a stream that is locked or was read
    ([spent] lists those). *)
Definition Response_accepts (spent : list Z) (body : Body) (status : Z)
    (statusText : string) : bool :=
  (200 <=? status) && (status <=? 599)
  && reason_phrase statusText
  && match body with
     | BodyUndefined => true
     | BodyStream addr =>
         negb (null_body_status status) && negb (bool_decide (addr ∈ spent))
     | BodyText _ | BodyBytes _ => negb (null_body_status status)
     end.

(** The headers of the new response: a copy of those given, with the content
    type of a string body when they name none. *)
Definition with_body_type (body : Body) (h : Headers) : Headers :=
  match body, h !! "content-type" with
  | BodyText _, None => <["content-type" := "text/plain;charset=UTF-8"]> h
  | _, _ => h
  end.

(** [new Response(body, init)]; [None] when it throws. *)
Definition new_Response (spent : list Z) (body : Body) (status : option Z)
    (statusText : option string) (h : Headers) : option ResponseObject :=
  let status := match status with Some s => ToUint16 s | None => 200 end in
  let statusText := default EmptyString statusText in
  if Response_accepts spent body status statusText
  then Some {| r_body := body; r_status := status;
               r_statusText := statusText;
               r_headers := with_body_type body h |}
  else None.

(** *** The class *)

(** The member [headers] of [init]: the object also held in the field
    [headers], as the constructor leaves it, or another one. *)
Inductive InitHeaders :=
| TheHeaders
| OtherHeaders (h : Headers).

(** The fields of a [SystemResponse].  [init] is [{headers: this.headers}]
    plus the [status] and [statusText] it gets later. *)
Record SystemResponse := mkSystemResponse {
  _responded : bool;
  _preset : gmap string JS.Value;
  init_status : option Z;
  init_statusText : option string;
  init_headers : InitHeaders;
  headers : Headers;
  status : Z;
  body : Body;
  isForceDownload : bool
}.

(** The argument of [send(response?)]. *)
Inductive SendArgument :=
| Omitted
| AString (s : string)
| AResponse (r : ResponseObject).

(** How the part of [send] before its [await] ends: it returns at the guard,
    it throws, or it hands a response to [respondWith]. *)
Inductive Sync :=
| AtGuard
| Threw
| Handed (res : ResponseObject).

Section WithHelpers.

(** Imported from [mod.ts], which is not among the sources: the template
    substitution [assignToVariables(text, preset, filePath)] and the cookie
    writer [setCookie(headers, cookie)], which may throw.  The runtime's
    [encodeURIComponent] is taken the same way. *)
Variable assignToVariables :
  string → gmap string JS.Value → option string → string.
Variable Cookie : Type.
Variable setCookie_into : Headers → Cookie → option Headers.
Variable expired : string → option string → option string → Cookie.
Variable encodeURIComponent : string → string.

(** [get responded()]. *)
Definition responded (this : SystemResponse) : bool := _responded this.

(** The object in [headers] gets new contents. *)
Definition with_headers (this : SystemResponse) (h : Headers)
    : SystemResponse :=
  {| _responded := _responded this; _preset := _preset this;
     init_status := init_status this; init_statusText := init_statusText this;
     init_headers := init_headers this;
     headers := h; status := status this; body := body this;
     isForceDownload := isForceDownload this |}.

Definition with_init (this : SystemResponse)
    (st : option Z) (txt : option string) : SystemResponse :=
  {| _responded := _responded this; _preset := _preset this;
     init_status := st; init_statusText := txt;
     init_headers := init_headers this;
     headers := headers this; status := status this; body := body this;
     isForceDownload := isForceDownload this |}.

Definition with_content (this : SystemResponse)
    (b : Body) (st : Z) : SystemResponse :=
  {| _responded := _responded this; _preset := _preset this;
     init_status := init_status this; init_statusText := init_statusText this;
     init_headers := init_headers this;
     headers := headers this; status := st; body := b;
     isForceDownload := isForceDownload this |}.

Definition with_responded (this : SystemResponse) (b : bool) : SystemResponse :=
  {| _responded := b; _preset := _preset this;
     init_status := init_status this; init_statusText := init_statusText this;
     init_headers := init_headers this;
     headers := headers this; status := status this; body := body this;
     isForceDownload := isForceDownload this |}.

(** The headers that [init] holds at the moment. *)
Definition init_headers_now (this : SystemResponse) : Headers :=
  match init_headers this with
  | TheHeaders => headers this
  | OtherHeaders h => h
  end.

(** [setType(type)]; [None] when [headers.set] throws. *)
Definition setType (type : string) (this : SystemResponse)
    : option SystemResponse :=
  match Headers_set "Content-Type" type (headers this) with
  | Some h => Some (with_headers this h)
  | None => None
  end.

(** [setText(text, status = 200, filePath?)]. *)
Definition setText (text : Body) (status : option Z) (filePath : option string)
    (this : SystemResponse) : SystemResponse :=
  let b :=
    match text with
    | BodyText s => BodyText (assignToVariables s (_preset this) filePath)
    | other => other
    end in
  with_content this b (default 200 status).

(** [preset(object)]. *)
Definition preset (object : gmap string JS.Value)
    (this : SystemResponse) : SystemResponse :=
  {| _responded := _responded this; _preset := object;
     init_status := init_status this; init_statusText := init_statusText this;
     init_headers := init_headers this;
     headers := headers this; status := status this; body := body this;
     isForceDownload := isForceDownload this |}.

(** [setCookie(cookie)]; [None] when the cookie writer throws. *)
Definition setCookie (cookie : Cookie) (this : SystemResponse)
    : option SystemResponse :=
  match setCookie_into (headers this) cookie with
  | Some h => Some (with_headers this h)
  | None => None
  end.

(** [deleteCookie(name, attributes?)]: sets the cookie again, empty and
    expired at the epoch. *)
Definition deleteCookie (name : string) (path domain : option string)
    (this : SystemResponse) : option SystemResponse :=
  setCookie (expired name path domain) this.

(** [setFile(filePath, status?)], given what reading the file produced: the
    data and the content type looked up from the path, or a failure.  What
    is thrown on the way, also by [setType], is caught and logged; what was
    stored before it stays. *)
Definition setFile (filePath : string) (status : option Z)
    (read : option (Body * option string))
    (this : SystemResponse) : SystemResponse :=
  match read with
  | Some (file_data, extensions) =>
      let this := setText file_data status (Some filePath) this in
      match extensions with
      | Some type =>
          if String.eqb type "" then this
          else match setType type this with
               | Some typed => typed
               | None => this
               end
      | None => this
      end
  | None => this
  end.

(** Assignments to the public fields from outside the class. *)
Definition assign_status (status' : Z) (this : SystemResponse)
    : SystemResponse :=
  with_content this (body this) status'.

Definition assign_body (body' : Body) (this : SystemResponse)
    : SystemResponse :=
  with_content this body' (status this).

Definition assign_isForceDownload (isForceDownload' : bool)
    (this : SystemResponse) : SystemResponse :=
  {| _responded := _responded this; _preset := _preset this;
     init_status := init_status this; init_statusText := init_statusText this;
     init_headers := init_headers this;
     headers := headers this; status := status this; body := body this;
     isForceDownload := isForceDownload' |}.

(** [response.headers = other]: [init] keeps the object it had. *)
Definition assign_headers (headers' : Headers) (this : SystemResponse)
    : SystemResponse :=
  {| _responded := _responded this; _preset := _preset this;
     init_status := init_status this; init_statusText := init_statusText this;
     init_headers := OtherHeaders (init_headers_now this);
     headers := headers'; status := status this; body := body this;
     isForceDownload := isForceDownload this |}.

(** [response.init = ...], or an assignment to one of its members. *)
Definition assign_init (init_status' : option Z)
    (init_statusText' : option string) (init_headers' : InitHeaders)
    (this : SystemResponse) : SystemResponse :=
  {| _responded := _responded this; _preset := _preset this;
     init_status := init_status'; init_statusText := init_statusText';
     init_headers := init_headers';
     headers := headers this; status := status this; body := body this;
     isForceDownload := isForceDownload this |}.

(** [send(response?)] up to its [await]: how that part ends, and the fields
    after it.  [new Response(this.body, this.init)] runs before the argument
    is looked at; when it throws, nothing is handed to [respondWith] and the
    promise of [send] is rejected. *)
Definition send_until_await (response : SendArgument) (spent : list Z)
    (this : SystemResponse) : SystemResponse * Sync :=
  if _responded this then (this, AtGuard)
  else
    match (if isForceDownload this
           then Headers_set "Content-Type" "application/octet-stream"
                            (headers this)
           else Some (headers this)) with
    | None => (this, Threw)
    | Some h =>
        let this := with_headers this h in
        let this := with_init this (Some (status this)) (init_statusText this) in
        let this :=
          match init_statusText this with
          | Some txt =>
              if String.eqb txt "" then this
              else with_init this (init_status this)
                             (Some (encodeURIComponent txt))
          | None => this
          end in
        match new_Response spent (body this) (init_status this)
                           (init_statusText this) (init_headers_now this) with
        | None => (this, Threw)
        | Some res =>
            match response with
            | AString s => (setText (BodyText s) None None this, Handed res)
            | AResponse r => (this, Handed r)
            | Omitted => (this, Handed res)
            end
        end
    end.

(** [send(response?)] after its [await], once the promise of [respondWith]
    is fulfilled. *)
Definition send_after_await (this : SystemResponse) : SystemResponse :=
  with_responded this true.

(** One request being answered: the response object, how many calls of
    [send] are waiting for their [respondWith] to settle, the responses
    handed to [respondWith] so far, oldest first, and the streams that are
    locked or were read. *)
Record Exchange := mkExchange {
  response : SystemResponse;
  awaiting : nat;
  respondedWith : list ResponseObject;
  spent : list Z
}.

(** What moves an exchange forward: calls of the methods, assignments to the
    public fields, changes made to the headers object through its own
    methods, a stream being locked or read, and the promise of a waiting
    [respondWith] being fulfilled or rejected. *)
Inductive Event :=
| call_send (arg : SendArgument)
| call_redirect (url : string)
| call_setType (type : string)
| call_setText (text : Body) (status : option Z) (filePath : option string)
| call_preset (object : gmap string JS.Value)
| call_setCookie (cookie : Cookie)
| call_deleteCookie (name : string) (path domain : option string)
| call_setFile (filePath : string) (status : option Z)
    (read : option (Body * option string))
| status_assigned (status' : Z)
| body_assigned (body' : Body)
| isForceDownload_assigned (isForceDownload' : bool)
| headers_assigned (headers' : Headers)
| init_assigned (init_status' : option Z) (init_statusText' : option string)
    (init_headers' : InitHeaders)
| headers_changed (contents : Headers)
| stream_spent (addr : Z)
| fulfilled
| rejected.

Definition on_response (f : SystemResponse → SystemResponse)
    (x : Exchange) : Exchange :=
  {| response := f (response x); awaiting := awaiting x;
     respondedWith := respondedWith x; spent := spent x |}.

(** A method that throws leaves the exchange as it is. *)
Definition on_response_or_throw (f : SystemResponse → option SystemResponse)
    (x : Exchange) : Exchange :=
  match f (response x) with
  | Some this => on_response (fun _ => this) x
  | None => x
  end.

(** A call of [send]: the part before the [await] runs at once. *)
Definition begin_send (arg : SendArgument) (x : Exchange) : Exchange :=
  match send_until_await arg (spent x) (response x) with
  | (this, Handed res) =>
      {| response := this; awaiting := S (awaiting x);
         respondedWith := respondedWith x ++ [res]; spent := spent x |}
  | (this, _) => on_response (fun _ => this) x
  end.

(** [redirect(url)]: sets status and body, then the [Location] header, then
    calls [send()] without waiting for it.  When [headers.set] throws,
    [send] is not called. *)
Definition redirect (url : string) (x : Exchange) : Exchange :=
  let this := with_content (response x) (BodyText "") 302 in
  match Headers_set "Location" url (headers this) with
  | Some h => begin_send Omitted (on_response (fun _ => with_headers this h) x)
  | None => on_response (fun _ => this) x
  end.

Definition step (x : Exchange) (e : Event) : Exchange :=
  match e with
  | call_send arg => begin_send arg x
  | call_redirect url => redirect url x
  | call_setType type => on_response_or_throw (setType type) x
  | call_setText text status filePath =>
      on_response (setText text status filePath) x
  | call_preset object => on_response (preset object) x
  | call_setCookie cookie => on_response_or_throw (setCookie cookie) x
  | call_deleteCookie name path domain =>
      on_response_or_throw (deleteCookie name path domain) x
  | call_setFile filePath status read =>
      on_response (setFile filePath status read) x
  | status_assigned s => on_response (assign_status s) x
  | body_assigned b => on_response (assign_body b) x
  | isForceDownload_assigned f => on_response (assign_isForceDownload f) x
  | headers_assigned h => on_response (assign_headers h) x
  | init_assigned i t h => on_response (assign_init i t h) x
  | headers_changed h => on_response (fun this => with_headers this h) x
  | stream_spent addr =>
      {| response := response x; awaiting := awaiting x;
         respondedWith := respondedWith x; spent := addr :: spent x |}
  | fulfilled =>
      match awaiting x with
      | S n =>
          {| response := send_after_await (response x); awaiting := n;
             respondedWith := respondedWith x; spent := spent x |}
      | O => x
      end
  | rejected =>
      match awaiting x with
      | S n =>
          {| response := response x; awaiting := n;
             respondedWith := respondedWith x; spent := spent x |}
      | O => x
      end
  end.

Definition run (x : Exchange) (events : list Event) : Exchange :=
  foldl step x events.

End WithHelpers.

Arguments call_send {Cookie} arg.
Arguments call_redirect {Cookie} url.
Arguments call_setType {Cookie} type.
Arguments call_setText {Cookie} text status filePath.
Arguments call_preset {Cookie} object.
Arguments call_setCookie {Cookie} cookie.
Arguments call_deleteCookie {Cookie} name path domain.
Arguments call_setFile {Cookie} filePath status read.
Arguments status_assigned {Cookie} _.
Arguments body_assigned {Cookie} _.
Arguments isForceDownload_assigned {Cookie} _.
Arguments headers_assigned {Cookie} _.
Arguments init_assigned {Cookie} _ _ _.
Arguments headers_changed {Cookie} _.
Arguments stream_spent {Cookie} _.
Arguments fulfilled {Cookie}.
Arguments rejected {Cookie}.

End Response.

(* ===================================================================== *)
(** ** Statements and scenarios *)
(* ===================================================================== *)

Module WSScenario.
Import JS WS.

(** *** Selection by attributes *)

(** A client matches an attribute set when its own value is truthy for every
    key of the set. *)
Definition matches (client : WebSocketClient) (attribute : Attributes) : bool :=
  forallb (fun key => truthy (getAttribute client key)) (keys_of attribute).

(** Selection read as a comparison of values: [{a: 1, b: 2}] selects exactly
    the registered clients whose attributes hold [a = 1] and [b = 2]. *)
Definition selects_by_value (st : Static) : Prop :=
  ∀ client,
    client ∈ getClientsByAttribute st [[("a", Num 1); ("b", Num 2)]]
    ↔ client ∈ getAllClients st
      ∧ getAttribute client "a" = Num 1 ∧ getAttribute client "b" = Num 2.

(** One client, with [a = 2] and [b = 1]. *)
Definition swapped : Static :=
  run initial
    [Open 7 "ws://localhost/chat" ∅;
     Mutate 0 (SetAttributes [("a", Num 2); ("b", Num 1)])].

(** Three connections open, the second sets [{room: "x"}]. *)
Definition three_clients : Static :=
  run initial
    [Open 7 "ws://localhost/chat" ∅;
     Open 8 "ws://localhost/chat" ∅;
     Open 9 "ws://localhost/chat" ∅;
     Mutate 1 (SetAttribute "room" (Str "x"))].

(** What holds of the static state however it was reached: every client
    is stored under its own id, and the stored ids lie below
    [lastInsertedId]. *)
Definition consistent (st : Static) : Prop :=
  (∀ i client, clients st !! i = Some client → id client = i)
  ∧ (∀ i, is_Some (clients st !! i) → 0 ≤ i < lastInsertedId st)
  ∧ 0 ≤ lastInsertedId st.

(** *** Sending *)

Definition socket_of (e : SocketEvent) : WebSocket :=
  match e with
  | Sent ws _ | Refused ws _ => ws
  end.

Definition data_of (e : SocketEvent) : Payload :=
  match e with
  | Sent _ data | Refused _ data => data
  end.

(** The calls of [webSocket.send] that a run of [io] adds to the wire. *)
Definition written_by (io : IO unit) (w : World) : list SocketEvent :=
  drop (List.length (wire w)) (wire (io w).2).

(** The calls a send of [message] to [clients] makes in world [w]: one per
    client in order, up to and including the first socket that is not
    open. *)
Fixpoint attempts (w : World) (message : Payload)
    (clients : list WebSocketClient) : list SocketEvent :=
  match clients with
  | [] => []
  | client :: rest =>
      match readyState w (webSocket client) with
      | OPEN => Sent (webSocket client) message :: attempts w message rest
      | _ => [Refused (webSocket client) message]
      end
  end.

Definition is_open (w : World) (client : WebSocketClient) : bool :=
  match readyState w (webSocket client) with
  | OPEN => true
  | _ => false
  end.

(** How a send to [clients] ends in world [w]. *)
Definition outcome (w : World) (clients : list WebSocketClient)
    : Completion unit :=
  if forallb (is_open w) clients then Return tt
  else Throw "InvalidStateError".

(** Sending read as fire-and-forget per target: whatever happens to the
    other writes, every target of the list gets a call on its socket. *)
Definition every_target_attempted : Prop :=
  ∀ (clients : list WebSocketClient) message w target,
    target ∈ clients →
    ∃ e, e ∈ written_by (WebSocketClient_send clients message) w
         ∧ socket_of e = webSocket target.

(** Sending to two clients read without condition: one call per target, on
    the first target's socket and then on the second's, each with the
    message. *)
Definition one_write_each_in_order : Prop :=
  ∀ c1 c2 message w,
    let calls := written_by (WebSocketClient_send [c1; c2] message) w in
    socket_of <$> calls = [webSocket c1; webSocket c2]
    ∧ data_of <$> calls = [message; message].

(** The instance [send] read with [??]: only an omitted argument falls back
    to the stored value. *)
Definition send_falls_back_when_omitted : Prop :=
  ∀ this (clients : option (list WebSocketClient)) (message : option Payload) w,
    send this clients message w
    = WebSocketClient_send (default (_to this) clients)
                           (default (_message this) message) w.

(** The payload an instance [send] writes: the argument, unless it is
    omitted or the empty string. *)
Definition payload_sent (this : WebSocketClient)
    (message : option Payload) : Payload :=
  match message with
  | Some (Text "") | None => _message this
  | Some p => p
  end.

(** The targets an instance [send] writes to. *)
Definition targets_sent (this : WebSocketClient)
    (clients : option (list WebSocketClient)) : list WebSocketClient :=
  match clients with
  | Some l => l
  | None => _to this
  end.

Definition client_on (webSocket : WebSocket) (id : Z) : WebSocketClient :=
  {| variables := ∅; _id := id; _attributes := ∅; _webSocket := webSocket;
     _url := "ws://localhost/chat"; _message := Text ""; _to := [] |}.

Definition alice : WebSocketClient := client_on 7 0.
Definition bob : WebSocketClient := client_on 8 1.
Definition carol : WebSocketClient := client_on 9 2.

(** Every socket is open. *)
Definition all_open : World :=
  {| readyState := fun _ => OPEN; wire := [] |}.

(** Socket 7 is still connecting, the others are open. *)
Definition alice_connecting : World :=
  {| readyState := fun ws => if ws =? 7 then CONNECTING else OPEN;
     wire := [] |}.

(** Socket 8 is still connecting, the others are open. *)
Definition bob_connecting : World :=
  {| readyState := fun ws => if ws =? 8 then CONNECTING else OPEN;
     wire := [] |}.

(** *** Outbound state *)

(** The client after a series of calls, each made whether or not the one
    before it threw. *)
Definition after_calls (st : Static) (this : WebSocketClient)
    (calls : list Call) : WebSocketClient :=
  foldl (fun this c => (invoke st c this).1) this calls.

(** The argument of the last [setMessage] among [calls], or [dflt]. *)
Definition last_setMessage (dflt : Payload) (calls : list Call) : Payload :=
  foldl (fun acc c =>
           match c with call_setMessage message => message | _ => acc end)
        dflt calls.

(** The argument of the last [to] among [calls], or [dflt]. *)
Definition last_to (dflt : list WebSocketClient)
    (calls : list Call) : list WebSocketClient :=
  foldl (fun acc c => match c with call_to clients => clients | _ => acc end)
        dflt calls.

End WSScenario.

Module RouteScenario.
Import Router.

Definition no_handlers : Handlers :=
  {| GET := None; PUT := None; POST := None; DELETE := None; PATCH := None |}.

(** The handlers [get, pos, put, del, pat] of the route tests, by reference. *)
Definition test_handlers : Handlers :=
  {| GET := Some 1; PUT := Some 3; POST := Some 2; DELETE := Some 4;
     PATCH := Some 5 |}.

(** Construction read without the conflicts: the match keys of a new route
    are the aliases and the canonical path, whatever is registered already. *)
Definition keys_are_aliases_and_path : Prop :=
  ∀ t path (aliasURLs : list string) h,
    let route := (register path aliasURLs h t).1 in
    (∀ key, key ∈ URL route ↔ key ∈ aliasURLs ∨ key = path)
    ∧ path ∈ URL route.

(** The routes of the test [getUniqueUrlArray]. *)
Definition after_unique1 : Table :=
  (register "/unique1.html" ["/UNIQUEtest1"; "/UNIQUEtest2"]
            test_handlers no_routes).2.

Definition unique2 : Route :=
  (register "/unique2.html" ["/UNIQUEtest1"; "/UNIQUEtest3"]
            test_handlers after_unique1).1.

(** The scenario of the shared alias: [/a.html] with alias [/shared], then
    [/b.html] with aliases [/shared] and [/b2]. *)
Definition route_a : Route :=
  (register "/a.html" ["/shared"] no_handlers no_routes).1.

Definition after_a : Table :=
  (register "/a.html" ["/shared"] no_handlers no_routes).2.

Definition route_b : Route :=
  (register "/b.html" ["/shared"; "/b2"] no_handlers after_a).1.

Definition after_b : Table :=
  (register "/b.html" ["/shared"; "/b2"] no_handlers after_a).2.

(** A canonical path that an earlier route holds as an alias: [/a.html] with
    alias [/c.html], then [/c.html] with alias [/c2]. *)
Definition after_alias_c : Table :=
  (register "/a.html" ["/c.html"] no_handlers no_routes).2.

Definition route_c : Route :=
  (register "/c.html" ["/c2"] no_handlers after_alias_c).1.

Definition after_c : Table :=
  (register "/c.html" ["/c2"] no_handlers after_alias_c).2.

End RouteScenario.

Module ResponseScenario.
Import Response.

(** Stand-ins for the helpers, for running examples: no substitution, a
    cookie is its [Set-Cookie] line, no escaping. *)
Definition plain_text (text : string) (_ : gmap string JS.Value)
    (_ : option string) : string := text.
Definition cookie_line (h : Headers) (cookie : string) : option Headers :=
  Some (<["set-cookie" := cookie]> h).
Definition expired_line (name : string) (_ _ : option string) : string :=
  name ++ "=; Expires=Thu, 01 Jan 1970 00:00:00 GMT".
Definition no_escape (s : string) : string := s.

(** A response as the constructor leaves it, before any handler ran. *)
Definition fresh : SystemResponse :=
  {| _responded := false; _preset := ∅;
     init_status := None; init_statusText := None;
     init_headers := TheHeaders;
     headers := {[ "content-type" := "text/plain" ]};
     status := 500; body := BodyText "500 Internal Server Error";
     isForceDownload := false |}.

Definition opened : Exchange :=
  {| response := fresh; awaiting := 0; respondedWith := []; spent := [] |}.

(** One call of [send] is waiting for its [respondWith]. *)
Definition sending : Exchange :=
  step plain_text string cookie_line expired_line no_escape
       opened (call_send Omitted).

(** A line feed, and a [Location] that holds one. *)
Definition line_feed : string :=
  String (Ascii.Ascii false true false true false false false false)
         EmptyString.

Definition split_location : string := "/a" ++ line_feed ++ "Set-Cookie: x=1".

End ResponseScenario.

(* ===================================================================== *)
(** ** More of WebSocketClient and WebSocketRoute *)
(* ===================================================================== *)

Module WSMore.
Import JS WS.

(** *** Objects returned by the attribute getters *)

(** [o[key]] on an object with string keys (none of them an array index):
    [undefined] when the object has no such property. *)
Fixpoint object_get (o : Attributes) (key : string) : Value :=
  match o with
  | [] => Undefined
  | (k, v) :: rest => if String.eqb k key then v else object_get rest key
  end.

(** [o[key] = value]: an existing property keeps its place and takes the new
    value, a new one goes to the end. *)
Fixpoint object_set (key : string) (value : Value) (o : Attributes)
    : Attributes :=
  match o with
  | [] => [(key, value)]
  | (k, v) :: rest =>
      if String.eqb k key then (k, value) :: rest
      else (k, v) :: object_set key value rest
  end.

(** [getAttributes(...keys)]. *)
Definition getAttributes (keys : list string)
    (this : WebSocketClient) : Attributes :=
  foldl (fun attributes key => object_set key (getAttribute this key) attributes)
        [] keys.

(** [removeAttributes(...keys)], with the object it returns. *)
Definition removeAttributes_returning (keys : list string)
    (this : WebSocketClient) : Attributes * WebSocketClient :=
  foldl (fun acc key =>
           (object_set key (removeAttribute key acc.2).1 acc.1,
            (removeAttribute key acc.2).2))
        ([], this) keys.

(** How often [key] is listed among [keys]. *)
Definition listed (key : string) (keys : list string) : nat :=
  List.length (List.filter (String.eqb key) keys).

(** Whether an action constructs a client. *)
Definition is_Open (a : Action) : bool :=
  match a with
  | Open _ _ _ => true
  | _ => false
  end.

(** *** WebSocketRoute *)

Section Route.

(** A [WebSocketHandlerFunction], and the two defaults imported from
    [mod.ts], which is not among the sources.  [noop] is the empty function
    the constructor writes out. *)
Variable Handler : Type.
Variable default_onopen : Handler.
Variable default_onmessage : Handler.
Variable noop : Handler.

(** The [WebSocketEvent] argument: each member may be left out. *)
Record WebSocketEvent := mkWebSocketEvent {
  event_onopen : option Handler;
  event_onclose : option Handler;
  event_onmessage : option Handler;
  event_onerror : option Handler
}.

Record WebSocketRoute := mkWebSocketRoute {
  _onopen : Handler;
  _onclose : Handler;
  _onmessage : Handler;
  _onerror : Handler
}.

(** [event?.member || dflt]: a function is truthy, so the default is taken
    when the event or the member is left out. *)
Definition member_or (event : option WebSocketEvent)
    (member : WebSocketEvent → option Handler) (dflt : Handler) : Handler :=
  match event with
  | Some e =>
      match member e with
      | Some f => f
      | None => dflt
      end
  | None => dflt
  end.

(** [constructor(event?)]. *)
Definition new_WebSocketRoute (event : option WebSocketEvent) : WebSocketRoute :=
  {| _onopen := member_or event event_onopen default_onopen;
     _onclose := member_or event event_onclose noop;
     _onmessage := member_or event event_onmessage default_onmessage;
     _onerror := member_or event event_onerror noop |}.

(** What a setter and getter returns: the route itself or a handler. *)
Inductive Returned :=
| Itself
| Function (f : Handler).

(** [onopen(process?)]: with a function, stores it and returns the route;
    without, returns the stored function. *)
Definition onopen (process : option Handler) (this : WebSocketRoute)
    : Returned * WebSocketRoute :=
  match process with
  | Some f =>
      (Itself, {| _onopen := f; _onclose := _onclose this;
                  _onmessage := _onmessage this; _onerror := _onerror this |})
  | None => (Function (_onopen this), this)
  end.

(** [onclose(process?)]. *)
Definition onclose (process : option Handler) (this : WebSocketRoute)
    : Returned * WebSocketRoute :=
  match process with
  | Some f =>
      (Itself, {| _onopen := _onopen this; _onclose := f;
                  _onmessage := _onmessage this; _onerror := _onerror this |})
  | None => (Function (_onclose this), this)
  end.

(** [onmessage(process?)]. *)
Definition onmessage (process : option Handler) (this : WebSocketRoute)
    : Returned * WebSocketRoute :=
  match process with
  | Some f =>
      (Itself, {| _onopen := _onopen this; _onclose := _onclose this;
                  _onmessage := f; _onerror := _onerror this |})
  | None => (Function (_onmessage this), this)
  end.

(** [onerror(process?)]. *)
Definition onerror (process : option Handler) (this : WebSocketRoute)
    : Returned * WebSocketRoute :=
  match process with
  | Some f =>
      (Itself, {| _onopen := _onopen this; _onclose := _onclose this;
                  _onmessage := _onmessage this; _onerror := f |})
  | None => (Function (_onerror this), this)
  end.

(** The four events of a socket. *)
Inductive Kind := OnOpen | OnClose | OnMessage | OnError.

(** A call of one of the four methods. *)
Definition call (k : Kind) (process : option Handler) (this : WebSocketRoute)
    : Returned * WebSocketRoute :=
  match k with
  | OnOpen => onopen process this
  | OnClose => onclose process this
  | OnMessage => onmessage process this
  | OnError => onerror process this
  end.

(** The route after a series of calls. *)
Definition after (this : WebSocketRoute)
    (calls : list (Kind * option Handler)) : WebSocketRoute :=
  foldl (fun r c => (call c.1 c.2 r).2) this calls.

Definition same_kind (a b : Kind) : bool :=
  match a, b with
  | OnOpen, OnOpen | OnClose, OnClose
  | OnMessage, OnMessage | OnError, OnError => true
  | _, _ => false
  end.

(** The function last passed to the method of kind [k] among [calls], or
    [dflt] when none was. *)
Definition last_set (k : Kind) (dflt : Handler)
    (calls : list (Kind * option Handler)) : Handler :=
  foldl (fun acc c =>
           match c.2 with
           | Some f => if same_kind c.1 k then f else acc
           | None => acc
           end)
        dflt calls.

(** The function a route holds for kind [k]. *)
Definition stored (k : Kind) (this : WebSocketRoute) : Handler :=
  match k with
  | OnOpen => _onopen this
  | OnClose => _onclose this
  | OnMessage => _onmessage this
  | OnError => _onerror this
  end.

(** What the constructor stores for kind [k]. *)
Definition constructed (k : Kind) (event : option WebSocketEvent) : Handler :=
  match k with
  | OnOpen => member_or event event_onopen default_onopen
  | OnClose => member_or event event_onclose noop
  | OnMessage => member_or event event_onmessage default_onmessage
  | OnError => member_or event event_onerror noop
  end.

End Route.

Arguments Itself {Handler}.
Arguments Function {Handler} f.

End WSMore.

(* ===================================================================== *)
(** ** Histories of a SystemResponse *)
(* ===================================================================== *)

Module ResponseMore.
Import Response.

(** A history in which every [send] and [redirect] is awaited: the promise
    of its [respondWith] is fulfilled before anything else happens, and no
    promise settles otherwise. *)
Fixpoint awaited {Cookie : Type} (events : list (Event Cookie)) : bool :=
  match events with
  | [] => true
  | e :: rest =>
      match e with
      | call_send _ | call_redirect _ =>
          match rest with
          | fulfilled :: rest' => awaited rest'
          | _ => false
          end
      | fulfilled | rejected => false
      | _ => awaited rest
      end
  end.

(** An exchange on which nothing was sent yet. *)
Definition unanswered (x : Exchange) : Prop :=
  responded (response x) = false
  ∧ awaiting x = 0%nat
  ∧ respondedWith x = [].

(** The sends that wait are among the calls of [respondWith] made; once the
    flag is set, one call more than those waiting was made. *)
Definition counted (x : Exchange) : Prop :=
  (awaiting x ≤ List.length (respondedWith x))%nat
  ∧ (responded (response x) = true →
     (awaiting x < List.length (respondedWith x))%nat).

(** Nothing sent yet, or exactly one response sent and acknowledged; no
    send is waiting. *)
Definition settled (x : Exchange) : Prop :=
  awaiting x = 0%nat
  ∧ ((responded (response x) = false ∧ respondedWith x = [])
     ∨ (responded (response x) = true
        ∧ List.length (respondedWith x) = 1%nat)).

(** The claim of one terminal response read for every history: whatever is
    called on a response on which nothing was sent, and whenever, at most
    one response is handed to [respondWith]. *)
Definition at_most_one_response : Prop :=
  ∀ (assignToVariables : string → gmap string JS.Value → option string → string)
    (Cookie : Type) (setCookie_into : Headers → Cookie → option Headers)
    (expired : string → option string → option string → Cookie)
    (encodeURIComponent : string → string)
    (x : Exchange) (events : list (Event Cookie)),
    unanswered x →
    (List.length
       (respondedWith
          (run assignToVariables Cookie setCookie_into expired
               encodeURIComponent x events)) ≤ 1)%nat.

Section Sent.

Variable encodeURIComponent : string → string.

(** The headers stored when [send] has passed its guard. *)
Definition stored_headers (this : SystemResponse) : Headers :=
  if isForceDownload this
  then <["content-type" := "application/octet-stream"]> (headers this)
  else headers this.

(** The status text of [init] when [send] has escaped it. *)
Definition escaped_text (this : SystemResponse) : option string :=
  match init_statusText this with
  | Some txt => if String.eqb txt "" then Some txt
                else Some (encodeURIComponent txt)
  | None => None
  end.

(** The fields when [send] reaches [new Response]. *)
Definition prepared (this : SystemResponse) : SystemResponse :=
  with_init (with_headers this (stored_headers this))
            (Some (status this)) (escaped_text this).

(** [new Response] accepts what [send] gives it: the status, read as an
    unsigned short, is within 200..599, the escaped status text is a reason
    phrase, and the body is absent or comes with a status that allows one
    and, if a stream, was not locked or read. *)
Definition constructible (spent : list Z) (this : SystemResponse) : bool :=
  Response_accepts spent (body this) (ToUint16 (status this))
                   (default EmptyString (escaped_text this)).

(** The escaped status text is a reason phrase. *)
Definition status_text_accepted (this : SystemResponse) : bool :=
  reason_phrase (default EmptyString (escaped_text this)).

End Sent.

(** The streams locked or read one after the other. *)
Definition reading {Cookie : Type} (streams : list Z) : list (Event Cookie) :=
  stream_spent <$> streams.

End ResponseMore.

(* ===================================================================== *)
(** ** Logger *)
(* ===================================================================== *)

Module Logger.

(** *** The runtime's file system, as far as the logger uses it *)

(** What a path names: a file with its text, or a directory. *)
Inductive Node :=
| File (text : string)
| Directory.

(** The errors that reach the logger: the runtime's [NotFound], its error
    for a path that leads through a file, and the two errors [ensureDir] and
    [ensureFile] throw themselves; anything else the runtime refuses is
    [Refusal]. *)
Inductive Failure :=
| NotFound
| NotADirectory
| ExpectedDir (dir : string)
| ExpectedFile (filePath : string)
| Refusal.

Inductive Outcome (A : Type) :=
| Done (a : A)
| Failed (e : Failure).
Arguments Done {A} a.
Arguments Failed {A} e.

(** An operation on the file system; the awaited steps of one method run
    one after the other, nothing else touching the files in between. *)
Definition FS (A : Type) : Type :=
  gmap string Node → Outcome A * gmap string Node.

Definition pure {A} (a : A) : FS A := fun fs => (Done a, fs).

Definition and_then {A B} (m : FS A) (k : A → FS B) : FS B :=
  fun fs =>
    match m fs with
    | (Done a, fs') => k a fs'
    | (Failed e, fs') => (Failed e, fs')
    end.

(** [try { body } catch (err) { handler(err) }]. *)
Definition try_catch {A} (body : FS A) (handler : Failure → FS A) : FS A :=
  fun fs =>
    match body fs with
    | (Done a, fs') => (Done a, fs')
    | (Failed e, fs') => handler e fs'
    end.

Definition throw {A} (e : Failure) : FS A := fun fs => (Failed e, fs).

(** Paths are read as they are spelled, directory after directory, the
    names parted by slashes; two spellings of one path count as two paths,
    and links are left out. *)

(** The slash, character 47. *)
Definition slash : Ascii.ascii :=
  Ascii.Ascii true true true true false true false false.

(** The part of a path before its last slash. *)
Fixpoint before_last_slash (s : string) : option string :=
  match s with
  | EmptyString => None
  | String c rest =>
      match before_last_slash rest with
      | Some d => Some (String c d)
      | None => if Ascii.eqb c slash then Some EmptyString else None
      end
  end.

(** The directory a path lies in; [None] for a path that lies directly in
    the root or in the current directory. *)
Definition parent (path : string) : option string :=
  match before_last_slash path with
  | Some d => if String.eqb d "" || String.eqb d "." then None else Some d
  | None => None
  end.

(** The directories a path leads through, the nearest first; a path is
    longer than the directory it lies in, so its length is fuel enough. *)
Fixpoint ancestors_upto (n : nat) (path : string) : list string :=
  match n with
  | O => []
  | S n' =>
      match parent path with
      | Some d => d :: ancestors_upto n' d
      | None => []
      end
  end.

Definition ancestors (path : string) : list string :=
  ancestors_upto (String.length path) path.

(** The root, the current directory and the one above it. *)
Definition always_there (path : string) : bool :=
  String.eqb path "/" || String.eqb path "." || String.eqb path "..".

(** What a path names; the directories that are always there need not be
    listed. *)
Definition node_at (fs : gmap string Node) (path : string) : option Node :=
  match fs !! path with
  | Some node => Some node
  | None => if always_there path then Some Directory else None
  end.

Definition is_file (fs : gmap string Node) (path : string) : bool :=
  match node_at fs path with
  | Some (File _) => true
  | _ => false
  end.

(** The path leads through a file. *)
Definition under_file (fs : gmap string Node) (path : string) : bool :=
  existsb (is_file fs) (ancestors path).

(** The error for a path that names nothing. *)
Definition missing (fs : gmap string Node) (path : string) : Failure :=
  if under_file fs path then NotADirectory else NotFound.

(** The directories among [dirs] that are missing, created. *)
Definition make_directories (dirs : list string) (fs : gmap string Node)
    : gmap string Node :=
  foldr (fun d m => match node_at m d with
                    | None => <[d := Directory]> m
                    | Some _ => m
                    end) fs dirs.

(** A file system as it can be: whatever is listed lies in directories.
    The operations below start from such a file system and keep it so; on
    it, a path that names something leads through no file. *)
Definition well_formed (fs : gmap string Node) : Prop :=
  ∀ path node, fs !! path = Some node →
    ∀ d, d ∈ ancestors path → node_at fs d = Some Directory.

Section WithPath.

(** [path.dirname], imported from [mod.ts], which is not among the
    sources. *)
Variable dirname : string → string.

(** [Deno.lstat(path)]: what the path names; when it names nothing,
    [NotFound], or the error of a path that leads through a file. *)
Definition lstat (path : string) : FS Node :=
  fun fs =>
    match node_at fs path with
    | Some node => (Done node, fs)
    | None => (Failed (missing fs path), fs)
    end.

(** [Deno.mkdir(dir, { recursive: true })]: an existing directory is left
    alone, a file in the way is refused, also on the way to [dir]; the
    directories missing on the way are created with it. *)
Definition mkdir (dir : string) : FS unit :=
  fun fs =>
    match node_at fs dir with
    | Some (File _) => (Failed Refusal, fs)
    | Some Directory => (Done tt, fs)
    | None =>
        if under_file fs dir then (Failed NotADirectory, fs)
        else (Done tt, make_directories (dir :: ancestors dir) fs)
    end.

(** [Deno.writeTextFile(path, text)], and [Deno.writeFile] with the bytes of
    [text]: an existing file is overwritten, a new one is created when the
    directory it lies in exists, a directory in the way is refused. *)
Definition writeTextFile (path text : string) : FS unit :=
  fun fs =>
    match node_at fs path with
    | Some (File _) => (Done tt, <[path := File text]> fs)
    | Some Directory => (Failed Refusal, fs)
    | None =>
        match parent path with
        | Some d =>
            match node_at fs d with
            | Some Directory => (Done tt, <[path := File text]> fs)
            | _ => (Failed (missing fs path), fs)
            end
        | None => (Done tt, <[path := File text]> fs)
        end
    end.

(** [Deno.readTextFile(path)]. *)
Definition readTextFile (path : string) : FS string :=
  fun fs =>
    match node_at fs path with
    | Some (File text) => (Done text, fs)
    | Some Directory => (Failed Refusal, fs)
    | None => (Failed (missing fs path), fs)
    end.

(** *** Logger.ts *)

(** [ensureDir(dir)]. *)
Definition ensureDir (dir : string) : FS unit :=
  try_catch
    (and_then (lstat dir) (fun fileInfo =>
       match fileInfo with
       | Directory => pure tt
       | File _ => throw (ExpectedDir dir)
       end))
    (fun err =>
       match err with
       | NotFound => mkdir dir
       | _ => throw err
       end).

(** [ensureFile(filePath)]. *)
Definition ensureFile (filePath : string) : FS unit :=
  try_catch
    (and_then (lstat filePath) (fun stat =>
       match stat with
       | File _ => pure tt
       | Directory => throw (ExpectedFile filePath)
       end))
    (fun err =>
       match err with
       | NotFound =>
           and_then (ensureDir (dirname filePath)) (fun _ =>
             writeTextFile filePath "")
       | _ => throw err
       end).

(** The class [Log] and its two subclasses: the file a line goes to, the
    names of its columns and its fields. *)
Record Log := mkLog {
  fileName : string;
  header : list string;
  data : list string
}.

(** [new Log(...data)]; [date] is the current date as the constructor
    formats it. *)
Definition new_Log (date : string) (data : list string) : Log :=
  {| fileName := ".log"; header := ["Date"]; data := date :: data |}.

(** [new RequestLog(Path, Method, URL, Address)]. *)
Definition new_RequestLog (date Path Method URL Address : string) : Log :=
  {| fileName := "request.log";
     header := ["Date"; "Path"; "Method"; "URL"; "Address"];
     data := date :: [Path; Method; URL; Address] |}.

(** [new ErrorLog(Type, Message)]. *)
Definition new_ErrorLog (date Type_ Message : string) : Log :=
  {| fileName := "error.log";
     header := ["Date"; "Type"; "Message"];
     data := date :: [Type_; Message] |}.

(** The line feed, character 10. *)
Definition newline : string :=
  String (Ascii.Ascii false true false true false false false false) "".

(** [get headerLine()]. *)
Definition headerLine (log : Log) : string :=
  String.concat "," (header log) +:+ newline.

(** [toString()]. *)
Definition toString (log : Log) : string :=
  String.concat "," (data log) +:+ newline.

(** The class [Logger]: its private [#directoryPath]. *)
Record Logger := mkLogger { _directoryPath : string }.

(** [constructor(directoryPath?)]: [directoryPath || "./log"], so the
    empty string falls back too. *)
Definition new_Logger (directoryPath : option string) : Logger :=
  {| _directoryPath :=
       match directoryPath with
       | Some d => if String.eqb d "" then "./log" else d
       | None => "./log"
       end |}.

(** The template [`${this.#directoryPath}/${fileName}`]. *)
Definition path_of (this : Logger) (fileName : string) : string :=
  _directoryPath this +:+ "/" +:+ fileName.

(** [read(fileName)]. *)
Definition read (this : Logger) (fileName : string) : FS string :=
  let filePath := path_of this fileName in
  and_then (ensureFile filePath) (fun _ => readTextFile filePath).

(** [write(fileName, text)]. *)
Definition write (this : Logger) (fileName text : string) : FS unit :=
  let filePath := path_of this fileName in
  and_then (ensureFile filePath) (fun _ => writeTextFile filePath text).

(** [insert(fileName, text)]. *)
Definition insert (this : Logger) (fileName text : string) : FS unit :=
  and_then (read this fileName) (fun texts =>
    write this fileName (texts +:+ text)).

(** [record(log)]: [!texts.length] holds for the empty string only. *)
Definition record (this : Logger) (log : Log) : FS unit :=
  and_then (read this (fileName log)) (fun texts =>
    and_then
      (if String.eqb texts "" then insert this (fileName log) (headerLine log)
       else pure tt)
      (fun _ => insert this (fileName log) (toString log))).

(** What a file holds after a log was recorded in it. *)
Definition recorded (texts : string) (log : Log) : string :=
  if String.eqb texts "" then headerLine log +:+ toString log
  else texts +:+ toString log.

End WithPath.

End Logger.

Module LoggerScenario.
Import Logger.

(** A stand-in for [path.dirname] in the examples: the part before the last
    slash, [.] when there is none. *)
Definition simple_dirname (s : string) : string :=
  match before_last_slash s with
  | Some EmptyString => "/"
  | Some d => d
  | None => "."
  end.

(** [new Logger()]. *)
Definition logger : Logger := new_Logger None.

Definition first_request : Log :=
  new_RequestLog "Mon Nov 02 2026 10:00:00 GMT+0900"
                 "/index.html" "GET" "http://localhost/" "127.0.0.1".

(** Nothing on disk. *)
Definition empty_disk : gmap string Node := ∅.

(** A directory where the request log should be. *)
Definition blocked_disk : gmap string Node :=
  {[ "./log" := Directory; "./log/request.log" := Directory ]}.

(** A file where the log directory should be. *)
Definition file_as_directory : gmap string Node :=
  {[ "./log" := File "x" ]}.

(** A logger that keeps its files two directories down. *)
Definition nested_logger : Logger := new_Logger (Some "./var/log").

End LoggerScenario.

(* ===================================================================== *)
(** ** Properties of WebSocketClient *)
(* ===================================================================== *)

Module WSFacts.
Import JS WS WSScenario.

(** *** Lists and objects *)

Lemma elem_of_List_filter {A} (f : A → bool) (l : list A) (x : A) :
  x ∈ List.filter f l ↔ x ∈ l ∧ f x = true.
Proof. rewrite !list_elem_of_In. apply filter_In. Qed.

Lemma NoDup_List_filter {A} (f : A → bool) (l : list A) :
  NoDup l → NoDup (List.filter f l).
Proof.
  induction 1 as [|x l Hx Hl IH]; simpl; [constructor|].
  destruct (f x); [|done].
  constructor; [|done]. rewrite elem_of_List_filter. tauto.
Qed.

Lemma length_filter_zero {A} (f : A → bool) (l : list A) :
  JS.not (JS.length (List.filter f l)) = forallb (fun x => negb (f x)) l.
Proof.
  unfold JS.not, JS.length.
  induction l as [|x l IH]; simpl; [done|].
  by destruct (f x).
Qed.

Lemma length_filter_nonzero {A} (f : A → bool) (l : list A) :
  Boolean (JS.length (List.filter f l)) = existsb f l.
Proof.
  unfold Boolean, JS.length.
  induction l as [|x l IH]; simpl; [done|].
  by destruct (f x).
Qed.

Lemma Object_entries_perm {A} (o : gmap Z A) :
  Object_entries o ≡ₚ map_to_list o.
Proof. apply merge_sort_Permutation. Qed.

Lemma elem_of_Object_values {A} (o : gmap Z A) (x : A) :
  x ∈ Object_values o ↔ ∃ i, o !! i = Some x.
Proof.
  unfold Object_values. rewrite Object_entries_perm, list_elem_of_fmap.
  split.
  - intros [[i y] [-> H]]. exists i. by apply elem_of_map_to_list in H.
  - intros [i H]. exists (i, x). split; [done|]. by apply elem_of_map_to_list.
Qed.

Lemma elem_of_Object_keys {A} (o : gmap Z A) (i : Z) :
  i ∈ Object_keys o ↔ is_Some (o !! i).
Proof.
  unfold Object_keys. rewrite Object_entries_perm, list_elem_of_fmap.
  split.
  - intros [[j y] [-> H]]. exists y. by apply elem_of_map_to_list in H.
  - intros [x H]. exists (i, x). split; [done|]. by apply elem_of_map_to_list.
Qed.

Lemma NoDup_Object_keys {A} (o : gmap Z A) : NoDup (Object_keys o).
Proof.
  unfold Object_keys. rewrite Object_entries_perm. apply NoDup_fst_map_to_list.
Qed.

Lemma length_Object_keys {A} (o : gmap Z A) :
  JS.length (Object_keys o) = Z.of_nat (size o).
Proof.
  unfold JS.length, Object_keys.
  rewrite length_fmap, Object_entries_perm. by rewrite length_map_to_list.
Qed.

(** *** The static state stays consistent *)

Lemma id_with_attributes this attrs : id (with_attributes this attrs) = id this.
Proof. done. Qed.

Lemma id_setAttributes attributes this :
  id (setAttributes attributes this) = id this.
Proof.
  unfold setAttributes. revert this.
  induction attributes as [|kv l IH]; intros this; simpl; [done|].
  by rewrite IH.
Qed.

Lemma id_mutate m this : id (mutate m this) = id this.
Proof. destruct m; simpl; auto using id_setAttributes. Qed.

Lemma consistent_initial : consistent initial.
Proof.
  split; [|split]; simpl; [| |lia].
  - intros i c H. by rewrite lookup_empty in H.
  - intros i [c H]. by rewrite lookup_empty in H.
Qed.

Lemma consistent_step st a : consistent st → consistent (step st a).
Proof.
  intros (Hid & Hlt & Hpos).
  destruct a as [ws u v|i|i m]; (split; [|split]); simpl; try lia.
  - intros i c. rewrite lookup_insert.
    case_decide as Hd; [by intros [= <-]|auto].
  - intros i. rewrite lookup_insert. case_decide as Hd; [lia|].
    intros Hi. apply Hlt in Hi. lia.
  - intros j c. rewrite lookup_delete. case_decide as Hd; [done|auto].
  - intros j. rewrite lookup_delete.
    case_decide as Hd; [by intros []|auto].
  - intros j c. rewrite lookup_alter. case_decide as Hij; [|auto].
    subst j. destruct (clients st !! i) as [c0|] eqn:E; simpl; [|done].
    intros [= <-]. rewrite id_mutate. auto.
  - intros j. rewrite lookup_alter. case_decide as Hij; [|auto].
    subst j. rewrite fmap_is_Some. auto.
Qed.

Lemma consistent_run st actions : consistent st → consistent (run st actions).
Proof.
  unfold run. revert st.
  induction actions as [|a l IH]; intros st H; simpl; [done|].
  apply IH, consistent_step, H.
Qed.

Lemma reachable_consistent actions : consistent (run initial actions).
Proof. apply consistent_run, consistent_initial. Qed.

Lemma NoDup_getAllClients st : consistent st → NoDup (getAllClients st).
Proof.
  intros (Hid & _). unfold getAllClients, Object_values.
  apply (NoDup_fmap_1 id).
  replace (id <$> (Object_entries (clients st)).*2)
    with (Object_keys (clients st)); [apply NoDup_Object_keys|].
  unfold Object_keys. rewrite <- list_fmap_compose.
  apply Forall_fmap_ext, Forall_forall. intros [i c] H. simpl.
  rewrite Object_entries_perm in H. apply elem_of_map_to_list in H.
  symmetry. by apply Hid.
Qed.

(** *** Selection by attributes *)

Lemma inner_filters_are_matches client attribute :
  JS.not (JS.length (List.filter (fun key =>
    negb (truthy (getAttribute client key))) (keys_of attribute)))
  = matches client attribute.
Proof.
  rewrite length_filter_zero. unfold matches.
  induction (keys_of attribute) as [|key l IH]; simpl; [done|].
  by rewrite negb_involutive, IH.
Qed.

Lemma getClientsByAttribute_matches st attributes :
  getClientsByAttribute st attributes
  = List.filter (fun client => existsb (matches client) attributes)
                (getAllClients st).
Proof.
  unfold getClientsByAttribute, getAllClients.
  apply filter_ext. intros client.
  rewrite length_filter_nonzero.
  induction attributes as [|attribute l IH]; simpl; [done|].
  by rewrite inner_filters_are_matches, IH.
Qed.

Lemma matches_spec client attribute :
  matches client attribute = true
  ↔ ∀ key, key ∈ keys_of attribute → truthy (getAttribute client key) = true.
Proof.
  unfold matches. rewrite forallb_forall.
  by setoid_rewrite list_elem_of_In.
Qed.

Lemma elem_of_getClientsByAttribute st attributes client :
  client ∈ getClientsByAttribute st attributes
  ↔ client ∈ getAllClients st
    ∧ ∃ attribute, attribute ∈ attributes ∧ matches client attribute = true.
Proof.
  rewrite getClientsByAttribute_matches, elem_of_List_filter, existsb_exists.
  by setoid_rewrite list_elem_of_In.
Qed.

(** Three connections open and the second sets [{room: "x"}]: selecting
    [{room: "x"}] gives that connection alone, and with no attribute set at
    all nothing is selected. *)
Lemma room_x_selects_one :
  id <$> getClientsByAttribute three_clients [[("room", Str "x")]] = [1]
  ∧ id <$> getAllClients three_clients = [0; 1; 2]
  ∧ getClientsByAttribute three_clients [] = [].
Proof. vm_compute. repeat split; reflexivity. Qed.

(** C1 (as amended).  In every state of the registry,
    [getClientsByAttribute({a: va, b: vb})] returns exactly the registered
    clients whose own attributes [a] and [b] are both truthy, whatever the
    values [va] and [vb] written in the query (so also for [{a: 1, b: 2}]);
    a client is returned for several attribute sets exactly when it is
    returned for one of them alone (the union of the matches of each set, a
    set matching when every one of its keys is truthy on the client); and
    no client appears twice in a result. *)
Theorem getClientsByAttribute_truthy_keys (actions : list Action) :
  let st := run initial actions in
  (∀ va vb client,
     client ∈ getClientsByAttribute st [[("a", va); ("b", vb)]]
     ↔ client ∈ getAllClients st
       ∧ truthy (getAttribute client "a") = true
       ∧ truthy (getAttribute client "b") = true)
  ∧ (∀ attribute client,
       client ∈ getClientsByAttribute st [attribute]
       ↔ client ∈ getAllClients st
         ∧ ∀ key, key ∈ keys_of attribute →
                  truthy (getAttribute client key) = true)
  ∧ (∀ attributes client,
       client ∈ getClientsByAttribute st attributes
       ↔ ∃ attribute, attribute ∈ attributes
                      ∧ client ∈ getClientsByAttribute st [attribute])
  ∧ (∀ set1 set2 client,
       client ∈ getClientsByAttribute st [set1; set2]
       ↔ client ∈ getClientsByAttribute st [set1]
         ∨ client ∈ getClientsByAttribute st [set2])
  ∧ (∀ attributes, NoDup (getClientsByAttribute st attributes)).
Proof.
  intros st.
  assert (Hone : ∀ attribute client,
    client ∈ getClientsByAttribute st [attribute]
    ↔ client ∈ getAllClients st ∧ matches client attribute = true).
  { intros attribute client. rewrite elem_of_getClientsByAttribute.
    split.
    - intros (H & a & Ha & Hm). apply list_elem_of_singleton in Ha. by subst a.
    - intros (H & Hm). split; [done|]. exists attribute.
      split; [apply list_elem_of_singleton|]; done. }
  assert (Hmany : ∀ attributes client,
    client ∈ getClientsByAttribute st attributes
    ↔ ∃ attribute, attribute ∈ attributes
                   ∧ client ∈ getClientsByAttribute st [attribute]).
  { intros attributes client. rewrite elem_of_getClientsByAttribute.
    split.
    - intros (H & a & Ha & Hm). exists a. split; [done|]. by apply Hone.
    - intros (a & Ha & Hc). apply Hone in Hc as [H Hm]. eauto. }
  split; [|split; [|split; [|split]]].
  - intros va vb client. rewrite Hone, matches_spec. simpl.
    split.
    + intros (H & Hk). split; [done|].
      split; apply Hk; rewrite !elem_of_cons; auto.
    + intros (H & Ha & Hb). split; [done|]. intros key Hkey.
      apply elem_of_cons in Hkey as [->|Hkey]; [done|].
      apply list_elem_of_singleton in Hkey as ->. done.
  - intros attribute client. by rewrite Hone, matches_spec.
  - exact Hmany.
  - intros set1 set2 client. rewrite Hmany. split.
    + intros (a & Ha & H).
      apply elem_of_cons in Ha as [->|Ha]; [by left|].
      apply list_elem_of_singleton in Ha as ->. by right.
    + intros [H|H]; [exists set1|exists set2]; (split; [|done]);
        rewrite !elem_of_cons; auto.
  - intros attributes. rewrite getClientsByAttribute_matches.
    apply NoDup_List_filter, NoDup_getAllClients, reachable_consistent.
Qed.

(** C1 (as stated) fails.  With one registered client whose attributes are
    [a = 2] and [b = 1], [getClientsByAttribute({a: 1, b: 2})] returns that
    client although it holds neither [a = 1] nor [b = 2]: the values of the
    query are never compared. *)
Lemma selection_ignores_query_values : ¬ selects_by_value swapped.
Proof.
  intros H.
  pose (client := setAttributes [("a", Num 2); ("b", Num 1)]
                    (new_WebSocketClient 7 "ws://localhost/chat" ∅ initial).1).
  destruct (H client) as [Hvalue _].
  assert (Hin : client
                ∈ getClientsByAttribute swapped [[("a", Num 1); ("b", Num 2)]]).
  { replace (getClientsByAttribute swapped [[("a", Num 1); ("b", Num 2)]])
      with [client] by (vm_compute; reflexivity).
    apply list_elem_of_singleton. reflexivity. }
  apply Hvalue in Hin as (_ & Ha & _).
  vm_compute in Ha. discriminate Ha.
Qed.

(** *** Client ids *)

Lemma lastInsertedId_step st a : lastInsertedId st ≤ lastInsertedId (step st a).
Proof. destruct a; simpl; lia. Qed.

Lemma issued_from st actions :
  Forall (fun i => lastInsertedId st ≤ i) (issued st actions)
  ∧ StronglySorted Z.lt (issued st actions).
Proof.
  revert st. induction actions as [|a rest IH]; intros st.
  - split; constructor.
  - destruct (IH (step st a)) as [Hge Hsorted].
    assert (Hweak : Forall (fun i => lastInsertedId st ≤ i)
                           (issued (step st a) rest)).
    { eapply Forall_impl; [exact Hge|]. intros i Hi. simpl in Hi.
      pose proof (lastInsertedId_step st a). lia. }
    destruct a as [ws u v|i|i m]; simpl; [|done|done].
    split.
    + constructor; [simpl; lia|done].
    + apply StronglySorted_cons. split; [|done].
      eapply Forall_impl; [exact Hge|]. simpl. intros i Hi.
      unfold id. simpl. lia.
Qed.

Lemma StronglySorted_lt_NoDup (l : list Z) : StronglySorted Z.lt l → NoDup l.
Proof.
  induction 1 as [|x l Hs IH Hlt]; constructor; [|done].
  intros Hx. rewrite Forall_forall in Hlt. apply Hlt in Hx. lia.
Qed.

Lemma fresh_id_unused st webSocket url variables :
  consistent st →
  clients st !! id (new_WebSocketClient webSocket url variables st).1 = None.
Proof.
  intros (_ & Hlt & _). unfold id. simpl.
  destruct (clients st !! lastInsertedId st) eqn:E; [|done].
  assert (Hsome : is_Some (clients st !! lastInsertedId st)) by eauto.
  apply Hlt in Hsome. lia.
Qed.

(** The id of a closed connection is not handed out again. *)
Lemma ids_after_close :
  issued initial
    [Open 7 "ws://localhost/chat" ∅; Close 0; Open 8 "ws://localhost/chat" ∅]
  = [0; 1].
Proof. vm_compute. reflexivity. Qed.

(** C8.  Whatever sockets open and close and whatever the handlers do in
    between, the ids handed out by the constructor, in the order of the
    constructions, are strictly increasing, hence pairwise different; this
    holds across the removals of closed connections, so the id of a closed
    connection is not given to a later one.  A new client's id is the value
    of [lastInsertedId] at its construction, it is larger than the id of
    every client then registered, and no method of the class changes it. *)
Theorem ids_strictly_increasing (actions : list Action) :
  StronglySorted Z.lt (issued initial actions)
  ∧ NoDup (issued initial actions)
  ∧ (∀ webSocket url variables,
       let st := run initial actions in
       let this := (new_WebSocketClient webSocket url variables st).1 in
       id this = lastInsertedId st
       ∧ ∀ i, is_Some (clients st !! i) → i < id this)
  ∧ (∀ m this, id (mutate m this) = id this).
Proof.
  destruct (issued_from initial actions) as [_ Hsorted].
  split; [done|]. split; [by apply StronglySorted_lt_NoDup|].
  split; [|apply id_mutate].
  intros webSocket url variables st this. subst st this.
  split; [done|]. intros i Hi.
  destruct (reachable_consistent actions) as (_ & Hlt & _).
  apply Hlt in Hi. unfold id. simpl. lia.
Qed.

(** *** Registering and unregistering *)

(** C9.  In every state of the registry, constructing a client (which
    registers it) and then unregistering its id brings
    [concurrentConnections] back to what it was, having raised it by one in
    between; and [getClientById] on an id that has no entry, in particular
    on one just unregistered, gives the absent value: the lookup is a
    property read and has no failing case. *)
Theorem register_unregister_size (actions : list Action)
    (webSocket : WebSocket) (url : string) (variables : gmap string string) :
  let st := run initial actions in
  let this := (new_WebSocketClient webSocket url variables st).1 in
  let st' := (new_WebSocketClient webSocket url variables st).2 in
  concurrentConnections st' = concurrentConnections st + 1
  ∧ concurrentConnections (unregister (id this) st') = concurrentConnections st
  ∧ getClientById st' (id this) = Some this
  ∧ getClientById (unregister (id this) st') (id this) = None
  ∧ (∀ i, getClientById (unregister i st) i = None)
  ∧ (∀ i, i ∉ Object_keys (clients st) → getClientById st i = None).
Proof.
  intros st this st'.
  pose proof (fresh_id_unused st webSocket url variables
                (reachable_consistent actions)) as Hfresh.
  fold this in Hfresh.
  unfold concurrentConnections. rewrite !length_Object_keys.
  unfold st', unregister, getClientById. simpl.
  change (lastInsertedId st) with (id this) in *.
  split; [|split; [|split; [|split; [|split]]]].
  - rewrite map_size_insert_None by done. lia.
  - by rewrite delete_insert_id.
  - apply lookup_insert_eq.
  - apply lookup_delete_eq.
  - intros i. apply lookup_delete_eq.
  - intros i Hi. rewrite elem_of_Object_keys in Hi.
    destruct (clients st !! i) eqn:E; [|done]. destruct Hi. eauto.
Qed.

(** *** Sending *)

Lemma attempts_emit e w message clients :
  attempts (emit e w) message clients = attempts w message clients.
Proof.
  induction clients as [|client rest IH]; simpl; [done|]. by rewrite IH.
Qed.

Lemma outcome_emit e w clients : outcome (emit e w) clients = outcome w clients.
Proof. done. Qed.

(** A send makes the calls of [attempts] and nothing else. *)
Lemma WebSocketClient_send_runs clients message w :
  WebSocketClient_send clients message w
  = (outcome w clients,
     {| readyState := readyState w;
        wire := wire w ++ attempts w message clients |}).
Proof.
  unfold WebSocketClient_send. revert w.
  induction clients as [|client rest IH]; intros w; simpl.
  - unfold ret, outcome. simpl. rewrite app_nil_r. by destruct w.
  - unfold bind, WebSocket_send, outcome, is_open. simpl.
    destruct (readyState w (webSocket client)) eqn:E; simpl;
      try (by rewrite ?E).
    rewrite IH, attempts_emit. simpl. unfold outcome, is_open. simpl.
    by rewrite <- app_assoc.
Qed.

Lemma written_by_send clients message w :
  written_by (WebSocketClient_send clients message) w
  = attempts w message clients.
Proof.
  unfold written_by. rewrite WebSocketClient_send_runs. simpl.
  apply drop_app_length.
Qed.

Lemma attempts_all_open w message clients :
  (∀ client, client ∈ clients → readyState w (webSocket client) = OPEN) →
  attempts w message clients
  = (fun client => Sent (webSocket client) message) <$> clients.
Proof.
  induction clients as [|client rest IH]; intros H; simpl; [done|].
  rewrite (H client) by apply list_elem_of_here.
  f_equal. apply IH. intros c Hc. apply H. by apply list_elem_of_further.
Qed.

Lemma attempts_until_failure w message before failing after :
  (∀ client, client ∈ before → readyState w (webSocket client) = OPEN) →
  readyState w (webSocket failing) ≠ OPEN →
  attempts w message (before ++ failing :: after)
  = ((fun client => Sent (webSocket client) message) <$> before)
    ++ [Refused (webSocket failing) message].
Proof.
  intros Hbefore Hfailing.
  induction before as [|client rest IH]; simpl.
  - by destruct (readyState w (webSocket failing)).
  - rewrite (Hbefore client) by apply list_elem_of_here.
    f_equal. apply IH. intros c Hc. apply Hbefore.
    by apply list_elem_of_further.
Qed.

Lemma outcome_failure w before failing after :
  readyState w (webSocket failing) ≠ OPEN →
  outcome w (before ++ failing :: after) = Throw "InvalidStateError".
Proof.
  intros Hfailing. unfold outcome.
  rewrite forallb_app. simpl. unfold is_open at 2.
  destruct (readyState w (webSocket failing)); try done;
    by rewrite andb_false_r.
Qed.

(** C4 (as amended).  When the write to one target throws, the send ends
    there: the targets before it have been written to, in order, and stay
    written (nothing is rolled back); the failing target has had its call;
    the targets after it get no call at all; and the exception reaches the
    caller of [send]. *)
Theorem send_stops_at_first_failure
    (before : list WebSocketClient) (failing : WebSocketClient)
    (after : list WebSocketClient) (message : Payload) (w : World) :
  (∀ client, client ∈ before → readyState w (webSocket client) = OPEN) →
  readyState w (webSocket failing) ≠ OPEN →
  WebSocketClient_send (before ++ failing :: after) message w
  = (Throw "InvalidStateError",
     {| readyState := readyState w;
        wire := wire w
                ++ ((fun client => Sent (webSocket client) message) <$> before)
                ++ [Refused (webSocket failing) message] |})
  ∧ written_by (WebSocketClient_send (before ++ failing :: after) message) w
    = ((fun client => Sent (webSocket client) message) <$> before)
      ++ [Refused (webSocket failing) message].
Proof.
  intros Hbefore Hfailing. split.
  - rewrite WebSocketClient_send_runs.
    rewrite outcome_failure by done.
    by rewrite attempts_until_failure.
  - rewrite written_by_send. by apply attempts_until_failure.
Qed.

(** Alice is written to, Bob's socket is still connecting, Carol is never
    reached. *)
Lemma send_stops_at_bob :
  (∀ client, client ∈ [alice] →
             readyState bob_connecting (webSocket client) = OPEN)
  ∧ readyState bob_connecting (webSocket bob) ≠ OPEN
  ∧ WebSocketClient_send ([alice] ++ bob :: [carol]) (Text "m") bob_connecting
    = (Throw "InvalidStateError",
       {| readyState := readyState bob_connecting;
          wire := wire bob_connecting
                  ++ ((fun client => Sent (webSocket client) (Text "m"))
                        <$> [alice])
                  ++ [Refused (webSocket bob) (Text "m")] |})
  ∧ written_by
      (WebSocketClient_send ([alice] ++ bob :: [carol]) (Text "m"))
      bob_connecting
    = ((fun client => Sent (webSocket client) (Text "m")) <$> [alice])
      ++ [Refused (webSocket bob) (Text "m")].
Proof.
  assert (H1 : ∀ client, client ∈ [alice] →
                 readyState bob_connecting (webSocket client) = OPEN).
  { intros client Hc. apply list_elem_of_singleton in Hc. subst client.
    reflexivity. }
  assert (H2 : readyState bob_connecting (webSocket bob) ≠ OPEN).
  { vm_compute. discriminate. }
  split; [exact H1|]. split; [exact H2|].
  exact (send_stops_at_first_failure [alice] bob [carol] (Text "m")
           bob_connecting H1 H2).
Defined.

(** C4 (as stated) fails.  Alice's socket is still connecting, so the write
    to her throws; the send to Alice and Bob then makes the one call on
    Alice's socket and none on Bob's. *)
Lemma failure_prevents_later_writes : ¬ every_target_attempted.
Proof.
  intros H.
  destruct (H [alice; bob] (Text "m") alice_connecting bob) as (e & He & Hs).
  { apply list_elem_of_further, list_elem_of_here. }
  rewrite written_by_send in He. vm_compute in He.
  apply list_elem_of_singleton in He. subst e. vm_compute in Hs.
  discriminate Hs.
Qed.

(** C5 (as amended).  For two clients [c1], [c2] and a message [m], provided
    the write to [c1] does not throw (its socket is open), [send([c1, c2], m)]
    makes exactly one call of [webSocket.send(m)] on the socket of [c1] and
    then exactly one on the socket of [c2], and no other call; when the
    socket of [c2] is open too, both frames are written and the send
    returns. *)
Theorem send_pair_in_order (c1 c2 : WebSocketClient) (message : Payload)
    (w : World) :
  readyState w (webSocket c1) = OPEN →
  let calls := written_by (WebSocketClient_send [c1; c2] message) w in
  socket_of <$> calls = [webSocket c1; webSocket c2]
  ∧ data_of <$> calls = [message; message]
  ∧ (readyState w (webSocket c2) = OPEN →
     calls = [Sent (webSocket c1) message; Sent (webSocket c2) message]
     ∧ (WebSocketClient_send [c1; c2] message w).1 = Return tt).
Proof.
  intros H1 calls. subst calls.
  rewrite written_by_send, WebSocketClient_send_runs. simpl.
  unfold outcome, is_open. simpl. rewrite H1.
  split; [|split].
  - by destruct (readyState w (webSocket c2)).
  - by destruct (readyState w (webSocket c2)).
  - intros H2. by rewrite H2.
Qed.

(** Alice and Bob, both sockets open. *)
Lemma send_pair_alice_bob :
  readyState all_open (webSocket alice) = OPEN
  ∧ let calls :=
      written_by (WebSocketClient_send [alice; bob] (Text "m")) all_open in
    socket_of <$> calls = [webSocket alice; webSocket bob]
    ∧ data_of <$> calls = [Text "m"; Text "m"]
    ∧ (readyState all_open (webSocket bob) = OPEN →
       calls = [Sent (webSocket alice) (Text "m");
                Sent (webSocket bob) (Text "m")]
       ∧ (WebSocketClient_send [alice; bob] (Text "m") all_open).1
         = Return tt).
Proof.
  split; [reflexivity|].
  exact (send_pair_in_order alice bob (Text "m") all_open eq_refl).
Defined.

(** C5 (as stated) fails.  Bob's socket is still connecting: the send to Bob
    and Carol makes its call on Bob's socket, which throws, and none on
    Carol's. *)
Lemma pair_send_cut_short : ¬ one_write_each_in_order.
Proof.
  intros H.
  destruct (H bob carol (Text "m") bob_connecting) as [Hsockets _].
  rewrite written_by_send in Hsockets. vm_compute in Hsockets.
  discriminate Hsockets.
Qed.

Lemma or_message_payload_sent this message :
  or_message message (_message this) = payload_sent this message.
Proof.
  destruct message as [[s|bytes]|]; simpl; try done. by destruct s.
Qed.

Lemma or_clients_targets_sent this clients :
  or_clients clients (_to this) = targets_sent this clients.
Proof. by destruct clients. Qed.

(** C6 (as amended).  A call [send(clients?, message?)] on a client makes the
    calls of the static [send] for these targets and this payload: the
    targets are [clients] when given (even when empty) and the stored list
    of [to] otherwise; the payload is [message] when given and not the empty
    string, and the stored message of [setMessage] otherwise.  When every
    target's socket is open, each target is written that payload once, in
    order.  [reply(message?)] is [send([this], message)]. *)
Theorem send_targets_and_payload (this : WebSocketClient)
    (clients : option (list WebSocketClient)) (message : option Payload)
    (w : World) :
  send this clients message w
  = WebSocketClient_send (targets_sent this clients)
                         (payload_sent this message) w
  ∧ written_by (send this clients message) w
    = attempts w (payload_sent this message) (targets_sent this clients)
  ∧ ((∀ target, target ∈ targets_sent this clients →
                readyState w (webSocket target) = OPEN) →
     written_by (send this clients message) w
     = (fun target => Sent (webSocket target) (payload_sent this message))
         <$> targets_sent this clients)
  ∧ reply this message w
    = WebSocketClient_send [this] (payload_sent this message) w.
Proof.
  unfold reply, send.
  rewrite or_message_payload_sent, or_clients_targets_sent.
  split; [done|]. split; [apply written_by_send|]. split; [|done].
  intros Hopen. rewrite written_by_send. by apply attempts_all_open.
Qed.

(** C6 (as stated) fails.  Alice has stored the message "hello"; a send of
    the empty string to her own socket writes "hello", where falling back
    only for an omitted argument would write the empty string. *)
Lemma empty_message_falls_back : ¬ send_falls_back_when_omitted.
Proof.
  intros H.
  specialize (H (setMessage (Text "hello") alice) (Some [alice])
                (Some (Text "")) all_open).
  apply (f_equal (fun r => wire r.2)) in H.
  vm_compute in H. discriminate H.
Qed.

(** *** Outbound state *)

Lemma message_setAttributes attributes this :
  _message (setAttributes attributes this) = _message this
  ∧ _to (setAttributes attributes this) = _to this.
Proof.
  unfold setAttributes. revert this.
  induction attributes as [|kv l IH]; intros this; [done|].
  cbn [foldl]. by destruct (IH (setAttribute kv.1 kv.2 this)) as [-> ->].
Qed.

Lemma message_removeAttributes keys this :
  _message (removeAttributes keys this) = _message this
  ∧ _to (removeAttributes keys this) = _to this.
Proof.
  unfold removeAttributes. revert this.
  induction keys as [|key l IH]; intros this; [done|].
  cbn [foldl]. by destruct (IH (removeAttribute key this).2) as [-> ->].
Qed.

Lemma message_invoke st c this :
  _message (invoke st c this).1
  = match c with call_setMessage message => message | _ => _message this end.
Proof.
  destruct c; simpl; try done.
  - apply message_setAttributes.
  - apply message_removeAttributes.
Qed.

Lemma to_invoke st c this :
  _to (invoke st c this).1
  = match c with call_to clients => clients | _ => _to this end.
Proof.
  destruct c; simpl; try done.
  - apply message_setAttributes.
  - apply message_removeAttributes.
Qed.

(** C7.  After any series of calls on a client, its stored message is the
    argument of the last [setMessage] in the series (the value it had before
    when there is none) and its stored target list is the argument of the
    last [to] (likewise): each [setMessage] or [to] overwrites the previous
    value and no other method changes either.  In particular [send] leaves
    the client as it was, whether it returns or throws, and clears
    neither. *)
Theorem outbound_state_frame (st : Static) (this : WebSocketClient)
    (calls : list Call) :
  _message (after_calls st this calls) = last_setMessage (_message this) calls
  ∧ _to (after_calls st this calls) = last_to (_to this) calls
  ∧ (∀ message, _message (setMessage message this) = message
                ∧ _to (setMessage message this) = _to this)
  ∧ (∀ clients, _to (to clients this) = clients
                ∧ _message (to clients this) = _message this)
  ∧ (∀ clients message,
       (invoke st (call_send clients message) this).1 = this).
Proof.
  split; [|split; [|done]].
  - unfold after_calls, last_setMessage. revert this.
    induction calls as [|c l IH]; intros this; simpl; [done|].
    by rewrite IH, message_invoke.
  - unfold after_calls, last_to. revert this.
    induction calls as [|c l IH]; intros this; simpl; [done|].
    by rewrite IH, to_invoke.
Qed.

End WSFacts.

(* ===================================================================== *)
(** ** Properties of the route table *)
(* ===================================================================== *)

Module RouterFacts.
Import Router RouteScenario.

Lemma eqb_false_iff (x y : string) : negb (String.eqb x y) = true ↔ x ≠ y.
Proof. rewrite negb_true_iff. apply String.eqb_neq. Qed.

Lemma elem_of_unique (l : list string) (x : string) : x ∈ unique l ↔ x ∈ l.
Proof.
  induction l as [|y l IH]; simpl; [done|].
  rewrite !elem_of_cons, WSFacts.elem_of_List_filter, IH, eqb_false_iff.
  destruct (decide (x = y)); tauto.
Qed.

Lemma NoDup_unique (l : list string) : NoDup (unique l).
Proof.
  induction l as [|y l IH]; simpl; constructor.
  - rewrite WSFacts.elem_of_List_filter, eqb_false_iff. tauto.
  - by apply WSFacts.NoDup_List_filter.
Qed.

Lemma filter_all {A} (f : A → bool) (l : list A) :
  (∀ x, x ∈ l → f x = true) → List.filter f l = l.
Proof.
  induction l as [|x l IH]; intros H; simpl; [done|].
  rewrite (H x) by apply list_elem_of_here.
  f_equal. apply IH. intros y Hy. apply H. by apply list_elem_of_further.
Qed.


Lemma removed_false t path key :
  removed t path key = false ↔ key = path ∨ claimed t path key = false.
Proof.
  unfold removed. rewrite andb_false_iff, negb_false_iff, String.eqb_eq. tauto.
Qed.

Lemma elem_of_URL_register t path aliasURLs h key :
  key ∈ URL (register path aliasURLs h t).1
  ↔ key = path ∨ (key ∈ aliasURLs ∧ claimed t path key = false).
Proof.
  simpl. rewrite WSFacts.elem_of_List_filter, elem_of_unique, elem_of_app.
  rewrite list_elem_of_singleton, negb_true_iff, removed_false. tauto.
Qed.

Lemma path_in_URL_register t path aliasURLs h :
  path ∈ URL (register path aliasURLs h t).1.
Proof. apply elem_of_URL_register. by left. Qed.


(** The model gives the match keys that the route tests read from [URL()]. *)
Lemma test_URL_contact :
  URL (register "/contact.html" ["/"; "/top"; "/Top"] test_handlers
                no_routes).1
  = ["/"; "/top"; "/Top"; "/contact.html"].
Proof. vm_compute. reflexivity. Qed.

Lemma test_URL_unique1 :
  URL (register "/unique1.html" ["/UNIQUEtest1"; "/UNIQUEtest2"]
                test_handlers no_routes).1
  = ["/UNIQUEtest1"; "/UNIQUEtest2"; "/unique1.html"].
Proof. vm_compute. reflexivity. Qed.

Lemma test_URL_unique2 : URL unique2 = ["/UNIQUEtest3"; "/unique2.html"].
Proof. vm_compute. reflexivity. Qed.

(** C3 (as amended).  The match keys of a newly constructed route are the
    deduplicated aliases and canonical path without the aliases that another
    route already owns, each key once; when no other route owns any of the
    aliases (so on a table without routes) they are exactly the deduplicated
    aliases followed by the canonical path; and the canonical path is always
    among the keys read after construction. *)
Theorem match_keys_after_construction (t : Table) (path : string)
    (aliasURLs : list string) (h : Handlers) :
  let route := (register path aliasURLs h t).1 in
  NoDup (URL route)
  ∧ (∀ key, key ∈ URL route
            ↔ key = path ∨ (key ∈ aliasURLs ∧ claimed t path key = false))
  ∧ path ∈ URL route
  ∧ ((∀ key, key ∈ aliasURLs → claimed t path key = false) →
     URL route = unique (aliasURLs ++ [path]))
  ∧ URL (register path aliasURLs h no_routes).1 = unique (aliasURLs ++ [path]).
Proof.
  intros route. subst route.
  split; [|split; [|split; [|split]]].
  - simpl. apply WSFacts.NoDup_List_filter, NoDup_unique.
  - intros key. apply elem_of_URL_register.
  - apply path_in_URL_register.
  - intros H. simpl. apply filter_all. intros key Hkey.
    apply elem_of_unique, elem_of_app in Hkey.
    rewrite list_elem_of_singleton in Hkey.
    apply negb_true_iff, removed_false.
    destruct Hkey as [Hkey| ->]; [right; by apply H|by left].
  - simpl. apply filter_all. intros key _. unfold removed, claimed. simpl.
    by rewrite lookup_empty.
Qed.

(** C3 (as stated) fails.  In the test [getUniqueUrlArray] the second route
    is constructed with the aliases [/UNIQUEtest1] and [/UNIQUEtest3] after
    the first route took [/UNIQUEtest1]: its match keys are [/UNIQUEtest3]
    and its path only, not the union of its aliases and its path. *)
Lemma owned_alias_is_not_a_key : ¬ keys_are_aliases_and_path.
Proof.
  intros H.
  destruct (H after_unique1 "/unique2.html"
              ["/UNIQUEtest1"; "/UNIQUEtest3"] test_handlers) as [Hkeys _].
  destruct (Hkeys "/UNIQUEtest1") as [_ Hback].
  assert (Hin : "/UNIQUEtest1" ∈ URL unique2).
  { apply Hback. left. apply list_elem_of_here. }
  rewrite test_URL_unique2 in Hin.
  apply elem_of_cons in Hin as [Hin|Hin]; [discriminate Hin|].
  apply list_elem_of_singleton in Hin. discriminate Hin.
Qed.



(** In that scenario [/b2] and [/b.html] resolve to the entry of [/b.html],
    whose keys are [/b2] and its own path. *)
Lemma shared_alias_scenario :
  URL route_b = ["/b2"; "/b.html"]
  ∧ resolve after_b "/b2" = Some route_b
  ∧ resolve after_b "/b.html" = Some route_b
  ∧ resolve after_b "/shared" = Some route_a
  ∧ resolve after_b "/a.html" = Some route_a
  ∧ resolve after_b "/nowhere" = None.
Proof. vm_compute. repeat split; reflexivity. Qed.

(** A route whose canonical path an earlier route holds as an alias keeps its
    path, resolves under it and raises no warning for it. *)
Lemma path_held_as_alias_scenario :
  URL route_c = ["/c2"; "/c.html"]
  ∧ resolve after_c "/c.html" = Some route_c
  ∧ resolve after_c "/c2" = Some route_c
  ∧ resolve after_c "/a.html"
    = Some (register "/a.html" ["/c.html"] no_handlers no_routes).1
  ∧ warnings after_c = [].
Proof. vm_compute. repeat split; reflexivity. Qed.

End RouterFacts.

(* ===================================================================== *)
(** ** Properties of SystemResponse *)
(* ===================================================================== *)

Module ResponseFacts.
Import Response ResponseScenario ResponseMore.

Section WithHelpers.

Variable assignToVariables :
  string → gmap string JS.Value → option string → string.
Variable Cookie : Type.
Variable setCookie_into : Headers → Cookie → option Headers.
Variable expired : string → option string → option string → Cookie.
Variable encodeURIComponent : string → string.

Local Abbreviation send_until_await :=
  (send_until_await assignToVariables encodeURIComponent).
Local Abbreviation begin_send :=
  (begin_send assignToVariables encodeURIComponent).
Local Abbreviation redirect :=
  (redirect assignToVariables encodeURIComponent).
Local Abbreviation setText := (setText assignToVariables).
Local Abbreviation step :=
  (step assignToVariables Cookie setCookie_into expired encodeURIComponent).
Local Abbreviation run :=
  (run assignToVariables Cookie setCookie_into expired encodeURIComponent).
Local Abbreviation prepared := (prepared encodeURIComponent).
Local Abbreviation escaped_text := (escaped_text encodeURIComponent).
Local Abbreviation constructible := (constructible encodeURIComponent).

(** *** The synchronous part of [send] *)

Lemma Headers_set_octet_stream (h : Headers) :
  Headers_set "Content-Type" "application/octet-stream" h
  = Some (<["content-type" := "application/octet-stream"]> h).
Proof. reflexivity. Qed.

(** With the flag set, [send] returns at its first line. *)
Lemma send_returns_at_once arg spent this :
  responded this = true → send_until_await arg spent this = (this, AtGuard).
Proof.
  unfold responded, Response.send_until_await. by intros ->.
Qed.

(** With the flag not set, [send] reaches [new Response], and what follows
    depends on whether that returns. *)
Lemma send_passes_open_guard arg spent this :
  responded this = false →
  send_until_await arg spent this
  = match new_Response spent (body this) (Some (status this))
                       (escaped_text this)
                       (init_headers_now (prepared this)) with
    | Some res =>
        match arg with
        | AString s => (setText (BodyText s) None None (prepared this),
                        Handed res)
        | AResponse r => (prepared this, Handed r)
        | Omitted => (prepared this, Handed res)
        end
    | None => (prepared this, Threw)
    end.
Proof.
  unfold responded, Response.send_until_await, ResponseMore.prepared,
    ResponseMore.escaped_text, stored_headers.
  destruct this as [r p i [txt|] ih h s b f]; simpl; intros ->;
    destruct f; rewrite ?Headers_set_octet_stream; simpl;
    try destruct (String.eqb txt ""); reflexivity.
Qed.

Lemma new_Response_constructible spent this h :
  new_Response spent (body this) (Some (status this)) (escaped_text this) h
  = if constructible spent this
    then Some {| r_body := body this; r_status := ToUint16 (status this);
                 r_statusText := default EmptyString (escaped_text this);
                 r_headers := with_body_type (body this) h |}
    else None.
Proof. reflexivity. Qed.

Lemma responded_prepared this : responded (prepared this) = responded this.
Proof. reflexivity. Qed.

(** The synchronous part of [send] never sets the flag. *)
Lemma send_until_await_responded arg spent this :
  responded (send_until_await arg spent this).1 = responded this.
Proof.
  destruct (responded this) eqn:E.
  - by rewrite send_returns_at_once.
  - rewrite send_passes_open_guard by done.
    destruct (new_Response _ _ _ _ _); [|done]. by destruct arg.
Qed.

(** A response is handed over exactly when the flag is not set and
    [new Response] accepts what it is given. *)
Lemma send_until_await_handed arg spent this :
  (∃ res, (send_until_await arg spent this).2 = Handed res)
  ↔ responded this = false ∧ constructible spent this = true.
Proof.
  destruct (responded this) eqn:E.
  - rewrite send_returns_at_once by done. simpl. split.
    + by intros [res ?].
    + by intros [? _].
  - rewrite send_passes_open_guard, new_Response_constructible by done.
    destruct (constructible spent this); simpl.
    + split; [done|]. intros _. destruct arg; eauto.
    + split; [by intros [res ?]|by intros [_ ?]].
Qed.

(** *** Calls of [send] on an exchange *)

Lemma begin_send_responded arg x :
  responded (response x) = true → begin_send arg x = x.
Proof.
  intros H. unfold Response.begin_send.
  rewrite send_returns_at_once by done. by destruct x.
Qed.

(** A call of [send] that passes the guard either hands one response to
    [respondWith] and waits, or throws and hands over nothing. *)
Lemma begin_send_unanswered arg x :
  responded (response x) = false →
  responded (response (begin_send arg x)) = false
  ∧ spent (begin_send arg x) = spent x
  ∧ (if constructible (spent x) (response x)
     then awaiting (begin_send arg x) = S (awaiting x)
          ∧ ∃ res, respondedWith (begin_send arg x) = respondedWith x ++ [res]
     else awaiting (begin_send arg x) = awaiting x
          ∧ respondedWith (begin_send arg x) = respondedWith x).
Proof.
  intros H. unfold Response.begin_send.
  rewrite send_passes_open_guard, new_Response_constructible by done.
  destruct (constructible (spent x) (response x)).
  - destruct arg; simpl; eauto.
  - simpl. done.
Qed.

(** [redirect] is a call of [send()] on the response with its status, body
    and [Location] set, or, when the [Location] is refused, no call at
    all. *)
Lemma redirect_as_send url x :
  ∃ x', (redirect url x = begin_send Omitted x' ∨ redirect url x = x')
        ∧ responded (response x') = responded (response x)
        ∧ awaiting x' = awaiting x
        ∧ respondedWith x' = respondedWith x
        ∧ spent x' = spent x.
Proof.
  unfold Response.redirect.
  destruct (Headers_set "Location" url _) as [h|].
  - eexists. split; [left; reflexivity|done].
  - eexists. split; [right; reflexivity|done].
Qed.

(** *** The flag *)

(** No method clears the flag. *)
Lemma responded_setFile filePath status read this :
  responded (setFile assignToVariables filePath status read this)
  = responded this.
Proof.
  unfold setFile. destruct read as [[file_data [type|]]|]; try done.
  destruct (String.eqb type ""); [done|].
  unfold setType. by destruct (Headers_set _ _ _).
Qed.

(** What is neither a [send], a [redirect] nor a promise settling changes
    neither the flag nor what was sent. *)
Lemma responded_on_setters e x :
  match e with
  | call_send _ | call_redirect _ | fulfilled | rejected => True
  | _ => responded (response (step x e)) = responded (response x)
         ∧ awaiting (step x e) = awaiting x
         ∧ respondedWith (step x e) = respondedWith x
  end.
Proof.
  destruct e; simpl; try done.
  - unfold on_response_or_throw, setType.
    by destruct (Headers_set _ _ _).
  - unfold on_response_or_throw, setCookie.
    by destruct (setCookie_into _ _).
  - unfold on_response_or_throw, deleteCookie, setCookie.
    by destruct (setCookie_into _ _).
  - split; [|done]. apply responded_setFile.
Qed.

Lemma step_responded x e :
  responded (response x) = true →
  responded (response (step x e)) = true
  ∧ respondedWith (step x e) = respondedWith x
  ∧ (awaiting (step x e) ≤ awaiting x)%nat.
Proof.
  intros H. pose proof (responded_on_setters e x) as Hs.
  destruct e; try (destruct Hs as (Hr & Ha & Hw); rewrite Hr, Ha, Hw;
                   by repeat split).
  - cbn [Response.step]. by rewrite begin_send_responded.
  - cbn [Response.step].
    destruct (redirect_as_send url x) as (x' & [->| ->] & Hr & Ha & Hw & _).
    + rewrite begin_send_responded by by rewrite Hr.
      rewrite Hr, Ha, Hw. by repeat split.
    + rewrite Hr, Ha, Hw. by repeat split.
  - destruct x as [this [|n] sent streams]; simpl in *;
      repeat split; try done; lia.
  - destruct x as [this [|n] sent streams]; simpl in *;
      repeat split; try done; lia.
Qed.

Lemma run_responded x events :
  responded (response x) = true →
  responded (response (run x events)) = true
  ∧ respondedWith (run x events) = respondedWith x.
Proof.
  unfold Response.run. revert x.
  induction events as [|e l IH]; intros x H; simpl; [done|].
  destruct (step_responded x e H) as (H1 & H2 & _).
  destruct (IH _ H1) as [H3 H4]. split; [done|]. by rewrite H4.
Qed.

(** *** Counting the calls of [respondWith] *)

Lemma begin_send_counted arg x : counted x → counted (begin_send arg x).
Proof.
  intros Hc.
  destruct (responded (response x)) eqn:E.
  - by rewrite begin_send_responded.
  - destruct Hc as [Hle Hlt].
    destruct (begin_send_unanswered arg x E) as (Hr & _ & Hcase).
    destruct (constructible (spent x) (response x)).
    + destruct Hcase as (Ha & res & Hs). split.
      * rewrite Ha, Hs, length_app. simpl. lia.
      * by rewrite Hr.
    + destruct Hcase as (Ha & Hs). split.
      * by rewrite Ha, Hs.
      * by rewrite Hr.
Qed.

Lemma step_counted x e : counted x → counted (step x e).
Proof.
  intros Hc. pose proof (responded_on_setters e x) as Hs.
  destruct e; try (destruct Hs as (Hr & Ha & Hw);
                   unfold counted; rewrite Hr, Ha, Hw; exact Hc).
  - by apply begin_send_counted.
  - cbn [Response.step].
    destruct (redirect_as_send url x) as (x' & [->| ->] & Hr & Ha & Hw & _).
    + apply begin_send_counted. unfold counted. by rewrite Hr, Ha, Hw.
    + unfold counted. by rewrite Hr, Ha, Hw.
  - simpl. destruct (awaiting x) as [|n] eqn:E; [exact Hc|].
    destruct Hc as [Hle Hlt]. rewrite E in Hle.
    split; simpl; [lia|]. intros _. lia.
  - simpl. destruct (awaiting x) as [|n] eqn:E; [exact Hc|].
    destruct Hc as [Hle Hlt]. rewrite E in Hle, Hlt.
    split; simpl; [lia|]. intros H. specialize (Hlt H). lia.
Qed.

Lemma run_counted x events : counted x → counted (run x events).
Proof.
  unfold Response.run. revert x.
  induction events as [|e l IH]; intros x H; simpl; [done|].
  by apply IH, step_counted.
Qed.

Lemma settled_fulfilled x : settled x → step x fulfilled = x.
Proof. intros [Ha _]. simpl. by rewrite Ha. Qed.

Lemma send_fulfilled_settled arg x :
  settled x → settled (step (begin_send arg x) fulfilled).
Proof.
  intros (Ha & [[Hr Hw]|[Hr Hw]]).
  - destruct (begin_send_unanswered arg x Hr) as (Hr' & _ & Hcase).
    destruct (constructible (spent x) (response x)).
    + destruct Hcase as (Ha' & res & Hs).
      simpl. rewrite Ha'. split; [simpl; lia|]. right. simpl.
      split; [done|]. by rewrite Hs, Hw.
    + destruct Hcase as (Ha' & Hs).
      assert (Hsame : settled (begin_send arg x)).
      { split; [by rewrite Ha', Ha|]. left. by rewrite Hr', Hs, Hw. }
      by rewrite settled_fulfilled.
  - rewrite begin_send_responded by done.
    simpl. rewrite Ha. split; [done|]. by right.
Qed.

Lemma run_cons x e (rest : list (Event Cookie)) :
  run x (e :: rest) = run (step x e) rest.
Proof. done. Qed.

Lemma awaited_settled n (events : list (Event Cookie)) x :
  (List.length events ≤ n)%nat →
  settled x → awaited events = true → settled (run x events).
Proof.
  revert events x. induction n as [|n IH]; intros events x Hn Hx Haw.
  - destruct events; [done|simpl in Hn; lia].
  - destruct events as [|e rest]; [done|]. simpl in Hn.
    pose proof (responded_on_setters e x) as Hs.
    destruct e; simpl in Haw; try done;
      try (destruct Hs as (Hr & Ha & Hw);
           rewrite run_cons;
           apply IH; [lia| |done];
           unfold settled; rewrite Hr, Ha, Hw; exact Hx).
    + destruct rest as [|[] rest']; try done.
      change (settled (run (step (begin_send arg x) fulfilled) rest')).
      apply IH; [simpl in Hn; lia| |done].
      by apply send_fulfilled_settled.
    + destruct rest as [|[] rest']; try done.
      change (settled (run (step (redirect url x) fulfilled) rest')).
      apply IH; [simpl in Hn; lia| |done].
      destruct (redirect_as_send url x) as (x' & [->| ->] & Hr & Ha & Hw & _).
      * apply send_fulfilled_settled.
        unfold settled. by rewrite Hr, Ha, Hw.
      * assert (Hsame : settled x')
          by (unfold settled; by rewrite Hr, Ha, Hw).
        by rewrite settled_fulfilled.
Qed.

Lemma unanswered_settled x : unanswered x → settled x.
Proof. intros (Hr & Ha & Hw). split; [done|by left]. Qed.

(** C10 (as amended).  When a call of [send] that is waiting for
    [respondWith] completes, the flag [responded] is true; from then on,
    whatever methods are called and whatever other promises settle, the flag
    stays true and nothing more is handed to [respondWith]; a later call of
    [send] returns at its first line and leaves the exchange as it is, and a
    later [redirect] invokes [respondWith] no more than that.  So on a
    response on which nothing was sent, when every [send] and [redirect] is
    awaited before anything else is called, at most one response is handed
    to [respondWith]. *)
Theorem responded_is_final (x : Exchange) (events : list (Event Cookie)) :
  awaiting x ≠ 0%nat →
  let completed := step x fulfilled in
  let later := run completed events in
  responded (response completed) = true
  ∧ respondedWith completed = respondedWith x
  ∧ responded (response later) = true
  ∧ respondedWith later = respondedWith completed
  ∧ (∀ arg, send_until_await arg (spent later) (response later)
            = (response later, AtGuard)
            ∧ step later (call_send arg) = later)
  ∧ (∀ url, respondedWith (step later (call_redirect url))
            = respondedWith completed
            ∧ awaiting (step later (call_redirect url)) = awaiting later)
  ∧ (∀ (y : Exchange) (history : list (Event Cookie)),
       unanswered y → awaited history = true →
       (List.length (respondedWith (run y history)) ≤ 1)%nat).
Proof.
  intros Hwaiting completed later.
  assert (Hdone : responded (response completed) = true).
  { subst completed. simpl. by destruct (awaiting x). }
  destruct (run_responded completed events Hdone) as [Hlater Hsame].
  fold later in Hlater, Hsame.
  split; [done|]. split.
  { subst completed. simpl. by destruct (awaiting x). }
  split; [done|]. split; [done|]. split; [|split].
  - intros arg. split.
    + by apply send_returns_at_once.
    + simpl. by apply begin_send_responded.
  - intros url.
    destruct (redirect_as_send url later)
      as (x' & Hcase & Hr & Ha & Hw & _).
    assert (Hredirect : redirect url later = x').
    { destruct Hcase as [->| ->]; [|done].
      apply begin_send_responded. by rewrite Hr. }
    cbn [Response.step]. rewrite Hredirect.
    split; [by rewrite Hw|done].
  - intros y history Hy Haw.
    destruct (awaited_settled (List.length history) history y
                (le_n _) (unanswered_settled y Hy) Haw)
      as (_ & [[_ Hw]|[_ Hw]]); rewrite Hw; simpl; lia.
Qed.

End WithHelpers.

(** C10 (as stated) fails.  A handler that calls [redirect] and then [send]
    on a fresh response, without the first send having completed, has two
    responses handed to [respondWith]: the flag is set only after the
    [await], and [redirect] does not wait for its [send]. *)
Lemma overlapping_sends_respond_twice : ¬ at_most_one_response.
Proof.
  intros H.
  assert (Hopen : unanswered opened) by (repeat split; reflexivity).
  specialize (H plain_text string cookie_line expired_line no_escape opened
                [call_redirect "/elsewhere"; call_send Omitted] Hopen).
  vm_compute in H. lia.
Qed.

(** A send on a fresh response completes; then a second [send], a
    [redirect] and a late rejection change nothing about what was sent.  And
    a [redirect] and a [send] on a fresh response, each awaited, hand over
    one response. *)
Lemma responded_after_first_send :
  awaiting sending ≠ 0%nat
  ∧ unanswered opened
  ∧ awaited [call_redirect (Cookie := string) "/elsewhere"; fulfilled;
             call_send Omitted; fulfilled] = true
  ∧ (let completed :=
       step plain_text string cookie_line expired_line no_escape
            sending fulfilled in
     let later :=
       run plain_text string cookie_line expired_line no_escape completed
           [call_send (AString "again"); call_redirect "/elsewhere"; rejected]
     in
     responded (response completed) = true
     ∧ respondedWith completed = respondedWith sending
     ∧ responded (response later) = true
     ∧ respondedWith later = respondedWith completed
     ∧ (∀ arg, send_until_await plain_text no_escape arg (spent later)
                                (response later)
               = (response later, AtGuard)
               ∧ step plain_text string cookie_line expired_line no_escape
                      later (call_send arg) = later)
     ∧ (∀ url, respondedWith
                 (step plain_text string cookie_line expired_line no_escape
                       later (call_redirect url))
               = respondedWith completed
               ∧ awaiting
                   (step plain_text string cookie_line expired_line no_escape
                         later (call_redirect url))
                 = awaiting later))
  ∧ (List.length
       (respondedWith
          (run plain_text string cookie_line expired_line no_escape opened
               [call_redirect "/elsewhere"; fulfilled;
                call_send Omitted; fulfilled])) ≤ 1)%nat.
Proof.
  assert (H : awaiting sending ≠ 0%nat) by (vm_compute; discriminate).
  assert (Hu : unanswered opened) by (repeat split; reflexivity).
  assert (Ha : awaited [call_redirect (Cookie := string) "/elsewhere";
                        fulfilled; call_send Omitted; fulfilled] = true)
    by reflexivity.
  split; [exact H|]. split; [exact Hu|]. split; [exact Ha|].
  destruct (responded_is_final plain_text string cookie_line expired_line
              no_escape sending
              [call_send (AString "again"); call_redirect "/elsewhere";
               rejected] H)
    as (H1 & H2 & H3 & H4 & H5 & H6 & H7).
  split.
  - exact (conj H1 (conj H2 (conj H3 (conj H4 (conj H5 H6))))).
  - exact (H7 opened _ Hu Ha).
Defined.

End ResponseFacts.

(* ===================================================================== *)
(** ** More properties of WebSocketClient and WebSocketRoute *)
(* ===================================================================== *)

Module WSMoreFacts.
Import JS WS WSScenario WSMore.

(** *** Attributes *)

Lemma eqb_decide (x y : string) :
  String.eqb x y = bool_decide (x = y).
Proof.
  destruct (String.eqb_spec x y) as [->|H].
  - by rewrite bool_decide_eq_true_2.
  - by rewrite bool_decide_eq_false_2.
Qed.

Lemma getAttribute_setAttribute key value this k :
  getAttribute (setAttribute key value this) k
  = if decide (k = key) then value else getAttribute this k.
Proof.
  unfold getAttribute, setAttribute. simpl.
  destruct (decide (k = key)) as [->|H].
  - by rewrite lookup_insert_eq.
  - by rewrite lookup_insert_ne.
Qed.

Lemma getAttribute_removeAttribute key this k :
  getAttribute (removeAttribute key this).2 k
  = if decide (k = key) then Undefined else getAttribute this k.
Proof.
  unfold getAttribute, removeAttribute. simpl.
  destruct (decide (k = key)) as [->|H].
  - by rewrite lookup_delete_eq.
  - by rewrite lookup_delete_ne.
Qed.

(** X1.  Reading an attribute gives the value last set for its key and
    [undefined] for a key never set or removed since; [removeAttribute]
    returns the value the key had, after which the key reads [undefined];
    neither touches another key; and setting then removing a key that read
    [undefined] before leaves every key reading as before. *)
Theorem attribute_set_remove_get (this : WebSocketClient) (key : string)
    (value : Value) :
  (∀ k, getAttribute (setAttribute key value this) k
        = if decide (k = key) then value else getAttribute this k)
  ∧ (removeAttribute key this).1 = getAttribute this key
  ∧ (∀ k, getAttribute (removeAttribute key this).2 k
          = if decide (k = key) then Undefined else getAttribute this k)
  ∧ (removeAttribute key (setAttribute key value this)).1 = value
  ∧ (getAttribute this key = Undefined →
     ∀ k, getAttribute (removeAttribute key (setAttribute key value this)).2 k
          = getAttribute this k)
  ∧ (∀ webSocket url variables st k,
       getAttribute (new_WebSocketClient webSocket url variables st).1 k
       = Undefined).
Proof.
  split; [apply getAttribute_setAttribute|].
  split; [done|].
  split; [apply getAttribute_removeAttribute|].
  split.
  { unfold removeAttribute. simpl. rewrite getAttribute_setAttribute.
    by rewrite decide_True. }
  split; [|done].
  intros Hundef k. rewrite getAttribute_removeAttribute.
  destruct (decide (k = key)) as [->|H]; [done|].
  rewrite getAttribute_setAttribute. by rewrite decide_False.
Qed.

(** A client that never had the attribute [room]. *)
Lemma attribute_set_remove_get_alice :
  getAttribute alice "room" = Undefined
  ∧ ∀ k, getAttribute
           (removeAttribute "room" (setAttribute "room" (Str "x") alice)).2 k
         = getAttribute alice k.
Proof.
  split; [reflexivity|].
  exact (proj1 (proj2 (proj2 (proj2 (proj2
           (attribute_set_remove_get alice "room" (Str "x"))))))
           eq_refl).
Defined.

(** *** Objects of attributes *)

Lemma object_get_set key value o k :
  object_get (object_set key value o) k
  = if decide (k = key) then value else object_get o k.
Proof.
  induction o as [|[k0 v0] rest IH]; simpl.
  - rewrite eqb_decide. destruct (decide (k = key)) as [->|H].
    + by rewrite bool_decide_eq_true_2.
    + by rewrite bool_decide_eq_false_2.
  - rewrite (eqb_decide k0 key).
    destruct (decide (k0 = key)) as [->|H0]; simpl.
    + rewrite bool_decide_eq_true_2 by done. simpl. rewrite eqb_decide.
      destruct (decide (k = key)) as [->|H].
      * by rewrite bool_decide_eq_true_2.
      * by rewrite bool_decide_eq_false_2.
    + rewrite bool_decide_eq_false_2 by done. simpl. rewrite eqb_decide, IH.
      destruct (decide (k0 = k)) as [->|H1].
      * rewrite bool_decide_eq_true_2 by done. by rewrite decide_False.
      * by rewrite bool_decide_eq_false_2.
Qed.

Lemma elem_of_keys_object_set key value o k :
  k ∈ keys_of (object_set key value o) ↔ k = key ∨ k ∈ keys_of o.
Proof.
  unfold keys_of. induction o as [|[k0 v0] rest IH]; simpl.
  - rewrite list_elem_of_singleton, elem_of_nil. tauto.
  - rewrite (eqb_decide k0 key).
    destruct (decide (k0 = key)) as [->|H0].
    + rewrite bool_decide_eq_true_2 by done. simpl.
      rewrite elem_of_cons. tauto.
    + rewrite bool_decide_eq_false_2 by done. simpl.
      rewrite !elem_of_cons, IH. tauto.
Qed.

Lemma NoDup_keys_object_set key value o :
  NoDup (keys_of o) → NoDup (keys_of (object_set key value o)).
Proof.
  unfold keys_of. induction o as [|[k0 v0] rest IH]; simpl.
  - intros _. apply NoDup_singleton.
  - rewrite (eqb_decide k0 key). intros Hnd.
    apply NoDup_cons in Hnd as [Hk0 Hrest].
    destruct (decide (k0 = key)) as [->|H0].
    + rewrite bool_decide_eq_true_2 by done. simpl. by apply NoDup_cons.
    + rewrite bool_decide_eq_false_2 by done. simpl.
      apply NoDup_cons. split; [|auto].
      intros Hin. apply (elem_of_keys_object_set key value rest k0) in Hin.
      destruct Hin as [->|Hin]; [done|]. by apply Hk0.
Qed.

(** The object built by assigning [f key] for each of [keys] in turn. *)
Lemma collect_get (f : string → Value) keys acc k :
  object_get (foldl (fun o key => object_set key (f key) o) acc keys) k
  = if decide (k ∈ keys) then f k else object_get acc k.
Proof.
  revert acc. induction keys as [|x l IH]; intros acc; cbn [foldl].
  - by rewrite decide_False by apply not_elem_of_nil.
  - rewrite IH, object_get_set.
    destruct (decide (k ∈ l)) as [Hl|Hl].
    + by rewrite decide_True by by apply list_elem_of_further.
    + destruct (decide (k = x)) as [->|Hx].
      * by rewrite decide_True by apply list_elem_of_here.
      * rewrite decide_False; [done|].
        rewrite elem_of_cons. tauto.
Qed.

Lemma collect_keys (f : string → Value) keys acc k :
  k ∈ keys_of (foldl (fun o key => object_set key (f key) o) acc keys)
  ↔ k ∈ keys ∨ k ∈ keys_of acc.
Proof.
  revert acc. induction keys as [|x l IH]; intros acc; simpl.
  - rewrite elem_of_nil. tauto.
  - rewrite IH, elem_of_keys_object_set, elem_of_cons. tauto.
Qed.

Lemma collect_NoDup (f : string → Value) keys acc :
  NoDup (keys_of acc) →
  NoDup (keys_of (foldl (fun o key => object_set key (f key) o) acc keys)).
Proof.
  revert acc. induction keys as [|x l IH]; intros acc H; simpl; [done|].
  by apply IH, NoDup_keys_object_set.
Qed.

Lemma getAttribute_setAttributes attributes this k :
  NoDup (keys_of attributes) →
  getAttribute (setAttributes attributes this) k
  = if decide (k ∈ keys_of attributes) then object_get attributes k
    else getAttribute this k.
Proof.
  unfold setAttributes, keys_of. revert this.
  induction attributes as [|[k0 v0] rest IH]; intros this Hnd;
    cbn [foldl fmap list_fmap object_get fst snd].
  - by rewrite decide_False by apply not_elem_of_nil.
  - cbn [fmap list_fmap fst] in Hnd. apply NoDup_cons in Hnd as [Hk0 Hrest].
    rewrite IH by done. rewrite eqb_decide.
    destruct (decide (k ∈ rest.*1)) as [Hin|Hin].
    + rewrite decide_True by by apply list_elem_of_further.
      rewrite bool_decide_eq_false_2; [done|]. by intros ->.
    + rewrite getAttribute_setAttribute. simpl.
      destruct (decide (k = k0)) as [->|Hk].
      * rewrite decide_True by apply list_elem_of_here.
        by rewrite bool_decide_eq_true_2.
      * rewrite decide_False by (rewrite elem_of_cons; tauto).
        done.
Qed.

(** X2.  [getAttributes(...keys)] returns an object with exactly the keys
    asked for, each once, a key asked for twice included; each key holds
    what [getAttribute] gives for it, so an attribute that is not set is
    present with the value [undefined]; and passing the object to
    [setAttributes] of another client copies just these attributes over. *)
Theorem getAttributes_collects (keys : list string) (this : WebSocketClient) :
  NoDup (keys_of (getAttributes keys this))
  ∧ (∀ k, k ∈ keys_of (getAttributes keys this) ↔ k ∈ keys)
  ∧ (∀ k, object_get (getAttributes keys this) k
          = if decide (k ∈ keys) then getAttribute this k else Undefined)
  ∧ (∀ other k,
       getAttribute (setAttributes (getAttributes keys this) other) k
       = if decide (k ∈ keys) then getAttribute this k
         else getAttribute other k).
Proof.
  unfold getAttributes.
  assert (Hnd : NoDup (keys_of
    (foldl (fun o key => object_set key (getAttribute this key) o) [] keys))).
  { apply collect_NoDup. constructor. }
  assert (Hkeys : ∀ k, k ∈ keys_of
    (foldl (fun o key => object_set key (getAttribute this key) o) [] keys)
    ↔ k ∈ keys).
  { intros k. rewrite collect_keys. unfold keys_of. simpl.
    rewrite elem_of_nil. tauto. }
  split; [done|]. split; [done|]. split.
  - intros k. by rewrite collect_get.
  - intros other k. rewrite getAttribute_setAttributes by done.
    rewrite collect_get. simpl.
    destruct (decide (k ∈ keys)) as [Hin|Hin].
    + by rewrite decide_True by by apply Hkeys.
    + rewrite decide_False; [done|]. by rewrite Hkeys.
Qed.

Lemma frame_setAttributes attributes this :
  id (setAttributes attributes this) = id this
  ∧ webSocket (setAttributes attributes this) = webSocket this
  ∧ url (setAttributes attributes this) = url this
  ∧ variables (setAttributes attributes this) = variables this.
Proof.
  unfold setAttributes. revert this.
  induction attributes as [|kv l IH]; intros this; [done|].
  cbn [foldl]. by destruct (IH (setAttribute kv.1 kv.2 this)) as (-> & -> & -> & ->).
Qed.

(** X3.  After [setAttributes(attributes)], given an object (its keys are
    distinct), every key of the object reads the value the object holds for
    it, a falsy value or [undefined] included, and every other key reads as
    before; the id, socket, url and path variables of the client are
    untouched. *)
Theorem setAttributes_assigns (attributes : Attributes)
    (this : WebSocketClient) :
  NoDup (keys_of attributes) →
  (∀ k, getAttribute (setAttributes attributes this) k
        = if decide (k ∈ keys_of attributes) then object_get attributes k
          else getAttribute this k)
  ∧ id (setAttributes attributes this) = id this
  ∧ webSocket (setAttributes attributes this) = webSocket this
  ∧ url (setAttributes attributes this) = url this
  ∧ variables (setAttributes attributes this) = variables this.
Proof.
  intros Hnd. split; [|apply frame_setAttributes].
  intros k. by apply getAttribute_setAttributes.
Qed.

(** Alice takes a group and a type. *)
Lemma setAttributes_assigns_alice :
  NoDup (keys_of [("group", Num 1); ("type", Str "A")])
  ∧ (∀ k, getAttribute
            (setAttributes [("group", Num 1); ("type", Str "A")] alice) k
          = if decide (k ∈ keys_of [("group", Num 1); ("type", Str "A")])
            then object_get [("group", Num 1); ("type", Str "A")] k
            else getAttribute alice k)
  ∧ id (setAttributes [("group", Num 1); ("type", Str "A")] alice) = id alice
  ∧ webSocket (setAttributes [("group", Num 1); ("type", Str "A")] alice)
    = webSocket alice
  ∧ url (setAttributes [("group", Num 1); ("type", Str "A")] alice)
    = url alice
  ∧ variables (setAttributes [("group", Num 1); ("type", Str "A")] alice)
    = variables alice.
Proof.
  assert (H : NoDup (keys_of [("group", Num 1); ("type", Str "A")])).
  { unfold keys_of. simpl. apply NoDup_cons. split; [|apply NoDup_singleton].
    rewrite list_elem_of_singleton. discriminate. }
  split; [exact H|].
  exact (setAttributes_assigns [("group", Num 1); ("type", Str "A")] alice H).
Defined.

(** *** Removing several attributes *)

Lemma listed_app key l1 l2 :
  listed key (l1 ++ l2) = (listed key l1 + listed key l2)%nat.
Proof. unfold listed. by rewrite List.filter_app, length_app. Qed.

Lemma listed_zero key l : listed key l = 0%nat ↔ key ∉ l.
Proof.
  unfold listed. induction l as [|x l IH]; simpl.
  - split; [intros _; apply not_elem_of_nil|done].
  - rewrite eqb_decide, not_elem_of_cons.
    destruct (decide (key = x)) as [->|H].
    + rewrite bool_decide_eq_true_2 by done. simpl. split; [done|tauto].
    + rewrite bool_decide_eq_false_2 by done. rewrite IH. tauto.
Qed.

Lemma listed_singleton key x :
  listed key [x] = if decide (key = x) then 1%nat else 0%nat.
Proof.
  unfold listed. simpl. rewrite eqb_decide.
  destruct (decide (key = x)) as [->|H].
  - by rewrite bool_decide_eq_true_2.
  - by rewrite bool_decide_eq_false_2.
Qed.

Lemma removeAttributes_returning_snoc l x this :
  removeAttributes_returning (l ++ [x]) this
  = (object_set x
       (getAttribute (removeAttributes_returning l this).2 x)
       (removeAttributes_returning l this).1,
     (removeAttribute x (removeAttributes_returning l this).2).2).
Proof. unfold removeAttributes_returning. by rewrite foldl_app. Qed.

Lemma removeAttributes_returning_spec keys this :
  (∀ k, getAttribute (removeAttributes_returning keys this).2 k
        = if decide (k ∈ keys) then Undefined else getAttribute this k)
  ∧ (∀ k, object_get (removeAttributes_returning keys this).1 k
          = match listed k keys with
            | 1%nat => getAttribute this k
            | _ => Undefined
            end)
  ∧ (∀ k, k ∈ keys_of (removeAttributes_returning keys this).1 ↔ k ∈ keys)
  ∧ NoDup (keys_of (removeAttributes_returning keys this).1).
Proof.
  induction keys as [|x l (Hget & Hobj & Hkeys & Hnd)] using rev_ind.
  - split; [|split; [|split]].
    + intros k. by rewrite decide_False by apply not_elem_of_nil.
    + done.
    + done.
    + constructor.
  - rewrite removeAttributes_returning_snoc. cbn [fst snd].
    split; [|split; [|split]].
    + intros k. rewrite getAttribute_removeAttribute, Hget.
      destruct (decide (k = x)) as [->|Hx].
      * rewrite decide_True; [done|].
        apply elem_of_app. right. apply list_elem_of_here.
      * destruct (decide (k ∈ l)) as [Hl|Hl].
        -- by rewrite decide_True by (apply elem_of_app; by left).
        -- rewrite decide_False; [done|].
           rewrite elem_of_app, list_elem_of_singleton. tauto.
    + intros k. rewrite object_get_set, listed_app, listed_singleton, Hget.
      destruct (decide (k = x)) as [->|Hx].
      * destruct (decide (x ∈ l)) as [Hl|Hl].
        -- destruct (listed x l) eqn:E; [by apply listed_zero in E|].
           by replace (S n + 1)%nat with (S (S n)) by lia.
        -- apply listed_zero in Hl. by rewrite Hl.
      * by rewrite Nat.add_0_r, Hobj.
    + intros k.
      rewrite elem_of_keys_object_set, Hkeys, elem_of_app.
      rewrite list_elem_of_singleton. tauto.
    + by apply NoDup_keys_object_set.
Qed.

Lemma removeAttributes_returning_client keys this :
  (removeAttributes_returning keys this).2 = removeAttributes keys this.
Proof.
  unfold removeAttributes_returning, removeAttributes.
  generalize (@nil (string * Value)). revert this.
  induction keys as [|x l IH]; intros this o; [done|].
  cbn [foldl]. apply IH.
Qed.

(** X4.  After [removeAttributes(...keys)] every listed key reads
    [undefined] and every other key reads as before.  The returned object
    has the listed keys, each once; a key listed once holds the value it had
    before the call, but a key listed more than once holds [undefined],
    because its second removal finds it gone and overwrites the first
    result. *)
Theorem removeAttributes_returns (keys : list string)
    (this : WebSocketClient) :
  let removed := (removeAttributes_returning keys this).1 in
  let after := (removeAttributes_returning keys this).2 in
  after = removeAttributes keys this
  ∧ (∀ k, getAttribute after k
          = if decide (k ∈ keys) then Undefined else getAttribute this k)
  ∧ NoDup (keys_of removed)
  ∧ (∀ k, k ∈ keys_of removed ↔ k ∈ keys)
  ∧ (∀ k, listed k keys = 1%nat → object_get removed k = getAttribute this k)
  ∧ (∀ k, (1 < listed k keys)%nat → object_get removed k = Undefined).
Proof.
  intros removed after. subst removed after.
  destruct (removeAttributes_returning_spec keys this)
    as (Hget & Hobj & Hkeys & Hnd).
  split; [apply removeAttributes_returning_client|].
  split; [done|]. split; [done|]. split; [done|]. split.
  - intros k Hk. by rewrite Hobj, Hk.
  - intros k Hk. rewrite Hobj.
    destruct (listed k keys) as [|[|n]]; [done|lia|done].
Qed.

(** Removing [room] twice in one call returns [undefined] for it. *)
Lemma remove_twice_returns_undefined :
  object_get
    (removeAttributes_returning ["room"; "room"]
       (setAttribute "room" (Str "x") alice)).1 "room"
  = Undefined
  ∧ object_get
      (removeAttributes_returning ["room"]
         (setAttribute "room" (Str "x") alice)).1 "room"
    = Str "x".
Proof. vm_compute. split; reflexivity. Qed.

(** *** The registry *)

#[local] Instance key_le_trans {A} : Transitive (@key_le A).
Proof. intros x y z. unfold key_le. lia. Qed.

#[local] Instance key_le_total {A} : Total (@key_le A).
Proof. intros x y. unfold key_le. lia. Qed.

Lemma StronglySorted_keys {A} (l : list (Z * A)) :
  StronglySorted key_le l → StronglySorted Z.le l.*1.
Proof.
  induction 1 as [|p l Hs IH Hall]; simpl; constructor; [done|].
  apply Forall_fmap. eapply Forall_impl; [exact Hall|]. by intros q Hq.
Qed.

Lemma StronglySorted_le_lt (l : list Z) :
  StronglySorted Z.le l → NoDup l → StronglySorted Z.lt l.
Proof.
  induction 1 as [|x l Hs IH Hall]; intros Hnd; constructor.
  - apply IH. by apply NoDup_cons in Hnd as [_ ?].
  - apply NoDup_cons in Hnd as [Hx _].
    rewrite Forall_forall in Hall. apply Forall_forall. intros y Hy.
    specialize (Hall y Hy). assert (x ≠ y) by (by intros ->). lia.
Qed.

Lemma Object_keys_ascending {A} (o : gmap Z A) :
  StronglySorted Z.lt (Object_keys o).
Proof.
  apply StronglySorted_le_lt; [|apply WSFacts.NoDup_Object_keys].
  apply StronglySorted_keys. unfold Object_entries.
  apply StronglySorted_merge_sort; apply _.
Qed.

Lemma ids_getAllClients st :
  consistent st → id <$> getAllClients st = Object_keys (clients st).
Proof.
  intros (Hid & _). unfold getAllClients, Object_values, Object_keys.
  rewrite <- list_fmap_compose.
  apply Forall_fmap_ext, Forall_forall. intros [i c] H. simpl.
  rewrite WSFacts.Object_entries_perm in H.
  apply elem_of_map_to_list in H. by apply Hid.
Qed.

Lemma length_getAllClients st :
  JS.length (getAllClients st) = concurrentConnections st.
Proof.
  unfold concurrentConnections, getAllClients, Object_values, Object_keys.
  unfold JS.length. by rewrite !length_fmap.
Qed.

(** X5.  In every state of the registry [getAllClients()] lists the
    registered clients in ascending order of id, each once; a client is in
    the list exactly when [getClientById] of its id returns it, so a lookup
    by id never returns a client with another id; and
    [concurrentConnections] is the length of the list. *)
Theorem getAllClients_by_id (actions : list Action) :
  let st := run initial actions in
  StronglySorted Z.lt (id <$> getAllClients st)
  ∧ NoDup (getAllClients st)
  ∧ (∀ client, client ∈ getAllClients st
               ↔ getClientById st (id client) = Some client)
  ∧ (∀ i client, getClientById st i = Some client → id client = i)
  ∧ concurrentConnections st = JS.length (getAllClients st).
Proof.
  intros st.
  pose proof (WSFacts.reachable_consistent actions) as Hc. fold st in Hc.
  split; [|split; [|split; [|split]]].
  - rewrite ids_getAllClients by done. apply Object_keys_ascending.
  - by apply WSFacts.NoDup_getAllClients.
  - intros client. unfold getAllClients, getClientById.
    rewrite WSFacts.elem_of_Object_values. split.
    + intros [i Hi]. destruct Hc as (Hid & _).
      by rewrite (Hid i client Hi).
    + eauto.
  - intros i client. destruct Hc as (Hid & _). apply Hid.
  - by rewrite length_getAllClients.
Qed.

Lemma lastInsertedId_run st actions :
  lastInsertedId (run st actions)
  = lastInsertedId st + Z.of_nat (List.length (List.filter is_Open actions)).
Proof.
  unfold run. revert st.
  induction actions as [|a l IH]; intros st; simpl; [lia|].
  rewrite IH. destruct a; simpl; lia.
Qed.

Lemma bounded_keys_length (l : list Z) (n : Z) :
  0 ≤ n → NoDup l → (∀ i, i ∈ l → 0 ≤ i < n) → Z.of_nat (List.length l) ≤ n.
Proof.
  intros Hn Hnd Hb.
  assert (Hsub : l ⊆+ seqZ 0 n).
  { apply NoDup_submseteq; [done|]. intros i Hi.
    apply elem_of_seqZ. specialize (Hb i Hi). lia. }
  apply submseteq_length in Hsub. rewrite length_seqZ in Hsub. lia.
Qed.

(** X6.  [lastInsertedId] is the number of clients constructed so far, and
    [concurrentConnections] lies between zero and that number, whatever
    sockets opened and closed and whatever the handlers did. *)
Theorem connections_bounded (actions : list Action) :
  let st := run initial actions in
  lastInsertedId st = Z.of_nat (List.length (List.filter is_Open actions))
  ∧ 0 ≤ concurrentConnections st ≤ lastInsertedId st.
Proof.
  intros st. split.
  - unfold st. by rewrite lastInsertedId_run.
  - destruct (WSFacts.reachable_consistent actions) as (_ & Hlt & Hpos).
    fold st in Hlt, Hpos. unfold concurrentConnections. split.
    + unfold JS.length. lia.
    + apply bounded_keys_length;
        [done|apply WSFacts.NoDup_Object_keys|].
      intros i Hi. apply Hlt. by apply WSFacts.elem_of_Object_keys.
Qed.

(** *** Selection *)

Lemma sublist_List_filter {A} (f : A → bool) (l : list A) :
  List.filter f l `sublist_of` l.
Proof.
  induction l as [|x l IH]; simpl; [constructor|].
  destruct (f x); by constructor.
Qed.

Lemma matches_no_keys client attribute :
  keys_of attribute = [] → matches client attribute = true.
Proof. unfold matches. by intros ->. Qed.

(** X7.  [getClientsByAttribute()] without an attribute set returns no
    client; as soon as one of the sets has no keys ([{}]) it returns every
    registered client; the result is always [getAllClients()] with some
    clients left out, in the same order; and giving more sets never loses a
    client. *)
Theorem selection_edges (st : Static) (attributes : list Attributes) :
  getClientsByAttribute st [] = []
  ∧ ((∃ attribute, attribute ∈ attributes ∧ keys_of attribute = []) →
     getClientsByAttribute st attributes = getAllClients st)
  ∧ getClientsByAttribute st attributes `sublist_of` getAllClients st
  ∧ (∀ more client,
       client ∈ getClientsByAttribute st attributes →
       client ∈ getClientsByAttribute st (attributes ++ more)).
Proof.
  rewrite !WSFacts.getClientsByAttribute_matches.
  split; [|split; [|split]].
  - simpl. induction (getAllClients st) as [|c l IH]; simpl; done.
  - intros (attribute & Hin & Hkeys).
    apply RouterFacts.filter_all. intros client _.
    apply existsb_exists. exists attribute. split.
    + by apply list_elem_of_In.
    + by apply matches_no_keys.
  - apply sublist_List_filter.
  - intros more client.
    rewrite WSFacts.getClientsByAttribute_matches.
    rewrite !WSFacts.elem_of_List_filter, existsb_app.
    intros [H ->]. done.
Qed.

(** An attribute set without keys selects every client. *)
Lemma selection_edges_empty_set :
  (∃ attribute, attribute ∈ [[("room", Str "y")]; []]
                ∧ keys_of attribute = [])
  ∧ getClientsByAttribute three_clients [[("room", Str "y")]; []]
    = getAllClients three_clients.
Proof.
  assert (H : ∃ attribute, attribute ∈ [[("room", Str "y")]; []]
                           ∧ keys_of attribute = []).
  { exists []. split; [|done]. apply list_elem_of_further, list_elem_of_here. }
  split; [exact H|].
  exact (proj1 (proj2 (selection_edges three_clients
                         [[("room", Str "y")]; []])) H).
Defined.

Lemma selected_ids st attributes j :
  consistent st →
  j ∈ id <$> getClientsByAttribute st attributes
  ↔ ∃ client, clients st !! j = Some client
              ∧ existsb (matches client) attributes = true.
Proof.
  intros (Hid & _).
  rewrite list_elem_of_fmap. split.
  - intros (client & -> & Hin).
    rewrite WSFacts.getClientsByAttribute_matches in Hin.
    apply WSFacts.elem_of_List_filter in Hin as [Hall Hm].
    apply WSFacts.elem_of_Object_values in Hall as [i Hi].
    exists client. split; [|done]. by rewrite (Hid i client Hi).
  - intros (client & Hj & Hm). exists client. split.
    + symmetry. by apply Hid.
    + rewrite WSFacts.getClientsByAttribute_matches.
      apply WSFacts.elem_of_List_filter. split; [|done].
      apply WSFacts.elem_of_Object_values. eauto.
Qed.

Lemma matches_single client key query :
  existsb (matches client) [[(key, query)]] = truthy (getAttribute client key).
Proof. unfold matches. simpl. by rewrite andb_true_r, orb_false_r. Qed.

(** X8.  When a registered client sets an attribute, it is selected by that
    key afterwards exactly when the value it set is truthy: setting [0],
    the empty string, [false], [null] or [undefined] takes it out of the
    selection, as removing the attribute does; the value written in the
    query plays no part; and which other clients the key selects does not
    change. *)
Theorem selection_follows_setAttribute (actions : list Action) (i : Z)
    (key : string) (value query : Value) :
  let st := run initial actions in
  is_Some (getClientById st i) →
  let set := step st (Mutate i (SetAttribute key value)) in
  let removed := step st (Mutate i (RemoveAttribute key)) in
  (i ∈ id <$> getClientsByAttribute set [[(key, query)]]
   ↔ truthy value = true)
  ∧ (i ∉ id <$> getClientsByAttribute removed [[(key, query)]])
  ∧ (∀ j, j ≠ i →
       (j ∈ id <$> getClientsByAttribute set [[(key, query)]]
        ↔ j ∈ id <$> getClientsByAttribute st [[(key, query)]])).
Proof.
  intros st [client Hclient] set removed.
  unfold getClientById in Hclient.
  pose proof (WSFacts.reachable_consistent actions) as Hc. fold st in Hc.
  assert (Hset : consistent set) by by apply WSFacts.consistent_step.
  assert (Hrem : consistent removed) by by apply WSFacts.consistent_step.
  assert (Hl1 : clients set !! i = Some (setAttribute key value client)).
  { unfold set. cbn [step clients mutate].
    rewrite lookup_alter, decide_True by done. by rewrite Hclient. }
  assert (Hl2 : clients removed !! i = Some (removeAttribute key client).2).
  { unfold removed. cbn [step clients mutate].
    rewrite lookup_alter, decide_True by done. by rewrite Hclient. }
  split; [|split].
  - rewrite selected_ids by done. rewrite Hl1. split.
    + intros (c & Heq & Hm).
      assert (c = setAttribute key value client) as -> by congruence.
      rewrite matches_single in Hm.
      rewrite getAttribute_setAttribute in Hm. by rewrite decide_True in Hm.
    + intros Hv. eexists. split; [done|].
      rewrite matches_single, getAttribute_setAttribute.
      by rewrite decide_True.
  - rewrite selected_ids by done. rewrite Hl2.
    intros (c & Heq & Hm).
    assert (c = (removeAttribute key client).2) as -> by congruence.
    rewrite matches_single in Hm.
    rewrite getAttribute_removeAttribute in Hm.
    by rewrite decide_True in Hm.
  - intros j Hj. rewrite !selected_ids by done.
    unfold set. cbn [step clients].
    by rewrite lookup_alter, decide_False by done.
Qed.

(** The second of three clients sets [room] to the empty string. *)
Lemma selection_follows_setAttribute_room :
  is_Some (getClientById three_clients 1)
  ∧ (1 ∈ id <$> getClientsByAttribute
                  (step three_clients (Mutate 1 (SetAttribute "room" (Str ""))))
                  [[("room", Str "x")]]
     ↔ truthy (Str "") = true).
Proof.
  assert (H : is_Some (getClientById three_clients 1)).
  { vm_compute. eexists. reflexivity. }
  split; [exact H|].
  exact (proj1 (selection_follows_setAttribute
                  [Open 7 "ws://localhost/chat" ∅;
                   Open 8 "ws://localhost/chat" ∅;
                   Open 9 "ws://localhost/chat" ∅;
                   Mutate 1 (SetAttribute "room" (Str "x"))]
                  1 "room" (Str "") (Str "x") H)).
Defined.

(** *** Sending *)

Lemma outcome_all_open w clients :
  outcome w clients = Return tt
  ↔ ∀ client, client ∈ clients → readyState w (webSocket client) = OPEN.
Proof.
  unfold outcome.
  destruct (forallb (is_open w) clients) eqn:E.
  - split; [|done]. intros _ client Hin.
    rewrite forallb_forall in E. apply list_elem_of_In, E in Hin.
    unfold is_open in Hin. by destruct (readyState w (webSocket client)).
  - split; [done|]. intros H.
    assert (forallb (is_open w) clients = true) as Hall; [|congruence].
    apply forallb_forall. intros client Hin. unfold is_open.
    by rewrite (H client) by by apply list_elem_of_In.
Qed.

Lemma length_attempts w message clients :
  (List.length (attempts w message clients) ≤ List.length clients)%nat.
Proof.
  induction clients as [|client rest IH]; simpl; [done|].
  destruct (readyState w (webSocket client)); simpl; lia.
Qed.

(** X9.  A static [send] returns exactly when the socket of every target
    is open, and then it has written the message once to each target in
    order; otherwise it throws [InvalidStateError].  Either way it makes at
    most one call per target, leaves the frames written earlier in place
    and changes the state of no socket; with no target it does nothing. *)
Theorem send_returns_iff_all_open (clients : list WebSocketClient)
    (message : Payload) (w : World) :
  let result := WebSocketClient_send clients message w in
  (result.1 = Return tt
   ↔ ∀ client, client ∈ clients → readyState w (webSocket client) = OPEN)
  ∧ (result.1 = Return tt →
     written_by (WebSocketClient_send clients message) w
     = (fun client => Sent (webSocket client) message) <$> clients)
  ∧ (result.1 ≠ Return tt → result.1 = Throw "InvalidStateError")
  ∧ (List.length (written_by (WebSocketClient_send clients message) w)
     ≤ List.length clients)%nat
  ∧ wire w `prefix_of` wire result.2
  ∧ readyState result.2 = readyState w
  ∧ WebSocketClient_send [] message w = (Return tt, w).
Proof.
  intros result. subst result.
  rewrite WSFacts.written_by_send, WSFacts.WebSocketClient_send_runs.
  cbn [fst snd wire readyState].
  split; [apply outcome_all_open|]. split; [|split; [|split; [|split]]].
  - intros H. apply WSFacts.attempts_all_open. by apply outcome_all_open.
  - unfold outcome. by destruct (forallb (is_open w) clients).
  - apply length_attempts.
  - by apply prefix_app_r.
  - split; [done|]. by destruct w.
Qed.

(** X10.  Sending to the targets of one list followed by those of another
    is sending to the first list and then, when that send returned, to the
    second: a throw while writing to the first list keeps the second from
    being written at all. *)
Theorem send_append (first second : list WebSocketClient)
    (message : Payload) (w : World) :
  WebSocketClient_send (first ++ second) message w
  = (WebSocketClient_send first message
     then_ WebSocketClient_send second message) w
  ∧ ((WebSocketClient_send first message w).1 ≠ Return tt →
     WebSocketClient_send (first ++ second) message w
     = WebSocketClient_send first message w).
Proof.
  assert (Happ : WebSocketClient_send (first ++ second) message w
    = (WebSocketClient_send first message
       then_ WebSocketClient_send second message) w).
  { unfold WebSocketClient_send. revert w.
    induction first as [|client rest IH]; intros w; simpl.
    - unfold bind, ret.
      by destruct (forEach second
        (fun client => WebSocket_send (webSocket client) message) w).
    - unfold bind.
      destruct (WebSocket_send (webSocket client) message w) as [[[]|e] w'];
        [|done].
      rewrite IH. by unfold bind. }
  split; [done|]. intros Hthrow. rewrite Happ. unfold bind.
  destruct (WebSocketClient_send first message w) as [[[]|e] w']; done.
Qed.

(** Alice's socket is connecting: nothing reaches Bob. *)
Lemma send_append_alice_connecting :
  (WebSocketClient_send [alice] (Text "m") alice_connecting).1 ≠ Return tt
  ∧ WebSocketClient_send ([alice] ++ [bob]) (Text "m") alice_connecting
    = WebSocketClient_send [alice] (Text "m") alice_connecting.
Proof.
  assert (H : (WebSocketClient_send [alice] (Text "m") alice_connecting).1
              ≠ Return tt).
  { vm_compute. discriminate. }
  split; [exact H|].
  exact (proj2 (send_append [alice] [bob] (Text "m") alice_connecting) H).
Defined.

(** X11.  When the socket of every registered client is open, [sendAll]
    writes the message once to the socket of each registered client, in
    ascending order of client id, and returns; the number of frames is
    [concurrentConnections]. *)
Theorem sendAll_reaches_registered (actions : list Action)
    (message : Payload) (w : World) :
  let st := run initial actions in
  (∀ client, client ∈ getAllClients st →
             readyState w (webSocket client) = OPEN) →
  sendAll st message w
  = (Return tt,
     {| readyState := readyState w;
        wire := wire w
                ++ ((fun client => Sent (webSocket client) message)
                      <$> getAllClients st) |})
  ∧ StronglySorted Z.lt (id <$> getAllClients st)
  ∧ JS.length (written_by (sendAll st message) w) = concurrentConnections st.
Proof.
  intros st Hopen.
  pose proof (WSFacts.reachable_consistent actions) as Hc. fold st in Hc.
  unfold sendAll. rewrite WSFacts.written_by_send.
  rewrite WSFacts.WebSocketClient_send_runs.
  rewrite WSFacts.attempts_all_open by done.
  split; [|split].
  - f_equal. by apply outcome_all_open.
  - rewrite ids_getAllClients by done. apply Object_keys_ascending.
  - rewrite <- length_getAllClients. unfold JS.length.
    by rewrite length_fmap.
Qed.

(** Three clients, every socket open. *)
Lemma sendAll_three_clients :
  (∀ client, client ∈ getAllClients three_clients →
             readyState all_open (webSocket client) = OPEN)
  ∧ written_by (sendAll three_clients (Text "m")) all_open
    = [Sent 7 (Text "m"); Sent 8 (Text "m"); Sent 9 (Text "m")].
Proof.
  assert (H : ∀ client, client ∈ getAllClients three_clients →
                readyState all_open (webSocket client) = OPEN) by done.
  split; [exact H|].
  pose proof (proj1 (sendAll_reaches_registered
    [Open 7 "ws://localhost/chat" ∅;
     Open 8 "ws://localhost/chat" ∅;
     Open 9 "ws://localhost/chat" ∅;
     Mutate 1 (SetAttribute "room" (Str "x"))] (Text "m") all_open H)) as E.
  unfold written_by. change (run initial _) with three_clients in E.
  rewrite E. vm_compute. reflexivity.
Defined.

(** *** WebSocketRoute *)

Section Route.

Variable Handler : Type.
Variable default_onopen : Handler.
Variable default_onmessage : Handler.
Variable noop : Handler.

Local Abbreviation new_route :=
  (new_WebSocketRoute Handler default_onopen default_onmessage noop).
Local Abbreviation constructed_for :=
  (constructed Handler default_onopen default_onmessage noop).

Lemma stored_call k k' process (this : WebSocketRoute Handler) :
  stored Handler k (call Handler k' process this).2
  = match process with
    | Some f => if same_kind k' k then f else stored Handler k this
    | None => stored Handler k this
    end.
Proof. destruct k, k', process; reflexivity. Qed.

Lemma stored_after k (this : WebSocketRoute Handler) calls :
  stored Handler k (after Handler this calls)
  = last_set Handler k (stored Handler k this) calls.
Proof.
  unfold after, last_set. revert this.
  induction calls as [|c l IH]; intros this; simpl; [done|].
  rewrite IH, stored_call. by destruct (c.2).
Qed.

(** X12.  A route constructed from an event object, in which any member
    may be missing, and then configured by any series of calls of
    [onopen], [onclose], [onmessage] and [onerror]: called without an
    argument, each of the four returns the function last passed to it, or
    else the member of the event object, or else its default (the imported
    defaults for open and message, the empty function for close and error),
    and changes nothing; called with a function, it returns the route. *)
Theorem route_handlers (event : option (WebSocketEvent Handler))
    (calls : list (Kind * option Handler)) (k : Kind) :
  let route := after Handler (new_route event) calls in
  call Handler k None route
  = (Function (last_set Handler k (constructed_for k event) calls), route)
  ∧ (∀ f, (call Handler k (Some f) route).1 = Itself
          ∧ call Handler k None (call Handler k (Some f) route).2
            = (Function f, (call Handler k (Some f) route).2))
  ∧ constructed_for OnOpen None = default_onopen
  ∧ constructed_for OnMessage None = default_onmessage
  ∧ constructed_for OnClose None = noop
  ∧ constructed_for OnError None = noop.
Proof.
  intros route.
  assert (Hget : ∀ r, call Handler k None r = (Function (stored Handler k r), r))
    by (intros r; by destruct k).
  split; [|split; [|done]].
  - rewrite Hget. unfold route. rewrite stored_after. by destruct k.
  - intros f. split; [by destruct k|].
    rewrite Hget. by destruct k.
Qed.

End Route.

End WSMoreFacts.

(* ===================================================================== *)
(** ** More properties of SystemResponse *)
(* ===================================================================== *)

Module ResponseMoreFacts.
Import Response ResponseScenario ResponseMore.

Section WithHelpers.

Variable assignToVariables :
  string → gmap string JS.Value → option string → string.
Variable Cookie : Type.
Variable setCookie_into : Headers → Cookie → option Headers.
Variable expired : string → option string → option string → Cookie.
Variable encodeURIComponent : string → string.

Local Abbreviation send_until_await :=
  (send_until_await assignToVariables encodeURIComponent).
Local Abbreviation begin_send :=
  (begin_send assignToVariables encodeURIComponent).
Local Abbreviation redirect :=
  (redirect assignToVariables encodeURIComponent).
Local Abbreviation setText := (setText assignToVariables).
Local Abbreviation step :=
  (step assignToVariables Cookie setCookie_into expired encodeURIComponent).
Local Abbreviation run :=
  (run assignToVariables Cookie setCookie_into expired encodeURIComponent).
Local Abbreviation prepared := (prepared encodeURIComponent).
Local Abbreviation escaped_text := (escaped_text encodeURIComponent).
Local Abbreviation constructible := (constructible encodeURIComponent).
Local Abbreviation status_text_accepted :=
  (status_text_accepted encodeURIComponent).

(** *** What [respondWith] receives *)

(** X13.  On a response not yet answered, what [send] does depends on
    whether [new Response] accepts the stored body and status.  When it
    does, [send()] hands [respondWith] a response with the stored body, the
    stored status read as an unsigned short, the status text escaped, and
    the headers that [init] holds (the stored headers, with the content type
    replaced by [application/octet-stream] for a forced download), to which
    a string body adds its content type when they name none; [send(text)]
    hands over that same response, built before the text is looked at, and
    only then stores the text as body with status 200, so the text itself is
    not sent; [send(response)] hands over the given response as it is.
    When [new Response] throws, nothing is handed to [respondWith], whatever
    the argument, and body and status stay as stored. *)
Theorem send_hands_over (spent : list Z) (this : SystemResponse) :
  responded this = false →
  let given :=
    match init_headers this with
    | TheHeaders =>
        if isForceDownload this
        then <["content-type" := "application/octet-stream"]> (headers this)
        else headers this
    | OtherHeaders h => h
    end in
  (constructible spent this = true →
   ∃ res, (send_until_await Omitted spent this).2 = Handed res
          ∧ r_body res = body this
          ∧ r_status res = ToUint16 (status this)
          ∧ r_statusText res
            = match init_statusText this with
              | Some txt =>
                  if String.eqb txt "" then "" else encodeURIComponent txt
              | None => ""
              end
          ∧ r_headers res
            = match body this, given !! "content-type" with
              | BodyText _, None =>
                  <["content-type" := "text/plain;charset=UTF-8"]> given
              | _, _ => given
              end
          ∧ (∀ text,
               (send_until_await (AString text) spent this).2 = Handed res
               ∧ body (send_until_await (AString text) spent this).1
                 = BodyText (assignToVariables text (_preset this) None)
               ∧ status (send_until_await (AString text) spent this).1 = 200)
          ∧ (∀ other,
               (send_until_await (AResponse other) spent this).2
               = Handed other))
  ∧ (constructible spent this = false →
     ∀ arg, (send_until_await arg spent this).2 = Threw
            ∧ body (send_until_await arg spent this).1 = body this
            ∧ status (send_until_await arg spent this).1 = status this).
Proof.
  intros H given. split; intros Hc.
  - eexists. split; [|split; [|split; [|split; [|split; [|split]]]]].
    + rewrite ResponseFacts.send_passes_open_guard by done.
      rewrite ResponseFacts.new_Response_constructible, Hc. reflexivity.
    + reflexivity.
    + reflexivity.
    + simpl. unfold ResponseMore.escaped_text.
      destruct (init_statusText this) as [txt|]; [|done].
      simpl. by destruct (String.eqb txt "") eqn:E;
        [apply String.eqb_eq in E as ->|].
    + simpl. unfold with_body_type, init_headers_now. simpl.
      subst given. unfold stored_headers.
      by destruct (init_headers this).
    + intros text.
      rewrite ResponseFacts.send_passes_open_guard by done.
      rewrite ResponseFacts.new_Response_constructible, Hc. done.
    + intros other.
      rewrite ResponseFacts.send_passes_open_guard by done.
      by rewrite ResponseFacts.new_Response_constructible, Hc.
  - intros arg.
    rewrite ResponseFacts.send_passes_open_guard by done.
    by rewrite ResponseFacts.new_Response_constructible, Hc.
Qed.

(** *** Redirect *)



(** *** The flag and the calls of [respondWith] *)

(** X15.  Starting from a response on which nothing was sent, whatever is
    called and however the promises settle: the flag [responded] is true
    only if [respondWith] was called at least once, and the number of sends
    still waiting never exceeds the number of calls of [respondWith]. *)
Theorem responded_only_after_respondWith (x : Exchange)
    (events : list (Event Cookie)) :
  unanswered x →
  let later := run x events in
  (responded (response later) = true → respondedWith later ≠ [])
  ∧ (awaiting later ≤ List.length (respondedWith later))%nat.
Proof.
  intros (Hr & Ha & Hw) later.
  assert (Hc : counted x).
  { split; [rewrite Ha; lia|]. by rewrite Hr. }
  destruct (ResponseFacts.run_counted assignToVariables Cookie setCookie_into
              expired encodeURIComponent x events Hc) as [Hle Hlt].
  fold later in Hle, Hlt.
  split; [|done]. intros H Hnil. specialize (Hlt H).
  rewrite Hnil in Hlt. simpl in Hlt. lia.
Qed.

(** X16.  Starting from a response on which nothing was sent, if every
    [send] and [redirect] is awaited before anything else is called, then
    [respondWith] is called at most once in all, however many times [send]
    and [redirect] are called; it was called exactly once when the flag
    [responded] is true and not at all when it is false. *)
Theorem awaited_sends_respond_once (x : Exchange)
    (events : list (Event Cookie)) :
  unanswered x →
  awaited events = true →
  let later := run x events in
  (List.length (respondedWith later) ≤ 1)%nat
  ∧ (responded (response later) = true
     ↔ List.length (respondedWith later) = 1%nat)
  ∧ awaiting later = 0%nat.
Proof.
  intros Hx Haw later.
  destruct (ResponseFacts.awaited_settled assignToVariables Cookie
              setCookie_into expired encodeURIComponent
              (List.length events) events x
              (le_n _) (ResponseFacts.unanswered_settled x Hx) Haw)
    as (Ha' & [[Hr' Hw']|[Hr' Hw']]);
    fold later in Ha', Hr', Hw'.
  - rewrite Hw', Hr'. simpl. repeat split; try done; lia.
  - rewrite Hw', Hr'. repeat split; try done; lia.
Qed.

Lemma run_app x (first second : list (Event Cookie)) :
  run x (first ++ second) = run (run x first) second.
Proof. unfold Response.run. apply foldl_app. Qed.

(** Streams being locked or read change nothing else. *)
Lemma run_reading x (streams : list Z) :
  response (run x (reading streams)) = response x
  ∧ awaiting (run x (reading streams)) = awaiting x
  ∧ respondedWith (run x (reading streams)) = respondedWith x
  ∧ (∀ addr, addr ∈ spent (run x (reading streams))
             ↔ addr ∈ streams ∨ addr ∈ spent x).
Proof.
  revert x. induction streams as [|a l IH]; intros x.
  - repeat split; try done.
    + by right.
    + intros [H|H]; [by apply not_elem_of_nil in H|done].
  - change (reading (a :: l)) with (stream_spent (Cookie := Cookie) a
                                      :: reading l).
    rewrite ResponseFacts.run_cons.
    destruct (IH (step x (stream_spent a))) as (H1 & H2 & H3 & H4).
    rewrite H1, H2, H3. repeat split; try done.
    + intros H. apply H4 in H. simpl in H.
      rewrite !elem_of_cons in *. tauto.
    + intros H. apply H4. simpl.
      rewrite !elem_of_cons in *. tauto.
Qed.

(** X17.  When the promise of [respondWith] is rejected, the send that
    waited for it ends without setting the flag: the response still counts
    as not answered, whatever streams were read in between.  The next [send]
    calls [respondWith] again when [new Response] accepts the body and
    status then stored, and hands over nothing when it throws, as it does
    for a stream body that was read in between. *)
Theorem rejected_send_can_retry (x : Exchange) (arg1 arg2 : SendArgument)
    (streams : list Z) :
  unanswered x →
  constructible (spent x) (response x) = true →
  let failed := run x (call_send arg1 :: reading streams ++ [rejected]) in
  let retried := run failed [call_send arg2] in
  responded (response failed) = false
  ∧ awaiting failed = 0%nat
  ∧ List.length (respondedWith failed) = 1%nat
  ∧ (constructible (spent failed) (response failed) = true →
     List.length (respondedWith retried) = 2%nat
     ∧ awaiting retried = 1%nat)
  ∧ (constructible (spent failed) (response failed) = false →
     respondedWith retried = respondedWith failed
     ∧ awaiting retried = 0%nat)
  ∧ (∀ addr, body (response failed) = BodyStream addr → addr ∈ streams →
             constructible (spent failed) (response failed) = false).
Proof.
  intros (Hr & Ha & Hw) Hc failed retried.
  destruct (ResponseFacts.begin_send_unanswered assignToVariables
              encodeURIComponent arg1 x Hr) as (Hr1 & Hsp1 & Hcase).
  rewrite Hc in Hcase. destruct Hcase as (Ha1 & res1 & Hs1).
  destruct (run_reading (begin_send arg1 x) streams) as (R1 & R2 & R3 & R4).
  set (read := run (begin_send arg1 x) (reading streams)) in *.
  assert (Hfailed : failed = step read rejected).
  { subst failed read. rewrite ResponseFacts.run_cons, run_app. done. }
  assert (Hwait : awaiting read = 1%nat) by (rewrite R2, Ha1, Ha; done).
  assert (F1 : response failed = response (begin_send arg1 x)).
  { rewrite Hfailed. simpl. rewrite Hwait. simpl. done. }
  assert (F2 : awaiting failed = 0%nat).
  { rewrite Hfailed. simpl. rewrite Hwait. done. }
  assert (F3 : respondedWith failed = [res1]).
  { rewrite Hfailed. simpl. rewrite Hwait. simpl.
    by rewrite R3, Hs1, Hw. }
  assert (F4 : spent failed = spent read).
  { rewrite Hfailed. simpl. rewrite Hwait. done. }
  assert (Hopen : responded (response failed) = false) by by rewrite F1.
  split; [done|]. split; [done|]. split; [by rewrite F3|].
  destruct (ResponseFacts.begin_send_unanswered assignToVariables
              encodeURIComponent arg2 failed Hopen) as (_ & _ & Hcase).
  split; [|split].
  - intros Hc2. rewrite Hc2 in Hcase. destruct Hcase as (Ha2 & res2 & Hs2).
    subst retried. simpl. rewrite Hs2, Ha2, F3, F2. done.
  - intros Hc2. rewrite Hc2 in Hcase. destruct Hcase as (Ha2 & Hs2).
    subst retried. simpl. rewrite Hs2, Ha2, F2. done.
  - intros addr Hbody Hin.
    unfold ResponseMore.constructible, Response_accepts. rewrite Hbody.
    rewrite F4. rewrite (bool_decide_eq_true_2 (addr ∈ spent read)).
    + simpl. by rewrite !andb_false_r.
    + apply R4. by left.
Qed.

(** *** Text and preset *)

(** X18.  [setText] substitutes the variables of a string with the preset
    stored at the time of the call, so a preset given afterwards does not
    reach a body already set, while a body that is not a string is stored
    as it is; the status becomes the one given, or 200 when none is given;
    and on a response not yet answered, [send()] afterwards hands
    [respondWith] this body and this status, read as an unsigned short,
    when [new Response] accepts them: the status is then within 200..599
    and none of 204, 205 and 304, and the status text of [init] is a reason
    phrase once escaped.  Otherwise [new Response] throws and nothing is
    handed over. *)
Theorem setText_then_send (spent : list Z) (this : SystemResponse)
    (text : string) (status : option Z) (filePath : option string)
    (object : gmap string JS.Value) :
  responded this = false →
  let set := setText (BodyText text) status filePath this in
  let code := ToUint16 (default 200 status) in
  body set = BodyText (assignToVariables text (_preset this) filePath)
  ∧ Response.status set = default 200 status
  ∧ body (preset object set) = body set
  ∧ body (setText (BodyText text) status filePath (preset object this))
    = BodyText (assignToVariables text object filePath)
  ∧ (∀ bytes, body (setText (BodyBytes bytes) status filePath this)
              = BodyBytes bytes)
  ∧ constructible spent set
    = ((200 <=? code) && (code <=? 599) && status_text_accepted this
       && negb ((code =? 204) || (code =? 205) || (code =? 304)))
  ∧ (constructible spent set = true →
     ∃ res, (send_until_await Omitted spent set).2 = Handed res
            ∧ r_body res
              = BodyText (assignToVariables text (_preset this) filePath)
            ∧ r_status res = code)
  ∧ (constructible spent set = false →
     (send_until_await Omitted spent set).2 = Threw).
Proof.
  intros H set code. subst set.
  repeat (split; [done|]).
  assert (H' : responded (setText (BodyText text) status filePath this)
               = false) by done.
  split; [|split].
  - unfold ResponseMore.constructible, Response_accepts,
      ResponseMore.status_text_accepted.
    change (escaped_text (setText (BodyText text) status filePath this))
      with (escaped_text this).
    cbn [body Response.status Response.setText with_content].
    fold code. unfold null_body_status.
    destruct (200 <=? code) eqn:E1; [|done].
    apply Z.leb_le in E1.
    rewrite (proj2 (Z.eqb_neq code 101)) by lia.
    rewrite (proj2 (Z.eqb_neq code 103)) by lia.
    done.
  - intros Hc.
    rewrite ResponseFacts.send_passes_open_guard by done.
    rewrite ResponseFacts.new_Response_constructible, Hc.
    eexists. split; [reflexivity|]. done.
  - intros Hc.
    rewrite ResponseFacts.send_passes_open_guard by done.
    by rewrite ResponseFacts.new_Response_constructible, Hc.
Qed.

End WithHelpers.

(** A fresh response: [send("hello")] sends the body of the constructor. *)
Lemma send_hands_over_fresh :
  responded fresh = false
  ∧ ∃ res,
      (send_until_await plain_text no_escape Omitted [] fresh).2 = Handed res
      ∧ r_body res = BodyText "500 Internal Server Error"
      ∧ (send_until_await plain_text no_escape (AString "hello") [] fresh).2
        = Handed res.
Proof.
  split; [reflexivity|].
  destruct (proj1 (send_hands_over plain_text no_escape [] fresh eq_refl)
              eq_refl)
    as (res & H1 & H2 & _ & _ & _ & H3 & _).
  exists res. split; [exact H1|]. split; [exact H2|].
  exact (proj1 (H3 "hello")).
Defined.

(** A body stored with status 204: [send] throws and sends nothing. *)
Lemma send_hands_over_no_content :
  (send_until_await plain_text no_escape Omitted []
     (Response.setText plain_text (BodyText "") (Some 204) None fresh)).2
  = Threw.
Proof. reflexivity. Qed.

(** A [Location] with a line feed inside is refused, and nothing is sent;
    one with spaces around it is stored without them. *)
Lemma redirect_refuses_line_feed :
  respondedWith
    (Response.redirect plain_text no_escape split_location opened) = []
  ∧ headers
      (response (Response.redirect plain_text no_escape " /next " opened))
    !! "location" = Some "/next".
Proof. split; reflexivity. Qed.


(** A send on a fresh response, awaited. *)
Lemma responded_only_after_respondWith_fresh :
  unanswered opened
  ∧ (responded
       (response
          (run plain_text string cookie_line expired_line no_escape opened
               [call_send Omitted; fulfilled])) = true →
     respondedWith
       (run plain_text string cookie_line expired_line no_escape opened
            [call_send Omitted; fulfilled]) ≠ []).
Proof.
  assert (H : unanswered opened) by (repeat split; reflexivity).
  split; [exact H|].
  exact (proj1 (responded_only_after_respondWith plain_text string
                  cookie_line expired_line no_escape opened
                  [call_send Omitted; fulfilled] H)).
Defined.

(** A redirect, then a send, then another send, each awaited. *)
Lemma awaited_sends_respond_once_fresh :
  unanswered opened
  ∧ awaited [call_redirect (Cookie := string) "/elsewhere"; fulfilled;
             call_send Omitted; fulfilled;
             call_send (AString "again"); fulfilled] = true
  ∧ (List.length
       (respondedWith
          (run plain_text string cookie_line expired_line no_escape opened
               [call_redirect "/elsewhere"; fulfilled;
                call_send Omitted; fulfilled;
                call_send (AString "again"); fulfilled])) ≤ 1)%nat.
Proof.
  assert (H : unanswered opened) by (repeat split; reflexivity).
  assert (Ha : awaited [call_redirect (Cookie := string) "/elsewhere";
                        fulfilled; call_send Omitted; fulfilled;
                        call_send (AString "again"); fulfilled] = true)
    by reflexivity.
  split; [exact H|]. split; [exact Ha|].
  exact (proj1 (awaited_sends_respond_once plain_text string cookie_line
                  expired_line no_escape opened _ H Ha)).
Defined.

(** A send whose [respondWith] is rejected, and the retry. *)
Lemma rejected_send_can_retry_fresh :
  unanswered opened
  ∧ constructible no_escape (spent opened) (response opened) = true
  ∧ responded
      (response
         (run plain_text string cookie_line expired_line no_escape opened
              (call_send Omitted :: reading [] ++ [rejected]))) = false
  ∧ List.length
      (respondedWith
         (run plain_text string cookie_line expired_line no_escape
              (run plain_text string cookie_line expired_line no_escape
                   opened (call_send Omitted :: reading [] ++ [rejected]))
              [call_send Omitted])) = 2%nat.
Proof.
  assert (H : unanswered opened) by (repeat split; reflexivity).
  assert (Hc : constructible no_escape (spent opened) (response opened)
               = true) by reflexivity.
  split; [exact H|]. split; [exact Hc|].
  destruct (rejected_send_can_retry plain_text string cookie_line
              expired_line no_escape opened Omitted Omitted [] H Hc)
    as (H1 & _ & _ & H2 & _).
  split; [exact H1|]. exact (proj1 (H2 eq_refl)).
Defined.

(** A stream body that was read while the first send waited: the retry
    throws and hands over nothing. *)
Lemma retry_with_spent_stream :
  let streamed :=
    on_response (Response.setText plain_text (BodyStream 7) None None)
                opened in
  let failed :=
    run plain_text string cookie_line expired_line no_escape streamed
        (call_send Omitted :: reading [7] ++ [rejected]) in
  List.length (respondedWith failed) = 1%nat
  ∧ step plain_text string cookie_line expired_line no_escape failed
         (call_send Omitted) = failed.
Proof. split; reflexivity. Qed.

(** A page set with status 404 on a fresh response, and sent. *)
Lemma setText_then_send_fresh :
  responded fresh = false
  ∧ constructible no_escape []
      (setText plain_text (BodyText "not here") (Some 404) None fresh) = true
  ∧ ∃ res,
      (send_until_await plain_text no_escape Omitted []
         (setText plain_text (BodyText "not here") (Some 404) None fresh)).2
      = Handed res
      ∧ r_body res = BodyText "not here"
      ∧ r_status res = 404.
Proof.
  assert (Hc : constructible no_escape []
                 (setText plain_text (BodyText "not here") (Some 404) None
                          fresh) = true) by reflexivity.
  split; [reflexivity|]. split; [exact Hc|].
  destruct (setText_then_send plain_text no_escape [] fresh
              "not here" (Some 404) None ∅ eq_refl)
    as (_ & _ & _ & _ & _ & _ & Hsent & _).
  exact (Hsent Hc).
Defined.

End ResponseMoreFacts.

(* ===================================================================== *)
(** ** Properties of the logger *)
(* ===================================================================== *)

Module LoggerFacts.
Import Logger.

Section WithPath.

Variable dirname : string → string.

Local Abbreviation ensureDir := (ensureDir).
Local Abbreviation ensureFile := (ensureFile dirname).
Local Abbreviation read := (read dirname).
Local Abbreviation write := (write dirname).
Local Abbreviation insert := (insert dirname).
Local Abbreviation record := (record dirname).

(** *** Paths *)

Lemma before_last_slash_shorter (s d : string) :
  before_last_slash s = Some d → (String.length d < String.length s)%nat.
Proof.
  revert d. induction s as [|c rest IH]; intros d; simpl; [done|].
  destruct (before_last_slash rest) as [d'|].
  - intros [= <-]. specialize (IH d' eq_refl). simpl. lia.
  - destruct (Ascii.eqb c slash); [|done]. intros [= <-]. simpl. lia.
Qed.

Lemma parent_shorter (path d : string) :
  parent path = Some d → (String.length d < String.length path)%nat.
Proof.
  unfold parent.
  destruct (before_last_slash path) as [d'|] eqn:E; [|done].
  destruct (String.eqb d' "" || String.eqb d' "."); [done|].
  intros [= <-]. by apply before_last_slash_shorter.
Qed.

Lemma ancestors_upto_enough (n m : nat) (path : string) :
  (String.length path ≤ n)%nat → (String.length path ≤ m)%nat →
  ancestors_upto n path = ancestors_upto m path.
Proof.
  revert m path. induction n as [|n IH]; intros m path Hn Hm.
  - destruct path; [|simpl in Hn; lia]. by destruct m.
  - destruct m as [|m].
    + destruct path; [done|simpl in Hm; lia].
    + simpl. destruct (parent path) as [d|] eqn:E; [|done].
      apply parent_shorter in E. f_equal. apply IH; lia.
Qed.

Lemma ancestors_parent (path d : string) :
  parent path = Some d → ancestors path = d :: ancestors d.
Proof.
  intros H. pose proof (parent_shorter _ _ H) as Hlt.
  unfold ancestors. destruct (String.length path) as [|n] eqn:E; [lia|].
  simpl. rewrite H. f_equal. apply ancestors_upto_enough; lia.
Qed.

Lemma ancestors_top (path : string) : parent path = None → ancestors path = [].
Proof.
  intros H. unfold ancestors. destruct (String.length path); [done|].
  simpl. by rewrite H.
Qed.

Lemma ancestors_upto_shorter (n : nat) (path a : string) :
  a ∈ ancestors_upto n path → (String.length a < String.length path)%nat.
Proof.
  revert path. induction n as [|n IH]; intros path; simpl.
  - intros H. by apply not_elem_of_nil in H.
  - destruct (parent path) as [d|] eqn:E.
    + apply parent_shorter in E.
      rewrite elem_of_cons. intros [->|H]; [done|].
      specialize (IH d H). lia.
    + intros H. by apply not_elem_of_nil in H.
Qed.

Lemma ancestors_shorter (path a : string) :
  a ∈ ancestors path → (String.length a < String.length path)%nat.
Proof. apply ancestors_upto_shorter. Qed.

Lemma under_file_parent (fs : gmap string Node) (path d : string) :
  parent path = Some d →
  under_file fs path = is_file fs d || under_file fs d.
Proof. intros H. unfold under_file. by rewrite (ancestors_parent _ _ H). Qed.

Lemma under_file_top (fs : gmap string Node) (path : string) :
  parent path = None → under_file fs path = false.
Proof. intros H. unfold under_file. by rewrite ancestors_top. Qed.

Lemma under_file_false (fs : gmap string Node) (path a : string) :
  under_file fs path = false → a ∈ ancestors path → is_file fs a = false.
Proof.
  unfold under_file. intros H Ha.
  destruct (is_file fs a) eqn:E; [|done].
  assert (Hex : existsb (is_file fs) (ancestors path) = true).
  { apply existsb_exists. exists a. split; [by apply list_elem_of_In|done]. }
  congruence.
Qed.

(** *** What the paths name *)

Lemma node_at_listed (fs : gmap string Node) path node :
  fs !! path = Some node → node_at fs path = Some node.
Proof. unfold node_at. by intros ->. Qed.

Lemma node_at_None (fs : gmap string Node) path :
  node_at fs path = None → fs !! path = None.
Proof. unfold node_at. by destruct (fs !! path). Qed.

Lemma node_at_insert (fs : gmap string Node) path node q :
  node_at (<[path := node]> fs) q
  = if decide (q = path) then Some node else node_at fs q.
Proof.
  unfold node_at. destruct (decide (q = path)) as [->|Hne].
  - by rewrite lookup_insert_eq.
  - by rewrite lookup_insert_ne.
Qed.

(** The directories made are those of the list that were missing; what was
    there stays. *)
Lemma node_at_make_directories (dirs : list string) (fs : gmap string Node) q :
  node_at (make_directories dirs fs) q
  = match node_at fs q with
    | Some node => Some node
    | None => if bool_decide (q ∈ dirs) then Some Directory else None
    end.
Proof.
  induction dirs as [|d l IH]; cbn [make_directories foldr].
  - destruct (node_at fs q); [done|].
    by rewrite bool_decide_eq_false_2 by apply not_elem_of_nil.
  - fold (make_directories l fs).
    destruct (node_at (make_directories l fs) d) as [node|] eqn:Ed.
    + rewrite IH. destruct (node_at fs q) as [n|] eqn:Eq; [done|].
      destruct (bool_decide (q ∈ l)) eqn:El.
      * apply bool_decide_eq_true_1 in El.
        by rewrite bool_decide_eq_true_2 by by apply list_elem_of_further.
      * apply bool_decide_eq_false_1 in El.
        rewrite bool_decide_eq_false_2; [done|].
        rewrite elem_of_cons. intros [->|Hin]; [|done].
        congruence.
    + rewrite node_at_insert. destruct (decide (q = d)) as [->|Hne].
      * rewrite IH in Ed. destruct (node_at fs d); [done|].
        by rewrite bool_decide_eq_true_2 by apply list_elem_of_here.
      * rewrite IH. destruct (node_at fs q); [done|].
        destruct (bool_decide (q ∈ l)) eqn:El.
        -- apply bool_decide_eq_true_1 in El.
           by rewrite bool_decide_eq_true_2 by by apply list_elem_of_further.
        -- apply bool_decide_eq_false_1 in El.
           rewrite bool_decide_eq_false_2; [done|].
           rewrite elem_of_cons. by intros [?|?].
Qed.

Lemma make_directories_listed (dirs : list string) (fs : gmap string Node)
    q node :
  fs !! q = Some node → make_directories dirs fs !! q = Some node.
Proof.
  intros H. induction dirs as [|d l IH]; cbn [make_directories foldr]; [done|].
  fold (make_directories l fs).
  destruct (node_at (make_directories l fs) d) eqn:Ed; [done|].
  rewrite lookup_insert_ne; [done|]. intros <-.
  apply node_at_None in Ed. congruence.
Qed.

(** *** Ensuring the directory *)

Lemma ensureDir_on_directory dir (fs : gmap string Node) :
  node_at fs dir = Some Directory → ensureDir dir fs = (Done tt, fs).
Proof.
  intros H. unfold Logger.ensureDir, try_catch, and_then, lstat.
  by rewrite H.
Qed.

Lemma ensureDir_creates dir (fs : gmap string Node) :
  node_at fs dir = None → under_file fs dir = false →
  ensureDir dir fs = (Done tt, make_directories (dir :: ancestors dir) fs).
Proof.
  intros H Hu. unfold Logger.ensureDir, try_catch, and_then, lstat, missing.
  rewrite H, Hu. simpl. unfold mkdir. by rewrite H, Hu.
Qed.

(** *** Ensuring the file *)

Lemma ensureFile_on_file filePath text (fs : gmap string Node) :
  fs !! filePath = Some (File text) → ensureFile filePath fs = (Done tt, fs).
Proof.
  intros H. unfold Logger.ensureFile, try_catch, and_then, lstat.
  by rewrite (node_at_listed _ _ _ H).
Qed.

Lemma ensureFile_on_directory filePath (fs : gmap string Node) :
  fs !! filePath = Some Directory →
  ensureFile filePath fs = (Failed (ExpectedFile filePath), fs).
Proof.
  intros H. unfold Logger.ensureFile, try_catch, and_then, lstat.
  by rewrite (node_at_listed _ _ _ H).
Qed.

(** A path that leads through a file: the error of the runtime passes
    through [ensureFile]. *)
Lemma ensureFile_under_file filePath (fs : gmap string Node) :
  node_at fs filePath = None → under_file fs filePath = true →
  ensureFile filePath fs = (Failed NotADirectory, fs).
Proof.
  intros H Hu. unfold Logger.ensureFile, try_catch, and_then, lstat, missing.
  by rewrite H, Hu.
Qed.

Lemma ensureFile_missing filePath (fs : gmap string Node) :
  node_at fs filePath = None → under_file fs filePath = false →
  ensureFile filePath fs
  = and_then (ensureDir (dirname filePath))
             (fun _ => writeTextFile filePath "") fs.
Proof.
  intros H Hu. unfold Logger.ensureFile, try_catch, lstat, missing.
  unfold and_then at 1. by rewrite H, Hu.
Qed.

Lemma writeTextFile_done path text (fs : gmap string Node) :
  (writeTextFile path text fs).1 = Done tt →
  (writeTextFile path text fs).2 = <[path := File text]> fs.
Proof.
  unfold writeTextFile.
  destruct (node_at fs path) as [[old|]|]; try done.
  destruct (parent path) as [d|]; [|done].
  by destruct (node_at fs d) as [[t|]|].
Qed.

(** When [ensureFile] returns, the path names a file: the one it named
    before, or a new empty one. *)
Lemma ensureFile_done filePath (fs : gmap string Node) :
  (ensureFile filePath fs).1 = Done tt →
  ∃ text,
    (ensureFile filePath fs).2 !! filePath = Some (File text)
    ∧ text = match fs !! filePath with
             | Some (File old) => old
             | _ => ""
             end.
Proof.
  destruct (fs !! filePath) as [[old|]|] eqn:E.
  - rewrite (ensureFile_on_file _ old) by done. eauto.
  - by rewrite ensureFile_on_directory.
  - destruct (node_at fs filePath) as [[old|]|] eqn:En.
    + unfold node_at in En. rewrite E in En.
      by destruct (always_there filePath).
    + unfold Logger.ensureFile, try_catch, and_then, lstat.
      by rewrite En.
    + destruct (under_file fs filePath) eqn:Eu.
      * by rewrite ensureFile_under_file.
      * rewrite ensureFile_missing by done. unfold and_then.
        destruct (ensureDir (dirname filePath) fs) as [[[]|e] fs1]; [|done].
        intros H. exists "". split; [|done].
        rewrite (writeTextFile_done _ _ _ H). apply lookup_insert_eq.
Qed.

(** *** File systems as they can be *)

Lemma always_there_top (path : string) :
  always_there path = true → ancestors path = [].
Proof.
  unfold always_there. rewrite !orb_true_iff, !String.eqb_eq.
  intros [[->| ->]| ->]; reflexivity.
Qed.

(** The directories a directory on the way leads through are on the way
    too. *)
Lemma ancestors_upto_trans (n : nat) (path p a : string) :
  (String.length path ≤ n)%nat →
  p ∈ ancestors path → a ∈ ancestors p → a ∈ ancestors path.
Proof.
  revert path. induction n as [|n IH]; intros path Hn Hp Ha.
  - destruct path; [|simpl in Hn; lia].
    by apply not_elem_of_nil in Hp.
  - destruct (parent path) as [q|] eqn:E.
    + pose proof (parent_shorter _ _ E) as Hlt.
      rewrite (ancestors_parent _ _ E) in Hp |- *.
      apply elem_of_cons in Hp as [->|Hp].
      * by apply list_elem_of_further.
      * apply list_elem_of_further. apply (IH q); [lia|done|done].
    + rewrite (ancestors_top _ E) in Hp. by apply not_elem_of_nil in Hp.
Qed.

Lemma ancestors_trans (path p a : string) :
  p ∈ ancestors path → a ∈ ancestors p → a ∈ ancestors path.
Proof. by apply (ancestors_upto_trans (String.length path)). Qed.

Lemma well_formed_empty : well_formed ∅.
Proof. intros path node H. by rewrite lookup_empty in H. Qed.

(** On a file system as it can be, what is there leads through no file. *)
Lemma well_formed_under_file (fs : gmap string Node) path node :
  well_formed fs → node_at fs path = Some node → under_file fs path = false.
Proof.
  intros Hwf H. unfold under_file.
  destruct (existsb (is_file fs) (ancestors path)) eqn:E; [|done].
  apply existsb_exists in E as (d & Hd & Hfile).
  apply list_elem_of_In in Hd.
  unfold node_at in H. destruct (fs !! path) as [n|] eqn:El.
  - unfold is_file in Hfile. by rewrite (Hwf _ _ El d Hd) in Hfile.
  - destruct (always_there path) eqn:Et; [|done].
    rewrite (always_there_top _ Et) in Hd. by apply not_elem_of_nil in Hd.
Qed.

Lemma well_formed_make_directories (fs : gmap string Node) dir :
  well_formed fs → under_file fs dir = false → node_at fs dir = None →
  well_formed (make_directories (dir :: ancestors dir) fs).
Proof.
  intros Hwf Hu Hdir path node Hpath d Hd.
  rewrite node_at_make_directories.
  destruct (fs !! path) as [n|] eqn:El.
  - by rewrite (Hwf _ _ El d Hd).
  - assert (Hnew : node_at (make_directories (dir :: ancestors dir) fs) path
                   = Some node) by by apply node_at_listed.
    rewrite node_at_make_directories in Hnew.
    assert (Hin : path ∈ dir :: ancestors dir).
    { unfold node_at in Hnew at 1. rewrite El in Hnew.
      destruct (always_there path) eqn:Et.
      - rewrite (always_there_top _ Et) in Hd.
        by apply not_elem_of_nil in Hd.
      - destruct (bool_decide (path ∈ dir :: ancestors dir)) eqn:Eb; [|done].
        by apply bool_decide_eq_true_1 in Eb. }
    assert (Hd' : d ∈ ancestors dir).
    { apply elem_of_cons in Hin as [->|Hin]; [done|].
      by apply (ancestors_trans dir path d). }
    pose proof (under_file_false fs dir d Hu Hd') as Hfile.
    unfold is_file in Hfile.
    destruct (node_at fs d) as [[t|]|]; [done|done|].
    by rewrite bool_decide_eq_true_2 by by apply list_elem_of_further.
Qed.

Lemma well_formed_writeTextFile (fs : gmap string Node) path text :
  well_formed fs → well_formed (writeTextFile path text fs).2.
Proof.
  intros Hwf.
  assert (Hkeep : ∀ old, node_at fs path = Some (File old) ∨
                         node_at fs path = None →
                         (∀ d, d ∈ ancestors path →
                               node_at fs d = Some Directory) →
                         well_formed (<[path := File text]> fs)).
  { intros old Hnode Hanc q node Hq d Hd.
    assert (Hne : d ≠ path
                  ∨ ∃ t, node_at fs path = Some (File t) ∧ d = path).
    { destruct (decide (d = path)) as [->|Hne]; [|by left].
      destruct Hnode as [Hnode|Hnode]; [right; eauto|].
      exfalso. destruct (decide (q = path)) as [->|Hqp].
      - apply ancestors_shorter in Hd. lia.
      - rewrite lookup_insert_ne in Hq by done.
        rewrite (Hwf _ _ Hq path Hd) in Hnode. done. }
    destruct Hne as [Hne|(t & Ht & ->)].
    - rewrite node_at_insert, decide_False by done.
      destruct (decide (q = path)) as [->|Hqp].
      + by apply Hanc.
      + rewrite lookup_insert_ne in Hq by done. by apply (Hwf _ _ Hq).
    - exfalso. destruct (decide (q = path)) as [->|Hqp].
      + apply ancestors_shorter in Hd. lia.
      + rewrite lookup_insert_ne in Hq by done.
        rewrite (Hwf _ _ Hq path Hd) in Ht. done. }
  unfold writeTextFile.
  destruct (node_at fs path) as [[old|]|] eqn:En; cbn [snd]; [|done|].
  - apply (Hkeep old); [by left|].
    intros d Hd. unfold node_at in En.
    destruct (fs !! path) as [n|] eqn:El.
    + by apply (Hwf _ _ El).
    + by destruct (always_there path).
  - destruct (parent path) as [d|] eqn:Ep.
    + destruct (node_at fs d) as [[t|]|] eqn:Ed; cbn [snd]; try done.
      apply (Hkeep ""); [by right|].
      intros a Ha. rewrite (ancestors_parent _ _ Ep) in Ha.
      apply elem_of_cons in Ha as [->|Ha]; [done|].
      unfold node_at in Ed. destruct (fs !! d) as [n|] eqn:El.
      * by apply (Hwf _ _ El).
      * destruct (always_there d) eqn:Et; [|done].
        rewrite (always_there_top _ Et) in Ha.
        by apply not_elem_of_nil in Ha.
    + cbn [snd]. apply (Hkeep ""); [by right|].
      intros a Ha. rewrite (ancestors_top _ Ep) in Ha.
      by apply not_elem_of_nil in Ha.
Qed.

Lemma well_formed_ensureDir (fs : gmap string Node) dir :
  well_formed fs → well_formed (ensureDir dir fs).2.
Proof.
  intros Hwf. unfold Logger.ensureDir, try_catch, and_then, lstat, missing.
  destruct (node_at fs dir) as [[t|]|] eqn:En; cbn; try done.
  destruct (under_file fs dir) eqn:Eu; cbn; [done|].
  unfold mkdir. rewrite En, Eu. cbn [snd].
  by apply well_formed_make_directories.
Qed.

Lemma well_formed_ensureFile (fs : gmap string Node) filePath :
  well_formed fs → well_formed (ensureFile filePath fs).2.
Proof.
  intros Hwf. unfold Logger.ensureFile, try_catch, lstat, missing.
  unfold and_then at 1.
  destruct (node_at fs filePath) as [[t|]|] eqn:En; cbn; try done.
  destruct (under_file fs filePath) eqn:Eu; cbn; [done|].
  unfold and_then.
  pose proof (well_formed_ensureDir fs (dirname filePath) Hwf) as Hdir.
  destruct (ensureDir (dirname filePath) fs) as [[[]|e] fs1]; [|done].
  by apply well_formed_writeTextFile.
Qed.

(** The methods of the logger keep the file system as it can be. *)
Lemma well_formed_methods (this : Logger) (name text : string) (log : Log)
    (fs : gmap string Node) :
  well_formed fs →
  well_formed (read this name fs).2
  ∧ well_formed (write this name text fs).2
  ∧ well_formed (insert this name text fs).2
  ∧ well_formed (record this log fs).2.
Proof.
  assert (Hread : ∀ n fs0, well_formed fs0 → well_formed (read this n fs0).2).
  { intros n fs0 Hwf. unfold Logger.read, and_then.
    pose proof (well_formed_ensureFile fs0 (path_of this n) Hwf) as He.
    destruct (ensureFile (path_of this n) fs0) as [[[]|e] fs1]; [|done].
    unfold readTextFile. by destruct (node_at fs1 _) as [[t|]|]. }
  assert (Hwrite : ∀ n t fs0, well_formed fs0 →
                              well_formed (write this n t fs0).2).
  { intros n t fs0 Hwf. unfold Logger.write, and_then.
    pose proof (well_formed_ensureFile fs0 (path_of this n) Hwf) as He.
    destruct (ensureFile (path_of this n) fs0) as [[[]|e] fs1]; [|done].
    by apply well_formed_writeTextFile. }
  assert (Hinsert : ∀ n t fs0, well_formed fs0 →
                               well_formed (insert this n t fs0).2).
  { intros n t fs0 Hwf. unfold Logger.insert, and_then.
    pose proof (Hread n fs0 Hwf) as Hr.
    destruct (read this n fs0) as [[texts|e] fs1]; [|done].
    by apply Hwrite. }
  intros Hwf. split; [by apply Hread|]. split; [by apply Hwrite|].
  split; [by apply Hinsert|].
  unfold Logger.record, and_then.
  pose proof (Hread (fileName log) fs Hwf) as Hr.
  destruct (read this (fileName log) fs) as [[texts|e] fs1]; [|done].
  cbn [snd] in Hr.
  destruct (String.eqb texts "").
  - pose proof (Hinsert (fileName log) (headerLine log) fs1 Hr) as Hi.
    destruct (insert this (fileName log) (headerLine log) fs1)
      as [[[]|e] fs2]; [|done].
    by apply Hinsert.
  - unfold pure. by apply Hinsert.
Qed.

(** *** The methods on a path that names a file *)

Lemma read_on_file this name text (fs : gmap string Node) :
  fs !! path_of this name = Some (File text) →
  read this name fs = (Done text, fs).
Proof.
  intros H. unfold Logger.read, and_then.
  rewrite (ensureFile_on_file _ text) by done.
  unfold readTextFile. by rewrite (node_at_listed _ _ _ H).
Qed.

Lemma write_on_file this name old text (fs : gmap string Node) :
  fs !! path_of this name = Some (File old) →
  write this name text fs
  = (Done tt, <[path_of this name := File text]> fs).
Proof.
  intros H. unfold Logger.write, and_then.
  rewrite (ensureFile_on_file _ old) by done.
  unfold writeTextFile. by rewrite (node_at_listed _ _ _ H).
Qed.

Lemma insert_on_file this name old text (fs : gmap string Node) :
  fs !! path_of this name = Some (File old) →
  insert this name text fs
  = (Done tt, <[path_of this name := File (old +:+ text)]> fs).
Proof.
  intros H. unfold Logger.insert, and_then.
  rewrite (read_on_file _ _ old) by done.
  by rewrite (write_on_file _ _ old).
Qed.

Lemma record_on_file this log old (fs : gmap string Node) :
  fs !! path_of this (fileName log) = Some (File old) →
  record this log fs
  = (Done tt,
     <[path_of this (fileName log) := File (recorded old log)]> fs).
Proof.
  intros H. unfold Logger.record, recorded, and_then.
  rewrite (read_on_file _ _ old) by done.
  destruct (String.eqb old "") eqn:E.
  - apply String.eqb_eq in E. subst old.
    rewrite (insert_on_file _ _ "") by done.
    rewrite (insert_on_file _ _ ("" +:+ headerLine log))
      by apply lookup_insert_eq.
    by rewrite insert_insert_eq.
  - unfold pure. by rewrite (insert_on_file _ _ old).
Qed.

(** *** The methods on any file system *)

(** Each method begins by ensuring the file, and fails as that does. *)
Lemma methods_fail_with_ensureFile this name e (fs : gmap string Node) :
  (ensureFile (path_of this name) fs).1 = Failed e →
  read this name fs = (Failed e, (ensureFile (path_of this name) fs).2)
  ∧ (∀ text, write this name text fs
             = (Failed e, (ensureFile (path_of this name) fs).2))
  ∧ (∀ text, insert this name text fs
             = (Failed e, (ensureFile (path_of this name) fs).2)).
Proof.
  intros H.
  assert (Hread : read this name fs
                  = (Failed e, (ensureFile (path_of this name) fs).2)).
  { unfold Logger.read, and_then.
    destruct (ensureFile (path_of this name) fs) as [[[]|e'] fs'];
      simpl in *; congruence. }
  split; [done|]. split.
  - intros text. unfold Logger.write, and_then.
    destruct (ensureFile (path_of this name) fs) as [[[]|e'] fs'];
      simpl in *; congruence.
  - intros text. unfold Logger.insert, and_then. by rewrite Hread.
Qed.

Lemma methods_after_ensureFile this name (fs : gmap string Node) :
  (ensureFile (path_of this name) fs).1 = Done tt →
  ∃ old,
    (ensureFile (path_of this name) fs).2 !! path_of this name
    = Some (File old)
    ∧ old = match fs !! path_of this name with
            | Some (File text) => text
            | _ => ""
            end
    ∧ read this name fs = read this name (ensureFile (path_of this name) fs).2
    ∧ (∀ text, write this name text fs
               = write this name text (ensureFile (path_of this name) fs).2)
    ∧ (∀ text, insert this name text fs
               = insert this name text
                   (ensureFile (path_of this name) fs).2).
Proof.
  intros H. destruct (ensureFile_done _ _ H) as (old & Hfile & Hold).
  exists old. split; [done|]. split; [done|].
  assert (Hread : read this name fs
            = read this name (ensureFile (path_of this name) fs).2).
  { rewrite (read_on_file this name old _ Hfile).
    unfold Logger.read, and_then.
    destruct (ensureFile (path_of this name) fs) as [[[]|e'] fs'];
      simpl in *; [|done].
    unfold readTextFile. by rewrite (node_at_listed _ _ _ Hfile). }
  split; [done|]. split.
  - intros text. rewrite (write_on_file _ _ old _ _ Hfile).
    unfold Logger.write, and_then.
    destruct (ensureFile (path_of this name) fs) as [[[]|e'] fs'];
      simpl in *; [|done].
    unfold writeTextFile. by rewrite (node_at_listed _ _ _ Hfile).
  - intros text. unfold Logger.insert, and_then. by rewrite Hread.
Qed.

Lemma record_with_ensureFile this log (fs : gmap string Node) :
  match (ensureFile (path_of this (fileName log)) fs).1 with
  | Done _ =>
      record this log fs
      = record this log (ensureFile (path_of this (fileName log)) fs).2
  | Failed e =>
      record this log fs
      = (Failed e, (ensureFile (path_of this (fileName log)) fs).2)
  end.
Proof.
  destruct ((ensureFile (path_of this (fileName log)) fs).1) as [[]|e] eqn:E.
  - destruct (methods_after_ensureFile this _ fs E)
      as (old & _ & _ & Hread & _).
    unfold Logger.record, and_then. by rewrite Hread.
  - destruct (methods_fail_with_ensureFile this _ e fs E) as (Hread & _).
    unfold Logger.record, and_then. by rewrite Hread.
Qed.

Lemma append_empty (s1 s2 : string) : s1 +:+ s2 = "" → s1 = "" ∧ s2 = "".
Proof. destruct s1; simpl; [done|discriminate]. Qed.

Lemma recorded_not_empty old log : recorded old log ≠ "".
Proof.
  unfold recorded, toString, headerLine.
  destruct (String.eqb old "") eqn:E; intros H.
  - apply append_empty in H as [H _]. by apply append_empty in H as [_ H].
  - apply append_empty in H as [H _]. subst old. done.
Qed.

(** X19.  [read(fileName)] returns the text of the file when the path names
    a file, and changes nothing.  When the path names nothing and leads
    through no file, and [path.dirname] gives the directory the path lies
    in, [read] creates the file, empty, and returns the empty string: in the
    directory as it is when that exists, and otherwise after creating that
    directory and every directory missing on the way to it, whatever was
    there before staying as it was.  When the path names a directory,
    [read] throws the error of [ensureFile]; when the path leads through a
    file, so when the log directory is a file, it throws the runtime's
    error for that; both change nothing. *)
Theorem read_creates_missing_file (this : Logger) (name : string)
    (fs : gmap string Node) :
  let filePath := path_of this name in
  let dir := dirname filePath in
  (∀ text, fs !! filePath = Some (File text) →
           read this name fs = (Done text, fs))
  ∧ (node_at fs filePath = None →
     under_file fs filePath = false →
     parent filePath = Some dir ∨ parent filePath = None →
     node_at fs dir = Some Directory →
     read this name fs = (Done "", <[filePath := File ""]> fs))
  ∧ (node_at fs filePath = None →
     under_file fs filePath = false →
     parent filePath = Some dir →
     node_at fs dir = None →
     let fs' := (read this name fs).2 in
     read this name fs
     = (Done "",
        <[filePath := File ""]> (make_directories (dir :: ancestors dir) fs))
     ∧ fs' !! filePath = Some (File "")
     ∧ (∀ d, d ∈ ancestors filePath → node_at fs' d = Some Directory)
     ∧ (∀ q node, fs !! q = Some node → fs' !! q = Some node)
     ∧ (∀ q, q ≠ filePath → q ∉ ancestors filePath →
             node_at fs' q = node_at fs q))
  ∧ (fs !! filePath = Some Directory →
     read this name fs = (Failed (ExpectedFile filePath), fs))
  ∧ (node_at fs filePath = None →
     under_file fs filePath = true →
     read this name fs = (Failed NotADirectory, fs))
  ∧ (∀ text, node_at fs filePath = None →
             parent filePath = Some dir →
             fs !! dir = Some (File text) →
             read this name fs = (Failed NotADirectory, fs)).
Proof.
  intros filePath dir.
  assert (Hunder : node_at fs filePath = None →
                   under_file fs filePath = true →
                   read this name fs = (Failed NotADirectory, fs)).
  { intros H Hu. unfold Logger.read, and_then.
    fold filePath. by rewrite ensureFile_under_file. }
  split; [|split; [|split; [|split; [|split]]]].
  - intros text H. by apply read_on_file.
  - intros H Hu Hparent Hdir. unfold Logger.read, and_then. fold filePath.
    rewrite ensureFile_missing by done. unfold and_then. fold dir.
    rewrite ensureDir_on_directory by done.
    unfold writeTextFile. rewrite H.
    assert (Hw : match parent filePath with
                 | Some d =>
                     match node_at fs d with
                     | Some Directory =>
                         (Done tt, <[filePath := File ""]> fs)
                     | _ => (Failed (missing fs filePath), fs)
                     end
                 | None => (Done tt, <[filePath := File ""]> fs)
                 end = (Done tt, <[filePath := File ""]> fs)).
    { destruct Hparent as [-> | ->]; [by rewrite Hdir|done]. }
    rewrite Hw. unfold readTextFile.
    by rewrite node_at_insert, decide_True.
  - intros H Hu Hparent Hdir fs'.
    assert (Hanc : ancestors filePath = dir :: ancestors dir)
      by by apply ancestors_parent.
    assert (Hud : under_file fs dir = false).
    { rewrite (under_file_parent _ _ _ Hparent) in Hu.
      by apply orb_false_iff in Hu as [_ ?]. }
    set (fs1 := make_directories (dir :: ancestors dir) fs).
    assert (Hnot : filePath ∉ dir :: ancestors dir).
    { rewrite <- Hanc. intros Hin. apply ancestors_shorter in Hin. lia. }
    assert (H1 : node_at fs1 filePath = None).
    { unfold fs1. rewrite node_at_make_directories, H.
      by rewrite bool_decide_eq_false_2. }
    assert (H2 : node_at fs1 dir = Some Directory).
    { unfold fs1. rewrite node_at_make_directories, Hdir.
      by rewrite bool_decide_eq_true_2 by apply list_elem_of_here. }
    assert (Hread : read this name fs
                    = (Done "", <[filePath := File ""]> fs1)).
    { unfold Logger.read, and_then. fold filePath.
      rewrite ensureFile_missing by done. unfold and_then. fold dir.
      rewrite ensureDir_creates by done. fold fs1.
      unfold writeTextFile. rewrite H1, Hparent, H2.
      unfold readTextFile. by rewrite node_at_insert, decide_True. }
    split; [exact Hread|].
    unfold fs'. rewrite Hread. cbn [snd].
    split; [apply lookup_insert_eq|]. split; [|split].
    + intros d Hd. rewrite node_at_insert.
      rewrite decide_False
        by (intros ->; apply ancestors_shorter in Hd; lia).
      unfold fs1. rewrite node_at_make_directories.
      pose proof (under_file_false fs filePath d Hu Hd) as Hfile.
      unfold is_file in Hfile.
      destruct (node_at fs d) as [[t|]|]; [done|done|].
      rewrite <- Hanc. by rewrite bool_decide_eq_true_2.
    + intros q node Hq.
      rewrite lookup_insert_ne.
      * by apply make_directories_listed.
      * intros <-. apply node_at_None in H. congruence.
    + intros q Hq1 Hq2. rewrite node_at_insert, decide_False by done.
      unfold fs1. rewrite node_at_make_directories.
      destruct (node_at fs q); [done|].
      rewrite <- Hanc. by rewrite bool_decide_eq_false_2.
  - intros H. unfold Logger.read, and_then. fold filePath.
    by rewrite ensureFile_on_directory.
  - exact Hunder.
  - intros text H Hparent Hdir. apply Hunder; [done|].
    rewrite (under_file_parent _ _ _ Hparent).
    unfold is_file. by rewrite (node_at_listed _ _ _ Hdir).
Qed.

(** X20.  When [write(fileName, text)] returns, a [read] of the same file
    returns exactly [text], whatever the file held before, and changes
    nothing; a second [write] replaces the text rather than adding to
    it. *)
Theorem write_then_read (this : Logger) (name text : string)
    (fs : gmap string Node) :
  (write this name text fs).1 = Done tt →
  let fs' := (write this name text fs).2 in
  read this name fs' = (Done text, fs')
  ∧ (∀ text', read this name (write this name text' fs').2
              = (Done text', (write this name text' fs').2)).
Proof.
  intros H fs'.
  assert (He : (ensureFile (path_of this name) fs).1 = Done tt).
  { destruct ((ensureFile (path_of this name) fs).1) as [[]|e] eqn:E;
      [done|].
    destruct (methods_fail_with_ensureFile this name e fs E)
      as (_ & Hw & _).
    rewrite Hw in H. done. }
  destruct (methods_after_ensureFile this name fs He)
    as (old & Hfile & _ & _ & Hw & _).
  assert (Hfs' : fs' !! path_of this name = Some (File text)).
  { unfold fs'. rewrite Hw, (write_on_file _ _ old _ _ Hfile). simpl.
    apply lookup_insert_eq. }
  split; [by apply read_on_file|].
  intros text'. rewrite (write_on_file _ _ text _ _ Hfs'). simpl.
  apply read_on_file, lookup_insert_eq.
Qed.

(** X21.  When [insert(fileName, text)] returns, the file holds what a
    [read] returned before the call, followed by [text]; for a file that
    did not exist that is [text] alone. *)
Theorem insert_appends (this : Logger) (name text : string)
    (fs : gmap string Node) :
  (insert this name text fs).1 = Done tt →
  let fs' := (insert this name text fs).2 in
  ∃ old,
    (read this name fs).1 = Done old
    ∧ old = match fs !! path_of this name with
            | Some (File before) => before
            | _ => ""
            end
    ∧ read this name fs' = (Done (old +:+ text), fs').
Proof.
  intros H fs'.
  assert (He : (ensureFile (path_of this name) fs).1 = Done tt).
  { destruct ((ensureFile (path_of this name) fs).1) as [[]|e] eqn:E;
      [done|].
    destruct (methods_fail_with_ensureFile this name e fs E)
      as (_ & _ & Hi).
    rewrite Hi in H. done. }
  destruct (methods_after_ensureFile this name fs He)
    as (old & Hfile & Hold & Hr & _ & Hi).
  exists old. split; [|split; [done|]].
  - by rewrite Hr, (read_on_file _ _ old).
  - unfold fs'. rewrite Hi, (insert_on_file _ _ old _ _ Hfile). simpl.
    apply read_on_file, lookup_insert_eq.
Qed.

(** X22.  When [record(log)] returns, the log file holds: the header line
    and then the line of the log, if the file was empty or missing; what
    it held before and then the line of the log, otherwise.  A log recorded
    next in the same file adds its line only, so the header line stands
    once, at the top. *)
Theorem record_writes_header_once (this : Logger) (log : Log)
    (fs : gmap string Node) :
  (record this log fs).1 = Done tt →
  let fs' := (record this log fs).2 in
  ∃ old,
    (read this (fileName log) fs).1 = Done old
    ∧ read this (fileName log) fs'
      = (Done (if String.eqb old ""
               then headerLine log +:+ toString log
               else old +:+ toString log), fs')
    ∧ (∀ next, fileName next = fileName log →
         (record this next fs').1 = Done tt
         ∧ (read this (fileName log) (record this next fs').2).1
           = Done ((if String.eqb old ""
                    then headerLine log +:+ toString log
                    else old +:+ toString log) +:+ toString next)).
Proof.
  intros H fs'.
  pose proof (record_with_ensureFile this log fs) as Hrec.
  destruct ((ensureFile (path_of this (fileName log)) fs).1)
    as [[]|e] eqn:He; [|by rewrite Hrec in H].
  destruct (methods_after_ensureFile this _ fs He)
    as (old & Hfile & Hold & Hr & _).
  assert (Hfs' : fs' !! path_of this (fileName log)
                 = Some (File (recorded old log))).
  { unfold fs'. rewrite Hrec, (record_on_file _ _ old _ Hfile). simpl.
    apply lookup_insert_eq. }
  exists old. split; [|split].
  - by rewrite Hr, (read_on_file _ _ old).
  - by apply read_on_file.
  - intros next Hname. rewrite <- Hname in Hfs'.
    rewrite (record_on_file _ _ _ _ Hfs'). simpl. split; [done|].
    rewrite <- Hname.
    rewrite (read_on_file _ _ (recorded (recorded old log) next))
      by apply lookup_insert_eq.
    simpl. f_equal. unfold recorded at 1.
    destruct (String.eqb (recorded old log) "") eqn:E; [|done].
    apply String.eqb_eq in E. by apply recorded_not_empty in E.
Qed.

(** X23.  When the path of the log file names a directory, [read], [write],
    [insert] and [record] all throw the error of [ensureFile] and change
    nothing. *)
Theorem directory_in_the_way (this : Logger) (log : Log) (text : string)
    (fs : gmap string Node) :
  fs !! path_of this (fileName log) = Some Directory →
  let e := ExpectedFile (path_of this (fileName log)) in
  read this (fileName log) fs = (Failed e, fs)
  ∧ write this (fileName log) text fs = (Failed e, fs)
  ∧ insert this (fileName log) text fs = (Failed e, fs)
  ∧ record this log fs = (Failed e, fs).
Proof.
  intros H e.
  pose proof (ensureFile_on_directory _ _ H) as He.
  assert (He1 : (ensureFile (path_of this (fileName log)) fs).1 = Failed e)
    by by rewrite He.
  destruct (methods_fail_with_ensureFile this _ e fs He1) as (Hr & Hw & Hi).
  pose proof (record_with_ensureFile this log fs) as Hrec.
  rewrite He1 in Hrec. rewrite He in Hr, Hw, Hi, Hrec. simpl in *.
  by rewrite Hr, Hw, Hi, Hrec.
Qed.

End WithPath.

Import LoggerScenario.

(** A first write on an empty disk. *)
Lemma write_then_read_empty_disk :
  (write simple_dirname logger "request.log" "x" empty_disk).1 = Done tt
  ∧ read simple_dirname logger "request.log"
         (write simple_dirname logger "request.log" "x" empty_disk).2
    = (Done "x", (write simple_dirname logger "request.log" "x" empty_disk).2).
Proof.
  assert (H : (write simple_dirname logger "request.log" "x" empty_disk).1
              = Done tt) by (vm_compute; reflexivity).
  split; [exact H|].
  exact (proj1 (write_then_read simple_dirname logger "request.log" "x"
                  empty_disk H)).
Defined.

(** A first insert on an empty disk. *)
Lemma insert_appends_empty_disk :
  (insert simple_dirname logger "request.log" "x" empty_disk).1 = Done tt
  ∧ ∃ old,
      (read simple_dirname logger "request.log" empty_disk).1 = Done old
      ∧ old = match empty_disk !! path_of logger "request.log" with
              | Some (File before) => before
              | _ => ""
              end
      ∧ read simple_dirname logger "request.log"
             (insert simple_dirname logger "request.log" "x" empty_disk).2
        = (Done (old +:+ "x"),
           (insert simple_dirname logger "request.log" "x" empty_disk).2).
Proof.
  assert (H : (insert simple_dirname logger "request.log" "x" empty_disk).1
              = Done tt) by (vm_compute; reflexivity).
  split; [exact H|].
  exact (insert_appends simple_dirname logger "request.log" "x"
           empty_disk H).
Defined.

(** The first request recorded on an empty disk. *)
Lemma record_first_request :
  (record simple_dirname logger first_request empty_disk).1 = Done tt
  ∧ ∃ old,
      (read simple_dirname logger (fileName first_request) empty_disk).1
      = Done old
      ∧ read simple_dirname logger (fileName first_request)
             (record simple_dirname logger first_request empty_disk).2
        = (Done (if String.eqb old ""
                 then headerLine first_request +:+ toString first_request
                 else old +:+ toString first_request),
           (record simple_dirname logger first_request empty_disk).2)
      ∧ (∀ next, fileName next = fileName first_request →
           (record simple_dirname logger next
              (record simple_dirname logger first_request empty_disk).2).1
           = Done tt
           ∧ (read simple_dirname logger (fileName first_request)
                (record simple_dirname logger next
                   (record simple_dirname logger first_request
                      empty_disk).2).2).1
             = Done ((if String.eqb old ""
                      then headerLine first_request
                           +:+ toString first_request
                      else old +:+ toString first_request)
                     +:+ toString next)).
Proof.
  assert (H : (record simple_dirname logger first_request empty_disk).1
              = Done tt) by (vm_compute; reflexivity).
  split; [exact H|].
  exact (record_writes_header_once simple_dirname logger first_request
           empty_disk H).
Defined.

(** A directory where the request log should be. *)
Lemma directory_in_the_way_request_log :
  blocked_disk !! path_of logger (fileName first_request) = Some Directory
  ∧ record simple_dirname logger first_request blocked_disk
    = (Failed (ExpectedFile (path_of logger (fileName first_request))),
       blocked_disk).
Proof.
  assert (H : blocked_disk !! path_of logger (fileName first_request)
              = Some Directory) by (vm_compute; reflexivity).
  split; [exact H|].
  exact (proj2 (proj2 (proj2 (directory_in_the_way simple_dirname logger
                                first_request "x" blocked_disk H)))).
Defined.

(** A logger two directories down, on an empty disk: the path names nothing
    and leads through no file, and the first [read] returns the empty
    string. *)
Lemma read_creates_missing_file_nested :
  node_at empty_disk (path_of nested_logger "request.log") = None
  ∧ under_file empty_disk (path_of nested_logger "request.log") = false
  ∧ parent (path_of nested_logger "request.log")
    = Some (simple_dirname (path_of nested_logger "request.log"))
  ∧ node_at empty_disk (simple_dirname (path_of nested_logger "request.log"))
    = None
  ∧ (read simple_dirname nested_logger "request.log" empty_disk).2
    !! path_of nested_logger "request.log" = Some (File "")
  ∧ (∀ d, d ∈ ancestors (path_of nested_logger "request.log") →
          node_at (read simple_dirname nested_logger "request.log"
                        empty_disk).2 d = Some Directory).
Proof.
  assert (H1 : node_at empty_disk (path_of nested_logger "request.log")
               = None) by reflexivity.
  assert (H2 : under_file empty_disk (path_of nested_logger "request.log")
               = false) by reflexivity.
  assert (H3 : parent (path_of nested_logger "request.log")
               = Some (simple_dirname (path_of nested_logger "request.log")))
    by reflexivity.
  assert (H4 : node_at empty_disk
                 (simple_dirname (path_of nested_logger "request.log"))
               = None) by reflexivity.
  split; [exact H1|]. split; [exact H2|]. split; [exact H3|].
  split; [exact H4|].
  destruct (read_creates_missing_file simple_dirname nested_logger
              "request.log" empty_disk) as (_ & _ & Hcreate & _).
  destruct (Hcreate H1 H2 H3 H4) as (_ & E1 & E2 & _).
  split; [exact E1|exact E2].
Defined.

(** A logger two directories down, on an empty disk: the first [read]
    creates both directories and the empty file. *)
Lemma read_creates_nested_directories :
  read simple_dirname nested_logger "request.log" empty_disk
  = (Done "",
     {[ "./var" := Directory; "./var/log" := Directory;
        "./var/log/request.log" := File "" ]}).
Proof. vm_compute. reflexivity. Qed.

(** A file where the log directory should be: every method throws the
    runtime's error and changes nothing. *)
Lemma file_where_the_directory_should_be :
  read simple_dirname logger "request.log" file_as_directory
  = (Failed NotADirectory, file_as_directory)
  ∧ record simple_dirname logger first_request file_as_directory
    = (Failed NotADirectory, file_as_directory).
Proof. split; vm_compute; reflexivity. Qed.

End LoggerFacts.
